(** * CodeReadAI: structural extractor, analysis pipeline and job state machine

  A shallow embedding of the Python sources
  - [backend/app/services/parser_service.py]  (module [ParserService]),
  - [backend/app/api/jobs.py]                 (module [JobsApi]),
  - [backend/app/worker/tasks.py]             (module [Tasks]),
  followed by the properties established about them.

  Python [str] values are [string]s, [None]-able values are [option]s,
  lists are [list]s, exceptions are the [Raise] constructor of [Result],
  and the database session is an explicit state record threaded through
  the task functions. *)

From Stdlib Require Import String Ascii List ZArith Lia Bool Arith PeanoNat.
From Stdlib Require Import Permutation Sorted SpecFloat.
Import ListNotations.
Set Warnings "-register-all".
Local Open Scope list_scope.
Local Open Scope string_scope.

(* ===================================================================== *)
(** * Python built-ins used by the sources *)
(* ===================================================================== *)

Module Py.

(** Truthiness of a [str | None] value: [if x:] holds for a non-empty
    string only. *)
Definition truthy (x : option string) : bool :=
  match x with
  | Some (String _ _) => true
  | _ => false
  end.

(** [x in xs] for a list of strings. *)
Fixpoint mem (x : string) (xs : list string) : bool :=
  match xs with
  | [] => false
  | y :: ys => String.eqb x y || mem x ys
  end.

(** [dict.get(key)] on a dictionary written as a list of items. *)
Fixpoint dict_get {V : Type} (d : list (string * V)) (key : string) : option V :=
  match d with
  | [] => None
  | (k, v) :: rest => if String.eqb k key then Some v else dict_get rest key
  end.

(** [s.startswith(p)]. *)
Fixpoint startswith (s p : string) {struct p} : bool :=
  match p with
  | EmptyString => true
  | String a p' =>
      match s with
      | EmptyString => false
      | String b s' => Ascii.eqb a b && startswith s' p'
      end
  end.

(** [sub in s] for strings. *)
Fixpoint contains (sub s : string) : bool :=
  startswith s sub ||
  match s with
  | EmptyString => false
  | String _ rest => contains sub rest
  end.

(** [s.split(sep)] for a one-character separator: never the empty list. *)
Fixpoint split (sep : ascii) (s : string) : list string :=
  match s with
  | EmptyString => [EmptyString]
  | String c rest =>
      if Ascii.eqb c sep then EmptyString :: split sep rest
      else match split sep rest with
           | h :: t => String c h :: t
           | [] => [String c EmptyString]
           end
  end.

(** [sep.join(parts)]. *)
Definition join (sep : string) (parts : list string) : string :=
  String.concat sep parts.

(** [s.count(c)] for a one-character pattern. *)
Fixpoint count (c : ascii) (s : string) : nat :=
  match s with
  | EmptyString => 0
  | String d rest => (if Ascii.eqb d c then 1 else 0) + count c rest
  end.

(** White space removed by [str.strip()], on the ASCII range. *)
Definition is_space (c : ascii) : bool :=
  let n := nat_of_ascii c in
  (Nat.leb 9 n && Nat.leb n 13) || (Nat.leb 28 n && Nat.leb n 32).

Fixpoint lstrip (s : string) : string :=
  match s with
  | EmptyString => EmptyString
  | String c rest => if is_space c then lstrip rest else s
  end.

Fixpoint rstrip (s : string) : string :=
  match s with
  | EmptyString => EmptyString
  | String c rest =>
      match rstrip rest with
      | EmptyString => if is_space c then EmptyString else String c EmptyString
      | r => String c r
      end
  end.

Definition strip (s : string) : string := rstrip (lstrip s).

(** [s.endswith(":")] and the like, for a one-character suffix. *)
Fixpoint endswith_char (s : string) (c : ascii) : bool :=
  match s with
  | EmptyString => false
  | String d EmptyString => Ascii.eqb d c
  | String _ rest => endswith_char rest c
  end.

(** [s.lower()], on the ASCII range. *)
Definition lower_ascii (c : ascii) : ascii :=
  let n := nat_of_ascii c in
  if Nat.leb 65 n && Nat.leb n 90 then ascii_of_nat (n + 32) else c.

Fixpoint lower (s : string) : string :=
  match s with
  | EmptyString => EmptyString
  | String c rest => String (lower_ascii c) (lower rest)
  end.

(** [s[i:j]]: slicing clamps at the end of the string. *)
Definition slice (s : string) (i j : nat) : string := String.substring i (j - i) s.

(** Cut a string at its last ["/"]: the head keeps the separator. *)
Fixpoint rsplit_sep (s : string) : option (string * string) :=
  match s with
  | EmptyString => None
  | String c rest =>
      match rsplit_sep rest with
      | Some (h, t) => Some (String c h, t)
      | None => if Ascii.eqb c "/" then Some ("/", rest) else None
      end
  end.

Fixpoint all_sep (s : string) : bool :=
  match s with
  | EmptyString => true
  | String c rest => Ascii.eqb c "/" && all_sep rest
  end.

(** [head.rstrip("/")]. *)
Fixpoint rstrip_sep (s : string) : string :=
  match s with
  | EmptyString => EmptyString
  | String c rest =>
      match rstrip_sep rest with
      | EmptyString => if Ascii.eqb c "/" then EmptyString else String c EmptyString
      | r => String c r
      end
  end.

(** [os.path.dirname] (posixpath): everything up to the last ["/"], with
    trailing separators removed unless the head consists of separators
    only. *)
Definition dirname (p : string) : string :=
  match rsplit_sep p with
  | None => ""
  | Some (head, _) => if all_sep head then head else rstrip_sep head
  end.

(** [os.path.basename] (posixpath): everything after the last ["/"]. *)
Definition basename (p : string) : string :=
  match rsplit_sep p with
  | None => p
  | Some (_, tail) => tail
  end.

(** [os.path.join(a, b)] (posixpath, two arguments). *)
Definition path_join (a b : string) : string :=
  if startswith b "/" then b
  else if String.eqb a "" || endswith_char a "/" then a ++ b
  else a ++ "/" ++ b.

(** [os.path.relpath(path, start)] for a [path] that lies below [start],
    as produced by [os.walk(start)]: the part of [path] after [start] and
    its separator. A path not below [start] is returned as it is. *)
Definition relpath (path start : string) : string :=
  let start' := if endswith_char start "/" then start else start ++ "/" in
  if startswith path start'
  then String.substring (String.length start') (String.length path - String.length start') path
  else path.

(** [PurePosixPath(p).name]: the last component that is neither empty nor
    ["."]. *)
Definition path_name (p : string) : string :=
  last (filter (fun x => negb (String.eqb x "" || String.eqb x ".")) (split "/" p)) "".

(** Position of the last ["."] of a name, if any ([name.rfind(".")]). *)
Fixpoint rfind_dot (s : string) : option nat :=
  match s with
  | EmptyString => None
  | String c rest =>
      match rfind_dot rest with
      | Some i => Some (S i)
      | None => if Ascii.eqb c "." then Some 0 else None
      end
  end.

(** [PurePosixPath(p).suffix]: the final extension with its dot, when the
    dot is neither the first nor the last character of the name. *)
Definition path_suffix (p : string) : string :=
  let name := path_name p in
  match rfind_dot name with
  | Some i =>
      if Nat.ltb 0 i && Nat.ltb i (String.length name - 1)
      then String.substring i (String.length name - i) name
      else ""
  | None => ""
  end.

End Py.

(* ===================================================================== *)
(** * Exceptions *)
(* ===================================================================== *)

(** A computation either returns or raises an exception carrying its
  message ([str(e)]). *)
Inductive Result (A : Type) : Type :=
| Ok (a : A)
| Raise (msg : string).
Arguments Ok {A} a.
Arguments Raise {A} msg.

(* ===================================================================== *)
(** * services/parser_service.py *)
(* ===================================================================== *)

Module ParserService.
Import Py.

(** The surface of [tree_sitter.Node] the extractor reads: the kind tag
    [type], the [text], the byte range, the (row, column) points and the
    ordered children. *)
Inductive Node : Type :=
| mkNode (type text : string) (start_byte end_byte : nat)
         (start_point end_point : nat * nat) (children : list Node).

Definition node_type (n : Node) : string :=
  match n with mkNode ty _ _ _ _ _ _ => ty end.
Definition node_text (n : Node) : string :=
  match n with mkNode _ tx _ _ _ _ _ => tx end.
Definition node_start_byte (n : Node) : nat :=
  match n with mkNode _ _ sb _ _ _ _ => sb end.
Definition node_end_byte (n : Node) : nat :=
  match n with mkNode _ _ _ eb _ _ _ => eb end.
Definition node_start_point (n : Node) : nat * nat :=
  match n with mkNode _ _ _ _ sp _ _ => sp end.
Definition node_end_point (n : Node) : nat * nat :=
  match n with mkNode _ _ _ _ _ ep _ => ep end.
Definition node_children (n : Node) : list Node :=
  match n with mkNode _ _ _ _ _ _ ch => ch end.

(** [@dataclass CodeUnitInfo]. [metadata] is a dictionary with string
    values, written as its list of items. *)
Inductive CodeUnitInfo : Type :=
| mkCodeUnitInfo (type name : string) (start_line end_line : nat)
                 (signature source_code : string)
                 (children : list CodeUnitInfo)
                 (metadata : list (string * string)).

Definition type (u : CodeUnitInfo) : string :=
  match u with mkCodeUnitInfo t _ _ _ _ _ _ _ => t end.
Definition name (u : CodeUnitInfo) : string :=
  match u with mkCodeUnitInfo _ n _ _ _ _ _ _ => n end.
Definition start_line (u : CodeUnitInfo) : nat :=
  match u with mkCodeUnitInfo _ _ s _ _ _ _ _ => s end.
Definition end_line (u : CodeUnitInfo) : nat :=
  match u with mkCodeUnitInfo _ _ _ e _ _ _ _ => e end.
Definition signature (u : CodeUnitInfo) : string :=
  match u with mkCodeUnitInfo _ _ _ _ s _ _ _ => s end.
Definition source_code (u : CodeUnitInfo) : string :=
  match u with mkCodeUnitInfo _ _ _ _ _ s _ _ => s end.
Definition children (u : CodeUnitInfo) : list CodeUnitInfo :=
  match u with mkCodeUnitInfo _ _ _ _ _ _ c _ => c end.
Definition metadata (u : CodeUnitInfo) : list (string * string) :=
  match u with mkCodeUnitInfo _ _ _ _ _ _ _ m => m end.

(** [unit.children = cs]. *)
Definition set_children (u : CodeUnitInfo) (cs : list CodeUnitInfo) : CodeUnitInfo :=
  match u with
  | mkCodeUnitInfo t n s e sg src _ m => mkCodeUnitInfo t n s e sg src cs m
  end.

(** [@dataclass ParseResult]. *)
Record ParseResult : Type := mkParseResult {
  language : string;
  code_units : list CodeUnitInfo;
  line_count : nat
}.

Definition EXTENSION_MAP : list (string * string) :=
  [ (".py", "python"); (".js", "javascript"); (".jsx", "javascript");
    (".ts", "typescript"); (".tsx", "typescript"); (".java", "java");
    (".go", "go"); (".rs", "rust"); (".c", "c"); (".h", "c");
    (".cpp", "cpp"); (".hpp", "cpp"); (".cc", "cpp"); (".cxx", "cpp") ].

(** The keys of [LANGUAGE_MODULES]; the grammar modules themselves are
    the external parsing capability. *)
Definition LANGUAGE_MODULES : list string :=
  [ "python"; "javascript"; "typescript"; "java"; "go"; "rust"; "c"; "cpp" ].

Definition EXTRACT_TYPES : list (string * list (string * list string)) :=
  [ ("python",
      [ ("function", ["function_definition"]);
        ("class", ["class_definition"]) ]);
    ("javascript",
      [ ("function", ["function_declaration"; "arrow_function"; "function"]);
        ("class", ["class_declaration"]) ]);
    ("typescript",
      [ ("function", ["function_declaration"; "arrow_function"; "function"]);
        ("class", ["class_declaration"; "interface_declaration"]) ]);
    ("java",
      [ ("function", ["method_declaration"; "constructor_declaration"]);
        ("class", ["class_declaration"; "interface_declaration"]) ]);
    ("go",
      [ ("function", ["function_declaration"; "method_declaration"]);
        ("class", ["type_declaration"]) ]);
    ("rust",
      [ ("function", ["function_item"]);
        ("class", ["struct_item"; "impl_item"; "trait_item"]) ]);
    ("c",
      [ ("function", ["function_definition"]);
        ("class", ["struct_specifier"]) ]);
    ("cpp",
      [ ("function", ["function_definition"]);
        ("class", ["class_specifier"; "struct_specifier"]) ]) ].

(** [self.EXTRACT_TYPES.get(language, {}).get(key, [])]. *)
Definition extract_types (language key : string) : list string :=
  match dict_get EXTRACT_TYPES language with
  | Some d => match dict_get d key with Some kinds => kinds | None => [] end
  | None => []
  end.

(** [detect_language]: the lower-cased suffix looked up in
    [EXTENSION_MAP]. *)
Definition detect_language (file_path : string) : option string :=
  dict_get EXTENSION_MAP (lower (path_suffix file_path)).

(** The inner loop of [_get_name] over the children of a
    [function_declarator]. *)
Fixpoint first_identifier (subchildren : list Node) : option string :=
  match subchildren with
  | [] => None
  | subchild :: rest =>
      if String.eqb (node_type subchild) "identifier"
      then Some (node_text subchild)
      else first_identifier rest
  end.

Definition name_types : list string :=
  [ "name"; "identifier"; "declarator"; "type_identifier" ].

(** The outer loop of [_get_name]. *)
Fixpoint get_name_from (cs : list Node) : option string :=
  match cs with
  | [] => None
  | child :: rest =>
      if mem (node_type child) name_types then Some (node_text child)
      else if String.eqb (node_type child) "function_declarator" then
        match first_identifier (node_children child) with
        | Some n => Some n
        | None => get_name_from rest
        end
      else get_name_from rest
  end.

Definition _get_name (node : Node) (language : string) : option string :=
  get_name_from (node_children node).

(** The Python branch of [_extract_signature]: the lines up to and
    including the first one whose stripped text ends with a colon. *)
Fixpoint sig_lines (lines : list string) : list string :=
  match lines with
  | [] => []
  | line :: rest =>
      if endswith_char (strip line) ":" then [line] else line :: sig_lines rest
  end.

Definition _extract_signature (node : Node) (content language : string) : string :=
  let source := slice content (node_start_byte node) (node_end_byte node) in
  let lines := split "010" source in
  if String.eqb language "python" then join (String "010" "") (sig_lines lines)
  else
    let first_line := hd "" lines in
    if contains "{" first_line
    then strip (hd "" (split "{" first_line))
    else strip first_line.

(** The [metadata] argument of [_extract_function]. *)
Definition function_metadata (parent_class : option string) : list (string * string) :=
  match parent_class with
  | Some pc => if truthy parent_class then [("parent_class", pc)] else []
  | None => []
  end.

Definition _extract_function (node : Node) (content language : string)
           (parent_class : option string) : option CodeUnitInfo :=
  match _get_name node language with
  | Some nm =>
      if truthy (Some nm) then
        Some (mkCodeUnitInfo
                (if truthy parent_class then "method" else "function")
                nm
                (fst (node_start_point node) + 1)
                (fst (node_end_point node) + 1)
                (_extract_signature node content language)
                (slice content (node_start_byte node) (node_end_byte node))
                []
                (function_metadata parent_class))
      else None
  | None => None
  end.

Definition _extract_class (node : Node) (content language : string)
  : option CodeUnitInfo :=
  match _get_name node language with
  | Some nm =>
      if truthy (Some nm) then
        Some (mkCodeUnitInfo
                "class"
                nm
                (fst (node_start_point node) + 1)
                (fst (node_end_point node) + 1)
                (_extract_signature node content language)
                (slice content (node_start_byte node) (node_end_byte node))
                []
                [])
      else None
  | None => None
  end.

(** One iteration of the loop of [_extract_code_units], for the child
    [child]: the units that iteration adds to [units]. The two recursive
    calls [self._extract_code_units(child, ...)] are the two [flat_map]s
    over the children of [child]. *)
Fixpoint extract_child (content language : string) (parent_class : option string)
         (child : Node) {struct child} : list CodeUnitInfo :=
  match child with
  | mkNode ty _ _ _ _ _ grandchildren =>
      let unit :=
        if mem ty (extract_types language "function") then
          _extract_function child content language parent_class
        else if mem ty (extract_types language "class") then
          match _extract_class child content language with
          | Some u =>
              Some (set_children u
                      (flat_map (extract_child content language (Some (name u)))
                                grandchildren))
          | None => None
          end
        else None in
      match unit with
      | Some u => [u]
      | None => flat_map (extract_child content language parent_class) grandchildren
      end
  end.

Definition _extract_code_units (node : Node) (content language : string)
           (parent_class : option string) : list CodeUnitInfo :=
  flat_map (extract_child content language parent_class) (node_children node).

(** [_get_parser]: a parser exists exactly for the keys of
    [LANGUAGE_MODULES]; [parse language] is the parsing capability
    [Parser(Language(module.language())).parse] for that language,
    returning the root node. The parser cache is not modelled. *)
Definition _get_parser (parse : string -> string -> Node) (language : string)
  : option (string -> Node) :=
  if mem language LANGUAGE_MODULES then Some (parse language) else None.

Definition parse_file (parse : string -> string -> Node)
           (file_path content : string) : option ParseResult :=
  match detect_language file_path with
  | Some language =>
      if truthy (Some language) then
        match _get_parser parse language with
        | Some parser =>
            let root_node := parser content in
            Some {| language := language;
                    code_units := _extract_code_units root_node content language None;
                    line_count := count "010" content + 1 |}
        | None => None
        end
      else None
  | None => None
  end.

End ParserService.

(* ===================================================================== *)
(** * models/*.py *)
(* ===================================================================== *)

(** The mapped columns the modelled code reads or writes. Primary keys
  ([uuid.uuid4] defaults) are natural numbers drawn from a supply kept in
  the session; [datetime.utcnow()] readings are natural numbers. *)
Module Models.

Record Repository : Type := mkRepository {
  repo_id : nat;
  repo_name : string;
  repo_owner : string;
  last_commit_hash : option string;
  repo_summary : option string
}.

Record Directory : Type := mkDirectory {
  dir_id : nat;
  dir_repository_id : nat;
  dir_parent_id : option nat;
  dir_path : string;
  dir_name : string;
  dir_summary : option string
}.

Record File : Type := mkFile {
  file_id : nat;
  file_directory_id : nat;
  file_path : string;
  file_name : string;
  file_language : option string;
  file_content_hash : option string;
  file_summary : option string;
  file_line_count : option nat
}.

Record CodeUnit : Type := mkCodeUnit {
  cu_id : nat;
  cu_file_id : nat;
  cu_parent_id : option nat;
  cu_type : string;
  cu_name : string;
  cu_start_line : nat;
  cu_end_line : nat;
  cu_signature : option string;
  cu_description : option string;
  cu_metadata : list (string * string)
}.

Record AnalysisJob : Type := mkAnalysisJob {
  job_id : nat;
  job_repository_id : nat;
  status : string;
  job_type : string;
  progress : Z;
  total_files : option nat;
  processed_files : nat;
  error_message : option string;
  started_at : option nat;
  completed_at : option nat
}.

(** Attribute assignments on mapped instances. *)
Definition set_last_commit_hash (r : Repository) (h : option string) : Repository :=
  mkRepository (repo_id r) (repo_name r) (repo_owner r) h (repo_summary r).
Definition set_repo_summary (r : Repository) (s : option string) : Repository :=
  mkRepository (repo_id r) (repo_name r) (repo_owner r) (last_commit_hash r) s.

Definition set_dir_summary (d : Directory) (s : option string) : Directory :=
  mkDirectory (dir_id d) (dir_repository_id d) (dir_parent_id d) (dir_path d)
              (dir_name d) s.

Definition set_file_parsed (f : File) (h lang : option string) (lc : option nat) : File :=
  mkFile (file_id f) (file_directory_id f) (file_path f) (file_name f) lang h
         (file_summary f) lc.
Definition set_file_summary (f : File) (s : option string) : File :=
  mkFile (file_id f) (file_directory_id f) (file_path f) (file_name f)
         (file_language f) (file_content_hash f) s (file_line_count f).

Definition set_status (j : AnalysisJob) (s : string) : AnalysisJob :=
  mkAnalysisJob (job_id j) (job_repository_id j) s (job_type j) (progress j)
                (total_files j) (processed_files j) (error_message j)
                (started_at j) (completed_at j).
Definition set_progress (j : AnalysisJob) (p : Z) : AnalysisJob :=
  mkAnalysisJob (job_id j) (job_repository_id j) (status j) (job_type j) p
                (total_files j) (processed_files j) (error_message j)
                (started_at j) (completed_at j).
Definition set_total_files (j : AnalysisJob) (n : option nat) : AnalysisJob :=
  mkAnalysisJob (job_id j) (job_repository_id j) (status j) (job_type j) (progress j)
                n (processed_files j) (error_message j)
                (started_at j) (completed_at j).
Definition set_processed_files (j : AnalysisJob) (n : nat) : AnalysisJob :=
  mkAnalysisJob (job_id j) (job_repository_id j) (status j) (job_type j) (progress j)
                (total_files j) n (error_message j)
                (started_at j) (completed_at j).
Definition set_error_message (j : AnalysisJob) (m : option string) : AnalysisJob :=
  mkAnalysisJob (job_id j) (job_repository_id j) (status j) (job_type j) (progress j)
                (total_files j) (processed_files j) m
                (started_at j) (completed_at j).
Definition set_started_at (j : AnalysisJob) (t : option nat) : AnalysisJob :=
  mkAnalysisJob (job_id j) (job_repository_id j) (status j) (job_type j) (progress j)
                (total_files j) (processed_files j) (error_message j)
                t (completed_at j).
Definition set_completed_at (j : AnalysisJob) (t : option nat) : AnalysisJob :=
  mkAnalysisJob (job_id j) (job_repository_id j) (status j) (job_type j) (progress j)
                (total_files j) (processed_files j) (error_message j)
                (started_at j) t.

(** [Result.scalar_one_or_none()] and [Result.scalar_one()] on the rows a
    [select] returned. *)
Definition scalar_one_or_none {A : Type} (rows : list A) : Result (option A) :=
  match rows with
  | [] => Ok None
  | [row] => Ok (Some row)
  | _ => Raise "Multiple rows were found when one or none was required"
  end.

Definition scalar_one {A : Type} (rows : list A) : Result A :=
  match rows with
  | [] => Raise "No row was found when one was required"
  | [row] => Ok row
  | _ => Raise "Multiple rows were found when exactly one was required"
  end.

End Models.

(* ===================================================================== *)
(** * api/jobs.py and the job creation of api/repositories.py *)
(* ===================================================================== *)

Module JobsApi.
Import Py Models.

Inductive HTTPException : Type :=
| mkHTTPException (status_code : nat) (detail : string).

(** What a request leaves behind: the [analysis_jobs] table, the task ids
    passed to [celery_app.control.revoke], and the response (the returned
    job, or the exception raised). *)
Record Outcome : Type := mkOutcome {
  jobs_after : list AnalysisJob;
  revoked : list nat;
  response : Result (HTTPException + AnalysisJob)
}.

(** The instance [job] is the row of its primary key: assigning to it and
    committing replaces that row. *)
Definition update_job (j' : AnalysisJob) (jobs : list AnalysisJob) : list AnalysisJob :=
  map (fun j => if Nat.eqb (job_id j) (job_id j') then j' else j) jobs.

Definition cancel_job (id : nat) (jobs : list AnalysisJob) : Outcome :=
  match scalar_one_or_none (filter (fun j => Nat.eqb (job_id j) id) jobs) with
  | Raise e => mkOutcome jobs [] (Raise e)
  | Ok None => mkOutcome jobs [] (Ok (inl (mkHTTPException 404 "Job not found")))
  | Ok (Some job) =>
      if negb (mem (status job) ["pending"; "running"]) then
        mkOutcome jobs [] (Ok (inl (mkHTTPException 400 "Job cannot be cancelled")))
      else
        let job1 := set_status job "failed" in
        let job2 := set_error_message job1 (Some "Cancelled by user") in
        mkOutcome (update_job job2 jobs) [id] (Ok (inr job2))
  end.

(** The job [sync_repository] creates and hands to the worker: the
    columns not given take their defaults. *)
Definition new_job (id : nat) (repo : Repository) : AnalysisJob :=
  mkAnalysisJob id (repo_id repo) "pending"
                (if truthy (last_commit_hash repo) then "incremental" else "full")
                0 None 0 None None None.

End JobsApi.

(* ===================================================================== *)
(** * Python [float] arithmetic of the progress computation *)
(* ===================================================================== *)

(** [int((i + 1) / len(files_to_process) * 80)] divides two integers into
  a binary64 [float], multiplies it by [80] and truncates. Both
  operations round their exact result to the nearest binary64 value, ties
  to even. The values that occur are positive and far from the overflow
  and underflow thresholds, so a [float] is a pair [(m, e)] standing for
  [m * 2^e], rounded to 53 significant bits. *)
Module PyFloat.
Local Open Scope Z_scope.

Definition float : Type := (Z * Z)%type.

(** Numerator and denominator of [(p / q) * 2^(-e)]. *)
Definition scaled (p q e : Z) : Z * Z :=
  if 0 <=? e then (p, q * 2 ^ e) else (p * 2 ^ (- e), q).

(** [floor (log2 (p / q))] for positive [p] and [q]. *)
Definition ilog2_ratio (p q : Z) : Z :=
  let d := Z.log2 p - Z.log2 q in
  let '(N, D) := scaled p q d in
  if D <=? N then d else d - 1.

(** The integer nearest to [N / D], ties to even. *)
Definition round_half_even (N D : Z) : Z :=
  let m := N / D in
  let r := N mod D in
  if 2 * r <? D then m
  else if D <? 2 * r then m + 1
  else if Z.even m then m else m + 1.

(** The binary64 value nearest to [p / q], for [p >= 0] and [q > 0]: the
    quotient is scaled into [[2^52, 2^53)] and rounded to an integer. *)
Definition round_ratio (p q : Z) : float :=
  if p =? 0 then (0, 0)
  else
    let e := ilog2_ratio p q - 52 in
    let '(N, D) := scaled p q e in
    (round_half_even N D, e).

(** [a / b] on integers (true division, correctly rounded). *)
Definition truediv (a b : Z) : float := round_ratio a b.

(** [x * k] for a float [x] and a small integer [k], which converts to
    [float] exactly. *)
Definition mul_int (x : float) (k : Z) : float :=
  let '(m, e) := x in
  let '(N, D) := scaled (m * k) 1 (- e) in
  round_ratio N D.

(** [int(x)]: truncation towards zero. *)
Definition to_int (x : float) : Z :=
  let '(m, e) := x in
  if 0 <=? e then m * 2 ^ e else m / 2 ^ (- e).

(** [int(a / b * 80)]. *)
Definition int_ratio_times_80 (a b : nat) : Z :=
  to_int (mul_int (truediv (Z.of_nat a) (Z.of_nat b)) 80).

End PyFloat.

(* ===================================================================== *)
(** * worker/tasks.py, with the parts of services/git_service.py and
    services/llm_service.py it calls *)
(* ===================================================================== *)

Module Tasks.
Import Py Models ParserService.

(** The dictionaries handed to the language model:
    [{"type", "name", "description"}] for a code unit and
    [{"name" | "path", "summary"}] for a file or directory. *)
Record UnitSummary : Type := mkUnitSummary {
  us_type : string;
  us_name : string;
  us_description : string
}.

Record ItemSummary : Type := mkItemSummary {
  item_name : string;
  item_summary : string
}.

(** The four requests of [LLMService], with their arguments. *)
Inductive LLMCall : Type :=
| analyze_code_unit (code unit_type name language : string)
| summarize_file (file_path : string) (code_unit_summaries : list UnitSummary)
                 (language : string)
| summarize_directory (dir_path : string)
                      (file_summaries subdir_summaries : list ItemSummary)
| summarize_repository (repo_name : string) (root_summaries : list ItemSummary).

(** The capabilities outside the repository's code: the language model
    (its answer [response.choices[0].message.content], which may be
    [None], or an exception; the answer may depend on the requests made
    before), the remote repository and the local file system, the digest
    and the parser. *)
Record World : Type := mkWorld {
  llm : list LLMCall -> LLMCall -> Result (option string);
  storage_path : string;
  clone_or_pull : string -> string -> Result (string * list string);
  os_walk : string -> list (string * list string);
  read_text : string -> option string;
  sha256_hexdigest : string -> string;
  parse : string -> string -> Node
}.

(** ** GitService *)

Definition get_repo_path (w : World) (owner name : string) : string :=
  path_join (path_join (storage_path w) owner) name.

Definition get_file_content (w : World) (owner name file_path : string)
  : Result string :=
  match read_text w (path_join (get_repo_path w owner name) file_path) with
  | None => Raise ("File not found: " ++ file_path)
  | Some content => Ok content
  end.

Definition get_file_hash (w : World) (owner name file_path : string)
  : Result string :=
  match get_file_content w owner name file_path with
  | Raise e => Raise e
  | Ok content => Ok (sha256_hexdigest w content)
  end.

(** ** The session *)

(** The tables the worker reads and writes, the supply of primary keys,
    and the requests sent to the language model so far. *)
Record Session : Type := mkSession {
  directories : list Directory;
  files : list File;
  code_units : list CodeUnit;
  next_id : nat;
  llm_calls : list LLMCall
}.

(** A task step runs on the session and returns or raises; the writes
    made before an exception stay in the session. *)
Definition M (A : Type) : Type := Session -> Result A * Session.

Definition ret {A : Type} (a : A) : M A := fun s => (Ok a, s).

Definition raise {A : Type} (msg : string) : M A := fun s => (Raise msg, s).

Definition bind {A B : Type} (c : M A) (k : A -> M B) : M B :=
  fun s =>
    match c s with
    | (Ok a, s') => k a s'
    | (Raise e, s') => (Raise e, s')
    end.

Definition lift {A : Type} (r : Result A) : M A := fun s => (r, s).

Notation "x <- c ;; k" := (bind c (fun x => k))
  (at level 61, c at next level, right associativity).
Notation "c ;;; k" := (bind c (fun _ => k))
  (at level 61, right associativity).

(** [select(...).where(...)] on a table. *)
Definition select_directories (p : Directory -> bool) : M (list Directory) :=
  fun s => (Ok (filter p (directories s)), s).

Definition select_files (p : File -> bool) : M (list File) :=
  fun s => (Ok (filter p (files s)), s).

(** [db.add(Directory(...)); db.flush()]: the primary key is drawn. *)
Definition add_directory (repository_id : nat) (parent_id : option nat)
           (path name : string) : M Directory :=
  fun s =>
    let d := mkDirectory (next_id s) repository_id parent_id path name None in
    (Ok d, mkSession (directories s ++ [d]) (files s) (code_units s)
                     (S (next_id s)) (llm_calls s)).

Definition add_file (directory_id : nat) (path name : string)
           (lang h : option string) (lc : option nat) : M File :=
  fun s =>
    let f := mkFile (next_id s) directory_id path name lang h None lc in
    (Ok f, mkSession (directories s) (files s ++ [f]) (code_units s)
                     (S (next_id s)) (llm_calls s)).

(** Assignments to a mapped instance reach its row at the next flush. *)
Definition update_file (f' : File) : M unit :=
  fun s =>
    (Ok tt,
     mkSession (directories s)
               (map (fun f => if Nat.eqb (file_id f) (file_id f') then f' else f) (files s))
               (code_units s) (next_id s) (llm_calls s)).

Definition update_directory (d' : Directory) : M unit :=
  fun s =>
    (Ok tt,
     mkSession (map (fun d => if Nat.eqb (dir_id d) (dir_id d') then d' else d)
                    (directories s))
               (files s) (code_units s) (next_id s) (llm_calls s)).

(** [CodeUnit.__table__.delete().where(CodeUnit.file_id == id)]. *)
Definition delete_code_units (id : nat) : M unit :=
  fun s =>
    (Ok tt,
     mkSession (directories s) (files s)
               (filter (fun u => negb (Nat.eqb (cu_file_id u) id)) (code_units s))
               (next_id s) (llm_calls s)).

(** A request to the language model: it is sent (and recorded) whether it
    then returns or raises. *)
Definition call_llm (w : World) (request : LLMCall) : M (option string) :=
  fun s =>
    (llm w (llm_calls s) request,
     mkSession (directories s) (files s) (code_units s) (next_id s)
               (llm_calls s ++ [request])).

Definition option_nat_eqb (a b : option nat) : bool :=
  match a, b with
  | Some x, Some y => Nat.eqb x y
  | None, None => true
  | _, _ => false
  end.

Definition option_string_eqb (a b : option string) : bool :=
  match a, b with
  | Some x, Some y => String.eqb x y
  | None, None => true
  | _, _ => false
  end.

(** ** _get_all_supported_files *)

Definition lockfiles : list string :=
  [ "package-lock.json"; "yarn.lock"; "Cargo.lock" ].

(** The inner loop over the [filenames] of one [root]. *)
Fixpoint supported_in (repo_path root : string) (filenames : list string)
  : list string :=
  match filenames with
  | [] => []
  | filename :: rest =>
      let file_path := path_join root filename in
      let rel_path := relpath file_path repo_path in
      if startswith filename "." then supported_in repo_path root rest
      else if mem filename lockfiles then supported_in repo_path root rest
      else if truthy (detect_language rel_path)
           then rel_path :: supported_in repo_path root rest
           else supported_in repo_path root rest
  end.

(** The outer loop over the [(root, filenames)] entries of [os.walk]. *)
Fixpoint supported_walk (repo_path : string) (entries : list (string * list string))
  : list string :=
  match entries with
  | [] => []
  | (root, filenames) :: rest =>
      if contains ".git" root then supported_walk repo_path rest
      else (supported_in repo_path root filenames ++ supported_walk repo_path rest)%list
  end.

Definition _get_all_supported_files (w : World) (repo_path : string) : list string :=
  supported_walk repo_path (os_walk w repo_path).

(** ** _ensure_directory *)

(** [depth] is the number of nested calls the interpreter still allows:
    a call made when none is left raises [RecursionError]. *)
Fixpoint _ensure_directory (depth : nat) (repo : Repository) (dir_path : string)
  : M Directory :=
  match depth with
  | O => raise "maximum recursion depth exceeded"
  | S depth' =>
      if negb (truthy (Some dir_path)) then
        rows <- select_directories
                  (fun d => Nat.eqb (dir_repository_id d) (repo_id repo)
                            && String.eqb (Models.dir_path d) "") ;;
        root_dir <- lift (scalar_one_or_none rows) ;;
        match root_dir with
        | Some d => ret d
        | None => add_directory (repo_id repo) None "" (repo_name repo)
        end
      else
        rows <- select_directories
                  (fun d => Nat.eqb (dir_repository_id d) (repo_id repo)
                            && String.eqb (Models.dir_path d) dir_path) ;;
        existing <- lift (scalar_one_or_none rows) ;;
        match existing with
        | Some d => ret d
        | None =>
            let parent_path := dirname dir_path in
            parent <- _ensure_directory depth' repo parent_path ;;
            add_directory (repo_id repo) (Some (dir_id parent)) dir_path
                          (basename dir_path)
        end
  end.

(** ** _create_code_unit *)

Fixpoint _create_code_unit (w : World) (file_record : File) (language : string)
         (parent_id : option nat) (unit_info : CodeUnitInfo) (s : Session)
         {struct unit_info} : CodeUnit * Session :=
  match unit_info with
  | mkCodeUnitInfo ty nm sl el sg src chs md =>
      let request := analyze_code_unit src ty nm language in
      let description :=
        match llm w (llm_calls s) request with
        | Ok d => d
        | Raise _ => None
        end in
      let code_unit :=
        mkCodeUnit (next_id s) (file_id file_record) parent_id ty nm sl el
                   (Some sg) description md in
      let s1 :=
        mkSession (directories s) (files s) (code_units s ++ [code_unit])
                  (S (next_id s)) (llm_calls s ++ [request]) in
      let s2 :=
        fold_left
          (fun acc child_info =>
             snd (_create_code_unit w file_record language
                                    (Some (cu_id code_unit)) child_info acc))
          chs s1 in
      (code_unit, s2)
  end.

(** ** _process_file *)

(** The loop over [parse_result.code_units], returning
    [code_unit_summaries]. *)
Fixpoint create_code_units (w : World) (file_record : File) (language : string)
         (units : list CodeUnitInfo) (s : Session) : list UnitSummary * Session :=
  match units with
  | [] => ([], s)
  | unit_info :: rest =>
      let '(code_unit, s1) := _create_code_unit w file_record language None unit_info s in
      let '(summaries, s2) := create_code_units w file_record language rest s1 in
      match cu_description code_unit with
      | Some d =>
          if truthy (Some d)
          then (mkUnitSummary (cu_type code_unit) (cu_name code_unit) d :: summaries, s2)
          else (summaries, s2)
      | None => (summaries, s2)
      end
  end.

Definition is_unchanged (existing_file : option File) (content_hash : string) : bool :=
  match existing_file with
  | Some f => option_string_eqb (file_content_hash f) (Some content_hash)
  | None => false
  end.

Definition _process_file (w : World) (depth : nat) (repo : Repository)
           (file_path : string) : M unit :=
  let dir_path := dirname file_path in
  directory <- _ensure_directory depth repo dir_path ;;
  content <- lift (get_file_content w (repo_owner repo) (repo_name repo) file_path) ;;
  content_hash <- lift (get_file_hash w (repo_owner repo) (repo_name repo) file_path) ;;
  rows <- select_files
            (fun f => Nat.eqb (file_directory_id f) (dir_id directory)
                      && String.eqb (Models.file_path f) file_path) ;;
  existing_file <- lift (scalar_one_or_none rows) ;;
  if is_unchanged existing_file content_hash then ret tt
  else
    match parse_file (parse w) file_path content with
    | None => ret tt
    | Some parse_result =>
        file_record <-
          match existing_file with
          | Some f =>
              let f' := set_file_parsed f (Some content_hash)
                                        (Some (ParserService.language parse_result))
                                        (Some (line_count parse_result)) in
              update_file f' ;;;
              delete_code_units (file_id f') ;;;
              ret f'
          | None =>
              add_file (dir_id directory) file_path (basename file_path)
                       (Some (ParserService.language parse_result))
                       (Some content_hash)
                       (Some (line_count parse_result))
          end ;;
        code_unit_summaries <-
          (fun s =>
             let '(summaries, s') :=
               create_code_units w file_record (ParserService.language parse_result)
                                 (ParserService.code_units parse_result) s in
             (Ok summaries, s')) ;;
        match code_unit_summaries with
        | [] => ret tt
        | _ :: _ =>
            summary <- call_llm w (summarize_file file_path code_unit_summaries
                                     (ParserService.language parse_result)) ;;
            update_file (set_file_summary file_record summary)
        end
    end.

(** ** _generate_directory_summaries *)

(** [.order_by(Directory.path.desc())]: the rows in descending order of
    their paths, compared character by character. *)
Fixpoint insert_desc (d : Directory) (sorted : list Directory) : list Directory :=
  match sorted with
  | [] => [d]
  | x :: rest =>
      if String.leb (dir_path x) (dir_path d) then d :: sorted
      else x :: insert_desc d rest
  end.

Definition order_by_path_desc (rows : list Directory) : list Directory :=
  fold_right insert_desc [] rows.

(** [[{"name": f.name, "summary": f.summary} for f in files if f.summary]]
    and its analogue for directories. *)
Definition file_items (fs : list File) : list ItemSummary :=
  flat_map (fun f => match file_summary f with
                     | Some sm => if truthy (Some sm)
                                  then [mkItemSummary (file_name f) sm] else []
                     | None => []
                     end) fs.

Definition dir_items (suffix : string) (ds : list Directory) : list ItemSummary :=
  flat_map (fun d => match dir_summary d with
                     | Some sm => if truthy (Some sm)
                                  then [mkItemSummary (dir_name d ++ suffix) sm] else []
                     | None => []
                     end) ds.

(** The body of the loop over the ordered directories. The instance
    [directory] was loaded by the ordering query; its summary is written
    to the row of its primary key. *)
Definition summarize_directory_step (w : World) (repo : Repository)
           (directory : Directory) : M unit :=
  fs <- select_files (fun f => Nat.eqb (file_directory_id f) (dir_id directory)) ;;
  let file_summaries := file_items fs in
  subdirs <- select_directories
               (fun d => option_nat_eqb (dir_parent_id d) (Some (dir_id directory))) ;;
  let subdir_summaries := dir_items "" subdirs in
  match (file_summaries ++ subdir_summaries)%list with
  | [] => ret tt
  | _ :: _ =>
      fun s =>
        match call_llm w (summarize_directory
                            (if truthy (Some (dir_path directory))
                             then dir_path directory else repo_name repo)
                            file_summaries subdir_summaries) s with
        | (Ok summary, s') =>
            (Ok tt,
             mkSession
               (map (fun d => if Nat.eqb (dir_id d) (dir_id directory)
                              then set_dir_summary d summary else d)
                    (directories s'))
               (files s') (code_units s') (next_id s') (llm_calls s'))
        | (Raise _, s') => (Ok tt, s')
        end
  end.

Fixpoint for_each {A : Type} (body : A -> M unit) (xs : list A) : M unit :=
  match xs with
  | [] => ret tt
  | x :: rest => body x ;;; for_each body rest
  end.

(** The directories of the repository in the order they are summarized. *)
Definition summarization_order (repo : Repository) (s : Session) : list Directory :=
  order_by_path_desc
    (filter (fun d => Nat.eqb (dir_repository_id d) (repo_id repo)) (directories s)).

Definition _generate_directory_summaries (w : World) (repo : Repository) : M unit :=
  fun s => for_each (summarize_directory_step w repo) (summarization_order repo s) s.

(** ** _generate_repository_summary *)

Definition _generate_repository_summary (w : World) (repo : Repository)
  : M Repository :=
  rows <- select_directories
            (fun d => Nat.eqb (dir_repository_id d) (repo_id repo)
                      && String.eqb (dir_path d) "") ;;
  root_dir <- lift (scalar_one_or_none rows) ;;
  root_items <-
    match root_dir with
    | Some rd =>
        root_files <- select_files (fun f => Nat.eqb (file_directory_id f) (dir_id rd)) ;;
        root_subdirs <- select_directories
                          (fun d => option_nat_eqb (dir_parent_id d) (Some (dir_id rd))) ;;
        ret (file_items root_files ++ dir_items "/" root_subdirs)%list
    | None => ret []
    end ;;
  match root_items with
  | [] => ret repo
  | _ :: _ =>
      fun s =>
        match call_llm w (summarize_repository (repo_name repo) root_items) s with
        | (Ok summary, s') => (Ok (set_repo_summary repo summary), s')
        | (Raise _, s') => (Ok repo, s')
        end
  end.

(** ** analyze_repository *)

(** The state of a run: the session, the mapped [job] and [repo]
    instances, and the value of the job's row at each [db.commit()] of
    [analyze_repository], oldest first. *)
Record Run : Type := mkRun {
  run_session : Session;
  run_job : AnalysisJob;
  run_repo : Repository;
  commits : list AnalysisJob
}.

Definition commit (r : Run) : Run :=
  mkRun (run_session r) (run_job r) (run_repo r) (commits r ++ [run_job r]).

Definition with_job (r : Run) (j : AnalysisJob) : Run :=
  mkRun (run_session r) j (run_repo r) (commits r).

(** The selection of the files to process. *)
Definition files_to_process (w : World) (job : AnalysisJob) (repo : Repository)
           (changed_files : list string) : list string :=
  if String.eqb (job_type job) "incremental" && truthy (last_commit_hash repo)
  then changed_files
  else _get_all_supported_files w (get_repo_path w (repo_owner repo) (repo_name repo)).

(** [int((i + 1) / len(files_to_process) * 80) if files_to_process else 0]. *)
Definition file_progress (i : nat) (selected : list string) : Z :=
  match selected with
  | [] => 0%Z
  | _ :: _ => PyFloat.int_ratio_times_80 (i + 1) (length selected)
  end.

(** Step 2, from index [i] on: an exception of [_process_file] is caught
    and printed, then the counters are committed. *)
Fixpoint process_files (w : World) (depth : nat) (selected : list string)
         (i : nat) (remaining : list string) (r : Run) : Run :=
  match remaining with
  | [] => r
  | file_path :: rest =>
      let '(_, s') := _process_file w depth (run_repo r) file_path (run_session r) in
      let job1 := set_processed_files (run_job r) (i + 1) in
      let job2 := set_progress job1 (file_progress i selected) in
      process_files w depth selected (i + 1) rest
                    (commit (mkRun s' job2 (run_repo r) (commits r)))
  end.

(** The [try] block after the two look-ups. *)
Definition analyze_body (w : World) (depth t_end : nat) (r0 : Run) : Result unit * Run :=
  match clone_or_pull w (repo_owner (run_repo r0)) (repo_name (run_repo r0)) with
  | Raise e => (Raise e, r0)
  | Ok (commit_hash, changed_files) =>
      let selected := files_to_process w (run_job r0) (run_repo r0) changed_files in
      let r1 := commit (with_job r0 (set_total_files (run_job r0) (Some (length selected)))) in
      let r2 := process_files w depth selected 0 selected r1 in
      match _generate_directory_summaries w (run_repo r2) (run_session r2) with
      | (Raise e, s3) => (Raise e, mkRun s3 (run_job r2) (run_repo r2) (commits r2))
      | (Ok _, s3) =>
          let r3 := commit (mkRun s3 (set_progress (run_job r2) 90) (run_repo r2)
                                  (commits r2)) in
          match _generate_repository_summary w (run_repo r3) (run_session r3) with
          | (Raise e, s4) => (Raise e, mkRun s4 (run_job r3) (run_repo r3) (commits r3))
          | (Ok repo', s4) =>
              let repo'' := set_last_commit_hash repo' (Some commit_hash) in
              let job1 := set_status (run_job r3) "completed" in
              let job2 := set_progress job1 100 in
              let job3 := set_completed_at job2 (Some t_end) in
              (Ok tt, commit (mkRun s4 job3 repo'' (commits r3)))
          end
      end
  end.

(** The [except] block: the job is marked failed and the exception is
    raised again. *)
Definition fail_job (e : string) (t_end : nat) (r : Run) : Run :=
  let job1 := set_status (run_job r) "failed" in
  let job2 := set_error_message job1 (Some e) in
  let job3 := set_completed_at job2 (Some t_end) in
  commit (with_job r job3).


(** The result of the task: without a job row the exception of the
    look-up escapes the handler as well; without a repository row the
    handler marks the job failed; otherwise the run ends with the job
    completed ([Ok]) or failed (the exception raised again). *)
Inductive TaskResult : Type :=
| NoJob (e : string)
| NoRepository (e : string) (job : AnalysisJob)
| Finished (outcome : Result unit) (r : Run).

(** The values of the job's row at the commits of a run, oldest first. *)
Definition job_history (t : TaskResult) : list AnalysisJob :=
  match t with
  | NoJob _ => []
  | NoRepository _ job => [job]
  | Finished _ r => commits r
  end.

(** [jobs] and [repositories] are the rows the two look-ups by primary
    key return; [t_start] and [t_end] are the two readings of
    [datetime.utcnow()]. *)
Definition analyze_repository (w : World) (depth t_start t_end : nat)
           (jobs : list AnalysisJob) (repositories : list Repository)
           (s : Session) : TaskResult :=
  match scalar_one jobs with
  | Raise e => NoJob e
  | Ok job =>
      match scalar_one repositories with
      | Raise e =>
          let job1 := set_status job "failed" in
          let job2 := set_error_message job1 (Some e) in
          let job3 := set_completed_at job2 (Some t_end) in
          NoRepository e job3
      | Ok repo =>
          let job1 := set_status job "running" in
          let job2 := set_started_at job1 (Some t_start) in
          let r0 := commit (mkRun s job2 repo []) in
          match analyze_body w depth t_end r0 with
          | (Ok _, r) => Finished (Ok tt) r
          | (Raise e, r) => Finished (Raise e) (fail_job e t_end r)
          end
      end
  end.

End Tasks.

(* ===================================================================== *)
(** * services/git_service.py: the clone URL *)
(* ===================================================================== *)

Module GitService.
Import Py.

(** [_build_clone_url]: the token is used only when it is truthy. *)
Definition _build_clone_url (owner name : string) (github_token : option string)
  : string :=
  match github_token with
  | Some token =>
      if truthy github_token
      then "https://" ++ token ++ "@github.com/" ++ owner ++ "/" ++ name ++ ".git"
      else "https://github.com/" ++ owner ++ "/" ++ name ++ ".git"
  | None => "https://github.com/" ++ owner ++ "/" ++ name ++ ".git"
  end.

End GitService.

(* ===================================================================== *)
(** * api/repositories.py and api/code_units.py *)
(* ===================================================================== *)

Module RepositoriesApi.
Import Py Models JobsApi Tasks.

(** ** parse_github_url *)

(** The longest initial run of characters that satisfy [p], and what
    follows it: how a greedy character class repeated with [+] matches
    when the class of the next pattern item excludes it. *)
Fixpoint span (p : ascii -> bool) (s : string) : string * string :=
  match s with
  | EmptyString => ("", "")
  | String c rest =>
      if p c then let '(run, after) := span p rest in (String c run, after)
      else ("", s)
  end.

(** [[^/]] and [[^/\.]]. *)
Definition not_slash (c : ascii) : bool := negb (Ascii.eqb c "/").

Definition not_slash_or_dot (c : ascii) : bool :=
  negb (Ascii.eqb c "/" || Ascii.eqb c ".").

(** What follows the literal [p] at the start of [s], if [s] starts with
    it. *)
Fixpoint after_prefix (p s : string) {struct p} : option string :=
  match p with
  | EmptyString => Some s
  | String a p' =>
      match s with
      | EmptyString => None
      | String b s' => if Ascii.eqb a b then after_prefix p' s' else None
      end
  end.

(** The pattern [github\.com[:/]([^/]+)/([^/\.]+)] matched at the start
    of [s]: the two groups. The first group is the whole run of
    characters other than a slash, since a slash must follow it; the
    second is the whole run of characters other than a slash and a dot;
    both must be non-empty. *)
Definition match_url_at (s : string) : option (string * string) :=
  match after_prefix "github.com" s with
  | Some (String c rest) =>
      if Ascii.eqb c ":" || Ascii.eqb c "/" then
        match span not_slash rest with
        | (String a owner, String _ rest2) =>
            match span not_slash_or_dot rest2 with
            | (String b name, _) => Some (String a owner, String b name)
            | (EmptyString, _) => None
            end
        | _ => None
        end
      else None
  | _ => None
  end.

(** [re.search] with the first pattern: the match at the leftmost
    position that has one. *)
Fixpoint search_url (s : string) : option (string * string) :=
  match match_url_at s with
  | Some groups => Some groups
  | None =>
      match s with
      | EmptyString => None
      | String _ rest => search_url rest
      end
  end.

(** [re.search] with the second pattern, [^([^/]+)/([^/]+)$]: the string
    consists of two non-empty runs of characters other than a slash,
    with one slash between them. *)
Definition match_short (s : string) : option (string * string) :=
  match span not_slash s with
  | (String a owner, String _ rest2) =>
      match span not_slash rest2 with
      | (String b name, EmptyString) => Some (String a owner, String b name)
      | _ => None
      end
  | _ => None
  end.

(** [s.replace(old, "")] for a non-empty [old]: the occurrences of [old]
    are removed from left to right, without overlap. [skip] counts the
    characters of an occurrence still to be dropped. *)
Fixpoint remove_from (old : string) (skip : nat) (s : string) : string :=
  match s with
  | EmptyString => EmptyString
  | String c rest =>
      match skip with
      | S k => remove_from old k rest
      | O =>
          if startswith s old then remove_from old (String.length old - 1) rest
          else String c (remove_from old 0 rest)
      end
  end.

Definition remove_all (old s : string) : string := remove_from old 0 s.

Definition parse_github_url (url : string) : Result (string * string) :=
  match search_url url with
  | Some (owner, name) => Ok (owner, remove_all ".git" name)
  | None =>
      match match_short url with
      | Some (owner, name) => Ok (owner, remove_all ".git" name)
      | None => Raise ("Invalid GitHub URL: " ++ url)
      end
  end.

(** ** create_repository *)

(** A row of [repositories]: the columns the worker uses, followed by
    those that only the interface writes. *)
Record RepositoryRow : Type := mkRepositoryRow {
  columns : Repository;
  github_url : string;
  default_branch : string
}.

(** The answer to a request: the value returned, the [HTTPException]
    raised, or another exception. *)
Definition Response (A : Type) : Type := Result (HTTPException + A).

(** [new_id] is the key the new row draws. *)
Definition create_repository (new_id : nat) (url : string)
           (repositories : list RepositoryRow)
  : Response RepositoryRow * list RepositoryRow :=
  match parse_github_url url with
  | Raise e => (Ok (inl (mkHTTPException 400 e)), repositories)
  | Ok (owner, name) =>
      match scalar_one_or_none
              (filter (fun r => String.eqb (repo_owner (columns r)) owner
                                && String.eqb (repo_name (columns r)) name)
                      repositories) with
      | Raise e => (Raise e, repositories)
      | Ok (Some _) =>
          (Ok (inl (mkHTTPException 400 "Repository already registered")),
           repositories)
      | Ok None =>
          let repo :=
            mkRepositoryRow (mkRepository new_id name owner None None)
                            ("https://github.com/" ++ owner ++ "/" ++ name)
                            "main" in
          (Ok (inr repo), (repositories ++ [repo])%list)
      end
  end.

(** ** get_directory, get_file, get_code_unit *)

(** The rows a detail response is built from. The response shows the
    columns of its schema; the relationships are loaded in table
    order. *)
Record DirectoryDetail : Type := mkDirectoryDetail {
  dd_directory : Directory;
  dd_children : list Directory;
  dd_files : list File
}.

Record FileDetail : Type := mkFileDetail {
  fd_file : File;
  fd_code_units : list CodeUnit
}.

Record CodeUnitDetail : Type := mkCodeUnitDetail {
  cd_code_unit : CodeUnit;
  cd_children : list CodeUnit
}.

Definition get_directory (repo_id : nat) (path : string) (s : Session)
  : Response DirectoryDetail :=
  match scalar_one_or_none
          (filter (fun d => Nat.eqb (dir_repository_id d) repo_id
                            && String.eqb (dir_path d) path)
                  (directories s)) with
  | Raise e => Raise e
  | Ok None => Ok (inl (mkHTTPException 404 "Directory not found"))
  | Ok (Some directory) =>
      Ok (inr (mkDirectoryDetail
                 directory
                 (filter (fun c => option_nat_eqb (dir_parent_id c)
                                                  (Some (dir_id directory)))
                         (directories s))
                 (filter (fun f => Nat.eqb (file_directory_id f) (dir_id directory))
                         (files s))))
  end.

(** [select(File).join(Directory).where(...)]: one row for every pair of
    a file row that satisfies [p] and a directory row of the repository
    with the key the file refers to. *)
Definition files_joined (repo_id : nat) (p : File -> bool) (s : Session) : list File :=
  flat_map (fun f =>
              map (fun _ => f)
                  (filter (fun d => Nat.eqb (dir_id d) (file_directory_id f)
                                    && Nat.eqb (dir_repository_id d) repo_id)
                          (directories s)))
           (filter p (files s)).

Definition get_file (repo_id : nat) (path : string) (s : Session)
  : Response FileDetail :=
  match scalar_one_or_none
          (files_joined repo_id (fun f => String.eqb (file_path f) path) s) with
  | Raise e => Raise e
  | Ok None => Ok (inl (mkHTTPException 404 "File not found"))
  | Ok (Some file) =>
      Ok (inr (mkFileDetail
                 file
                 (filter (fun cu => option_nat_eqb (cu_parent_id cu) None)
                         (filter (fun cu => Nat.eqb (cu_file_id cu) (file_id file))
                                 (code_units s)))))
  end.

Definition get_code_unit (code_unit_id : nat) (s : Session)
  : Response CodeUnitDetail :=
  match scalar_one_or_none
          (filter (fun cu => Nat.eqb (cu_id cu) code_unit_id) (code_units s)) with
  | Raise e => Raise e
  | Ok None => Ok (inl (mkHTTPException 404 "Code unit not found"))
  | Ok (Some code_unit) =>
      Ok (inr (mkCodeUnitDetail
                 code_unit
                 (filter (fun c => option_nat_eqb (cu_parent_id c)
                                                  (Some (cu_id code_unit)))
                         (code_units s))))
  end.

End RepositoriesApi.
(* ===================================================================== *)
(** * Predicates used in the statements *)
(* ===================================================================== *)

Module ExtractorSpec.
Import Py ParserService.



End ExtractorSpec.

(** The same computation with the binary64 operations of the standard
    library's [SpecFloat], against which the model [PyFloat] is checked. *)
Module Binary64.
Local Open Scope Z_scope.

Definition of_int (k : Z) : spec_float := binary_normalize 53 1024 k 0 false.

Definition ratio_times_80 (a b : Z) : spec_float :=
  SFmul 53 1024 (SFdiv 53 1024 (of_int a) (of_int b)) (of_int 80).

(** The pair [(m, e)] and the binary64 value denote the same number. *)
Definition same_value (x : PyFloat.float) (y : spec_float) : bool :=
  match y with
  | S754_finite false m e =>
      let '(mx, ex) := x in
      if e <=? ex then Zpos m =? mx * 2 ^ (ex - e)
      else Zpos m * 2 ^ (e - ex) =? mx
  | S754_zero false => fst x =? 0
  | _ => false
  end.

(** Agreement for every [1 <= a <= n <= bound]. *)
Definition agree_up_to (bound : nat) : bool :=
  forallb (fun n =>
             forallb (fun a =>
                        same_value (PyFloat.mul_int
                                      (PyFloat.truediv (Z.of_nat a) (Z.of_nat n)) 80)
                                   (ratio_times_80 (Z.of_nat a) (Z.of_nat n)))
                     (seq 1 n))
          (seq 1 bound).

End Binary64.

Module PipelineSpec.
Import Py Models ParserService Tasks.

(** The filter a full job applies, read on a repository-relative path:
    the directory is not skipped, the file name is neither hidden nor a
    lockfile, and a language is detected. *)
Definition passes_full_filter (repo_path rel_path : string) : bool :=
  let filename := basename rel_path in
  negb (contains ".git" (path_join repo_path (dirname rel_path)))
  && negb (startswith filename ".")
  && negb (mem filename lockfiles)
  && truthy (detect_language rel_path).

(** The selection the specification gives for an incremental job: the
    changed paths, filtered as a full job filters. *)
Definition spec_incremental_selection (repo_path : string)
           (changed_files : list string) : list string :=
  filter (passes_full_filter repo_path) changed_files.

(** A job after a successful cancellation. *)
Definition cancelled (job : AnalysisJob) : AnalysisJob :=
  set_error_message (set_status job "failed") (Some "Cancelled by user").

(** The rows of the directory look-up of [_ensure_directory]. *)
Definition rows_for (repo : Repository) (path : string) (s : Session) : list Directory :=
  filter (fun d => Nat.eqb (dir_repository_id d) (repo_id repo)
                   && String.eqb (dir_path d) path) (directories s).

(** No path of the repository is stored twice. *)
Definition unique_paths (repo : Repository) (s : Session) : Prop :=
  forall path, length (rows_for repo path s) <= 1.

(** A path that does not start at the file system root, as the paths of
    a working tree are. *)
Definition relative (path : string) : Prop := startswith path "/" = false.

(** What a call of [_ensure_directory] for [p] can change: it appends
    directory rows of the repository, none with a longer path than [p],
    and draws their keys. *)
Definition appends_rows (repo : Repository) (p : string) (s s' : Session)
           (added : list Directory) : Prop :=
  directories s' = (directories s ++ added)%list /\
  files s' = files s /\ code_units s' = code_units s /\
  llm_calls s' = llm_calls s /\
  next_id s' = next_id s + length added /\
  Forall (fun row => dir_repository_id row = repo_id repo /\
                     String.length (dir_path row) <= String.length p) added.

(** The look-up of the existing file record in [_process_file]. *)
Definition file_rows (directory : Directory) (path : string) (s : Session) : list File :=
  filter (fun f => Nat.eqb (file_directory_id f) (dir_id directory)
                   && String.eqb (file_path f) path) (files s).

(** The description request [_create_code_unit] sends for a unit. *)
Definition unit_request (language : string) (u : CodeUnitInfo) : LLMCall :=
  analyze_code_unit (source_code u) (type u) (name u) language.


(** The [{type, name, description}] entries of the rows that have a
    non-empty description. *)
Definition summary_entries (rows : list CodeUnit) : list UnitSummary :=
  flat_map (fun cu => match cu_description cu with
                      | Some (String c d) =>
                          [mkUnitSummary (cu_type cu) (cu_name cu) (String c d)]
                      | _ => []
                      end) rows.

(** The file record and the session with which the unit loop of
    [_process_file] starts, for a file that is new or has changed. *)
Definition prepare_file_record (directory : Directory) (path content_hash : string)
           (parse_result : ParseResult) (existing_file : option File) : M File :=
  match existing_file with
  | Some f =>
      let f' := set_file_parsed f (Some content_hash)
                                (Some (ParserService.language parse_result))
                                (Some (line_count parse_result)) in
      update_file f' ;;;
      delete_code_units (file_id f') ;;;
      ret f'
  | None =>
      add_file (dir_id directory) path (basename path)
               (Some (ParserService.language parse_result))
               (Some content_hash)
               (Some (line_count parse_result))
  end.

(** The values of the job's row at the commits of a run that started at
    [t0] and ended at [t1]. *)
Definition running_job (job : AnalysisJob) (t0 : nat) : AnalysisJob :=
  set_started_at (set_status job "running") (Some t0).

Definition counted_job (job : AnalysisJob) (t0 n : nat) : AnalysisJob :=
  set_total_files (running_job job t0) (Some n).

Definition file_snapshot (job : AnalysisJob) (t0 : nat) (selected : list string)
           (i : nat) : AnalysisJob :=
  set_progress (set_processed_files (counted_job job t0 (length selected)) (i + 1))
               (file_progress i selected).

Definition last_file_job (job : AnalysisJob) (t0 : nat) (selected : list string)
  : AnalysisJob :=
  match length selected with
  | O => counted_job job t0 0
  | S m => file_snapshot job t0 selected m
  end.

Definition summarized_job (job : AnalysisJob) (t0 : nat) (selected : list string)
  : AnalysisJob :=
  set_progress (last_file_job job t0 selected) 90.

Definition completed_job (job : AnalysisJob) (t0 t1 : nat) (selected : list string)
  : AnalysisJob :=
  set_completed_at
    (set_progress (set_status (summarized_job job t0 selected) "completed") 100)
    (Some t1).

Definition failed_job (job : AnalysisJob) (e : string) (t1 : nat) : AnalysisJob :=
  set_completed_at (set_error_message (set_status job "failed") (Some e)) (Some t1).

(** A job has reached a terminal state. *)
Definition terminal (job : AnalysisJob) : Prop :=
  status job = "completed" \/ status job = "failed".

(** [x] is summarized no later than [y] in descending path order. *)
Definition path_ge (x y : Directory) : Prop :=
  String.leb (dir_path y) (dir_path x) = true.

End PipelineSpec.

(* ===================================================================== *)
(** * Sample inputs *)
(* ===================================================================== *)

Module Samples.
Import Py ParserService.

Definition nl : string := String "010" "".

(** [const f = () => { function g() {} }] and its JavaScript parse
    tree. *)
Definition js_source : string := "const f = () => { function g() {} }".

Definition js_inner_function : Node :=
  mkNode "function_declaration" "function g() {}" 18 33 (0, 18) (0, 33)
    [ mkNode "function" "function" 18 26 (0, 18) (0, 26) [];
      mkNode "identifier" "g" 27 28 (0, 27) (0, 28) [];
      mkNode "formal_parameters" "()" 28 30 (0, 28) (0, 30)
        [ mkNode "(" "(" 28 29 (0, 28) (0, 29) [];
          mkNode ")" ")" 29 30 (0, 29) (0, 30) [] ];
      mkNode "statement_block" "{}" 31 33 (0, 31) (0, 33)
        [ mkNode "{" "{" 31 32 (0, 31) (0, 32) [];
          mkNode "}" "}" 32 33 (0, 32) (0, 33) [] ] ].

Definition js_arrow : Node :=
  mkNode "arrow_function" "() => { function g() {} }" 10 35 (0, 10) (0, 35)
    [ mkNode "formal_parameters" "()" 10 12 (0, 10) (0, 12)
        [ mkNode "(" "(" 10 11 (0, 10) (0, 11) [];
          mkNode ")" ")" 11 12 (0, 11) (0, 12) [] ];
      mkNode "=>" "=>" 13 15 (0, 13) (0, 15) [];
      mkNode "statement_block" "{ function g() {} }" 16 35 (0, 16) (0, 35)
        [ mkNode "{" "{" 16 17 (0, 16) (0, 17) [];
          js_inner_function;
          mkNode "}" "}" 34 35 (0, 34) (0, 35) [] ] ].

Definition js_root : Node :=
  mkNode "program" js_source 0 35 (0, 0) (0, 35)
    [ mkNode "lexical_declaration" js_source 0 35 (0, 0) (0, 35)
        [ mkNode "const" "const" 0 5 (0, 0) (0, 5) [];
          mkNode "variable_declarator" "f = () => { function g() {} }" 6 35 (0, 6) (0, 35)
            [ mkNode "identifier" "f" 6 7 (0, 6) (0, 7) [];
              mkNode "=" "=" 8 9 (0, 8) (0, 9) [];
              js_arrow ] ] ].



(** A Python class with two methods, and its parse tree. *)
Definition two_methods_source : string :=
  "class C:" ++ nl ++ "    def f(self):" ++ nl ++ "        pass" ++ nl
  ++ "    def g(self):" ++ nl ++ "        pass" ++ nl.

Definition method_node (nm : string) (row b : nat) : Node :=
  mkNode "function_definition" (slice two_methods_source b (b + 25)) b (b + 25)
         (row, 4) (row + 1, 12)
    [ mkNode "def" "def" b (b + 3) (row, 4) (row, 7) [];
      mkNode "identifier" nm (b + 4) (b + 5) (row, 8) (row, 9) [];
      mkNode "parameters" "(self)" (b + 5) (b + 11) (row, 9) (row, 15)
        [ mkNode "(" "(" (b + 5) (b + 6) (row, 9) (row, 10) [];
          mkNode "identifier" "self" (b + 6) (b + 10) (row, 10) (row, 14) [];
          mkNode ")" ")" (b + 10) (b + 11) (row, 14) (row, 15) [] ];
      mkNode ":" ":" (b + 11) (b + 12) (row, 15) (row, 16) [];
      mkNode "block" "pass" (b + 21) (b + 25) (row + 1, 8) (row + 1, 12)
        [ mkNode "pass_statement" "pass" (b + 21) (b + 25) (row + 1, 8) (row + 1, 12)
            [ mkNode "pass" "pass" (b + 21) (b + 25) (row + 1, 8) (row + 1, 12) [] ] ] ].

Definition two_methods_root : Node :=
  mkNode "module" (slice two_methods_source 0 69) 0 69 (0, 0) (5, 0)
    [ mkNode "class_definition" (slice two_methods_source 0 68) 0 68 (0, 0) (4, 12)
        [ mkNode "class" "class" 0 5 (0, 0) (0, 5) [];
          mkNode "identifier" "C" 6 7 (0, 6) (0, 7) [];
          mkNode ":" ":" 7 8 (0, 7) (0, 8) [];
          mkNode "block" (slice two_methods_source 13 68) 13 68 (1, 4) (4, 12)
            [ method_node "f" 1 13; method_node "g" 3 43 ] ] ].

(** A repository analysed before, a job created for it (hence
    incremental), and a world in which the pull reports four changed
    paths, every file reads as one assignment and parses to an empty
    module. The digest of the sample worlds is the identity, which keeps
    the stored hashes readable. *)
Import Models Tasks.

Definition demo_repo : Repository :=
  mkRepository 1 "demo" "octo" (Some "0123abc") None.

Definition demo_job : AnalysisJob := JobsApi.new_job 7 demo_repo.

Definition demo_changed : list string :=
  [ "README.md"; ".eslintrc.js"; "package-lock.json"; "src/a.py" ].

Definition empty_module : Node := mkNode "module" "" 0 0 (0, 0) (0, 0) [].

Definition demo_world : World :=
  mkWorld (fun _ _ => Ok (Some "text"))
          "/data/repos"
          (fun _ _ => Ok ("89abcde", demo_changed))
          (fun _ => [])
          (fun _ => Some "x = 1")
          (fun content => content)
          (fun _ _ => empty_module).

Definition empty_session : Session := mkSession [] [] [] 100 [].

(** A world in which [c.py] holds the sample class with two methods and
    every description request is answered. *)
Definition class_world : World :=
  mkWorld (fun _ _ => Ok (Some "text"))
          "/data/repos"
          (fun _ _ => Ok ("89abcde", ["c.py"]))
          (fun _ => [])
          (fun _ => Some two_methods_source)
          (fun content => content)
          (fun _ _ => two_methods_root).



Definition flaky_world : World :=
  mkWorld (fun _ request =>
             match request with
             | analyze_code_unit _ _ nm _ =>
                 if String.eqb nm "a" then Raise "rate limit" else Ok (Some "text")
             | _ => Ok (Some "summary")
             end)
          "/data/repos"
          (fun _ _ => Ok ("89abcde", ["m.py"]))
          (fun _ => [])
          (fun _ => Some "x = 1")
          (fun content => content)
          (fun _ _ => empty_module).

Definition stored_file : File :=
  mkFile 5 100 "m.py" "m.py" (Some "python") (Some "x = 1") (Some "old summary") (Some 1).

(** A session that already holds the root directory and [m.py] with the
    digest of its current content. *)
Definition analysed_session : Session :=
  mkSession [mkDirectory 100 1 None "" "demo" None] [stored_file] [] 101 [].

(** Directories with the paths [""], ["a"], ["a/b"] and ["c"], stored in
    this order. *)
Definition dir_with_path (id : nat) (path : string) : Directory :=
  mkDirectory id 1 None path (basename path) None.

Definition four_directories : Session :=
  mkSession [ dir_with_path 1 ""; dir_with_path 2 "a"; dir_with_path 3 "a/b";
              dir_with_path 4 "c" ] [] [] 100 [].

(** The sample job cancelled while it is still pending, and the run the
    worker then makes on the job's row as the cancellation left it. *)
Definition cancelled_table : list AnalysisJob :=
  JobsApi.jobs_after (JobsApi.cancel_job 7 [demo_job]).

Definition run_after_cancel : TaskResult :=
  analyze_repository demo_world 50 10 20 cancelled_table [demo_repo] empty_session.

Definition demo_run : TaskResult :=
  analyze_repository demo_world 50 10 20 [demo_job] [demo_repo] empty_session.

End Samples.

(* ===================================================================== *)
(** * Further predicates: forests, provenance *)
(* ===================================================================== *)

Module Forest.
Import Py ParserService.

(** The nodes below [n], in document order. *)
Fixpoint descendants (n : Node) : list Node :=
  match n with
  | mkNode _ _ _ _ _ _ chs => flat_map (fun c => c :: descendants c) chs
  end.

(** A unit followed by the units nested in it, in the order in which
    [_create_code_unit] visits them. *)
Fixpoint preorder (u : CodeUnitInfo) : list CodeUnitInfo :=
  match u with
  | mkCodeUnitInfo _ _ _ _ _ _ chs _ => u :: flat_map preorder chs
  end.

Definition all_units (forest : list CodeUnitInfo) : list CodeUnitInfo :=
  flat_map preorder forest.

(** The unit [u] carries the name, the lines, the text and the signature
    of the node [n], and [n] is of a kind the language extracts. *)
Definition taken_from (content language : string) (n : Node) (u : CodeUnitInfo) : Prop :=
  (mem (node_type n) (extract_types language "function") = true \/
   mem (node_type n) (extract_types language "class") = true) /\
  _get_name n language = Some (name u) /\
  start_line u = fst (node_start_point n) + 1 /\
  end_line u = fst (node_end_point n) + 1 /\
  source_code u = slice content (node_start_byte n) (node_end_byte n) /\
  signature u = _extract_signature n content language.

(** The node yields a unit: it is of a function kind, or else of a class
    kind, and has a non-empty name. *)
Definition yields_unit (language : string) (n : Node) : bool :=
  if mem (node_type n) (extract_types language "function")
  then truthy (_get_name n language)
  else if mem (node_type n) (extract_types language "class")
       then truthy (_get_name n language)
       else false.

(** The node yields a function or method unit. *)
Definition yields_function (language : string) (n : Node) : bool :=
  mem (node_type n) (extract_types language "function")
  && truthy (_get_name n language).

(** The nodes below [n] that are not inside a node yielding a function
    or method unit, in document order. *)
Fixpoint searched (language : string) (n : Node) : list Node :=
  match n with
  | mkNode _ _ _ _ _ _ chs =>
      flat_map (fun c => c :: (if yields_function language c then []
                               else searched language c)) chs
  end.

End Forest.

(* ===================================================================== *)
(** * Further predicates: the shape of the forest *)
(* ===================================================================== *)

Module ForestShape.
Import Py ParserService Forest.



End ForestShape.

(* ===================================================================== *)
(** * Further predicates: what a run keeps *)
(* ===================================================================== *)

Module Persistence.
Import Py Models ParserService Tasks PipelineSpec.

(** The columns of a directory row that no task function assigns after
    the row is created. *)
Definition dir_key (d : Directory) : nat * nat * option nat * string * string :=
  (dir_id d, dir_repository_id d, dir_parent_id d, dir_path d, dir_name d).

(** From [s] to [s'] no directory row and no file row was removed or
    moved: the directory rows of [s] are in [s'] at the same positions
    with the same id, repository, parent, path and name, and so are the
    ids of the file rows. *)
Definition keeps_rows (s s' : Session) : Prop :=
  (exists added, map dir_key (directories s') = (map dir_key (directories s) ++ added)%list) /\
  (exists new, map file_id (files s') = (map file_id (files s) ++ new)%list).

(** The repository has at most one root directory row. *)
Definition at_most_one_root (repo : Repository) (s : Session) : Prop :=
  length (rows_for repo "" s) <= 1.

(** The entries [_generate_repository_summary] collects below the root
    directory [root_dir]: its files by name, then the directories whose
    parent it is, by name followed by a slash; those with a summary. *)
Definition root_items (root_dir : Directory) (s : Session) : list ItemSummary :=
  (file_items (filter (fun f => Nat.eqb (file_directory_id f) (dir_id root_dir))
                      (files s)) ++
   dir_items "/" (filter (fun d => option_nat_eqb (dir_parent_id d)
                                                  (Some (dir_id root_dir)))
                         (directories s)))%list.

(** The session after one more request was sent. *)
Definition logged (s : Session) (request : LLMCall) : Session :=
  mkSession (directories s) (files s) (code_units s) (next_id s)
            (llm_calls s ++ [request]).

(** The request asks for the summary of a directory. *)
Definition is_directory_request (c : LLMCall) : bool :=
  match c with
  | summarize_directory _ _ _ => true
  | _ => false
  end.

(** The summary of the directory row with the key [id], if any. *)
Definition row_summary (id : nat) (s : Session) : option string :=
  match find (fun d => Nat.eqb (dir_id d) id) (directories s) with
  | Some d => dir_summary d
  | None => None
  end.

(** The directory [d] of the repository lies below the directory
    [root]: its parent is [root], or its parent is a directory below
    [root] whose path its own path continues after a slash. *)
Inductive below_root (repo : Repository) (s : Session) (root : Directory)
  : Directory -> Prop :=
| below_direct (d : Directory) :
    In d (directories s) -> dir_repository_id d = repo_id repo ->
    dir_parent_id d = Some (dir_id root) ->
    dir_path d <> "" ->
    below_root repo s root d
| below_step (d p : Directory) (suffix : string) :
    In d (directories s) -> dir_repository_id d = repo_id repo ->
    dir_parent_id d = Some (dir_id p) ->
    dir_path d = dir_path p ++ "/" ++ suffix ->
    below_root repo s root p ->
    below_root repo s root d.

End Persistence.

(* ===================================================================== *)
(** * Further predicates: the stored code units *)
(* ===================================================================== *)

Module Stored.
Import Py Models ParserService JobsApi Tasks RepositoriesApi PipelineSpec Forest.

(** The rows [rows] store the unit [u] of the file [fid] below the row
    [parent]: the first row holds the columns of [u] and points to
    [parent]; it is followed, child by child, by the rows that store the
    children of [u] below it. Every row after the first has a parent
    key that is not before the key of the first row and is before its
    own key. *)
Inductive stored_as (fid : nat) : option nat -> CodeUnitInfo -> list CodeUnit -> Prop :=
| stored_unit (parent : option nat) (u : CodeUnitInfo) (row : CodeUnit)
              (segments : list (list CodeUnit)) :
    cu_file_id row = fid ->
    cu_parent_id row = parent ->
    cu_type row = type u ->
    cu_name row = name u ->
    cu_start_line row = start_line u ->
    cu_end_line row = end_line u ->
    cu_signature row = Some (signature u) ->
    cu_metadata row = metadata u ->
    Forall2 (stored_as fid (Some (cu_id row))) (children u) segments ->
    Forall (fun r => exists p, cu_parent_id r = Some p /\
                               cu_id row <= p /\ p < cu_id r)
           (concat segments) ->
    stored_as fid parent u (row :: concat segments).

(** The descriptions the language model gives for the units, asked one
    after the other: [None] where the request raises. *)
Fixpoint answers (w : World) (language : string) (log : list LLMCall)
         (units : list CodeUnitInfo) : list (option string) :=
  match units with
  | [] => []
  | u :: rest =>
      match llm w log (unit_request language u) with
      | Ok d => d
      | Raise _ => None
      end :: answers w language (log ++ [unit_request language u]) rest
  end.

(** The [files] table after the assignments to the mapped instance with
    the key of [f'] were flushed. *)
Definition replace_file (f' : File) (fs : list File) : list File :=
  map (fun f => if Nat.eqb (file_id f) (file_id f') then f' else f) fs.

(** The keys of the session's file rows are distinct and were drawn from
    the supply. *)
Definition file_keys_ok (s : Session) : Prop :=
  NoDup (map file_id (files s)) /\
  Forall (fun f => file_id f < next_id s) (files s).

(** The keys of the session's code unit rows, and the keys they refer
    to as parent, were drawn from the supply. *)
Definition unit_keys_ok (s : Session) : Prop :=
  Forall (fun r => cu_id r < next_id s /\
                   forall p, cu_parent_id r = Some p -> p < next_id s)
         (code_units s).

(** A row with its key among the keys from [lo] up to [hi], whose parent
    is [parent] or has a key among them. *)
Definition inside (lo hi : nat) (parent : option nat) (r : CodeUnit) : Prop :=
  lo <= cu_id r < hi /\
  (cu_parent_id r = parent \/
   exists p, cu_parent_id r = Some p /\ lo <= p < hi).

(** A row that has no key from [lo] up to [hi] and no parent there. *)
Definition outside (lo hi : nat) (r : CodeUnit) : Prop :=
  (cu_id r < lo \/ hi <= cu_id r) /\
  forall p, cu_parent_id r = Some p -> p < lo \/ hi <= p.

(** [get_code_unit] answers the key of [row] with [row], which holds the
    columns of the unit [u], and the children it lists are answered in
    the same way for the children of [u], in order. *)
Inductive served (s : Session) : CodeUnitInfo -> CodeUnit -> Prop :=
| served_unit (u : CodeUnitInfo) (row : CodeUnit) (kids : list CodeUnit) :
    get_code_unit (cu_id row) s = Ok (inr (mkCodeUnitDetail row kids)) ->
    cu_type row = type u ->
    cu_name row = name u ->
    cu_start_line row = start_line u ->
    cu_end_line row = end_line u ->
    cu_signature row = Some (signature u) ->
    cu_metadata row = metadata u ->
    Forall2 (served s) (children u) kids ->
    served s u row.

End Stored.

(* ===================================================================== *)
(** * Further predicates: repository addresses *)
(* ===================================================================== *)

Module UrlSpec.
Import Py RepositoriesApi.

(** Every character of [s] satisfies [p]. *)
Fixpoint all_chars (p : ascii -> bool) (s : string) : bool :=
  match s with
  | EmptyString => true
  | String c rest => p c && all_chars p rest
  end.

(** A non-empty string without a slash, as the name of an owner is. *)
Definition owner_like (s : string) : Prop :=
  s <> "" /\ all_chars not_slash s = true.

(** A non-empty string without a slash and without a dot. *)
Definition name_like (s : string) : Prop :=
  s <> "" /\ all_chars not_slash_or_dot s = true.

(** What may follow the name in an address: nothing, or something that
    starts with a slash or a dot. *)
Definition ends_name (tail : string) : Prop :=
  match tail with
  | EmptyString => True
  | String c _ => not_slash_or_dot c = false
  end.

(** The forms of address that contain the host name. *)
Definition address_prefixes : list string :=
  [ "https://github.com/"; "http://github.com/"; "ssh://git@github.com/";
    "git@github.com:"; "github.com/"; "github.com:" ].

(** The rows of [repositories] with the given owner and name. *)
Definition registered (owner name : string) (repositories : list RepositoryRow)
  : list RepositoryRow :=
  filter (fun r => String.eqb (Models.repo_owner (columns r)) owner
                   && String.eqb (Models.repo_name (columns r)) name)
         repositories.

(** No owner and name are registered twice. *)
Definition names_unique (repositories : list RepositoryRow) : Prop :=
  forall owner name, length (registered owner name repositories) <= 1.

(** The answer to a second registration. *)
Definition already_registered : Response RepositoryRow :=
  Ok (inl (JobsApi.mkHTTPException 400 "Repository already registered")).

End UrlSpec.

(* ===================================================================== *)
(** * Further sample inputs *)
(* ===================================================================== *)

Module MoreSamples.
Import Py Models ParserService Tasks Samples.

(** A world in which no file can be read, as after the files were
    deleted upstream. *)
Definition missing_world : World :=
  mkWorld (fun _ _ => Ok (Some "text"))
          "/data/repos"
          (fun _ _ => Ok ("89abcde", ["gone.py"]))
          (fun _ => [])
          (fun _ => None)
          (fun content => content)
          (fun _ _ => empty_module).

(** A world in which the remote cannot be reached. *)
Definition offline_world : World :=
  mkWorld (fun _ _ => Ok (Some "text"))
          "/data/repos"
          (fun _ _ => Raise "could not resolve host")
          (fun _ => [])
          (fun _ => None)
          (fun content => content)
          (fun _ _ => empty_module).

(** A world whose working tree holds, besides the [.git] directory, a
    Python file, a hidden file, a lockfile and a text file at the root,
    a workflow script under [.github] and a TypeScript file under
    [src]. *)
Definition walk_world : World :=
  mkWorld (fun _ _ => Ok (Some "text"))
          "/data/repos"
          (fun _ _ => Ok ("89abcde", []))
          (fun repo_path =>
             [ (repo_path, ["a.py"; ".hidden.py"; "yarn.lock"; "notes.txt"]);
               (repo_path ++ "/.git", ["config.py"]);
               (repo_path ++ "/.github", ["release.py"]);
               (repo_path ++ "/src", ["b.ts"]) ])
          (fun _ => Some "x = 1")
          (fun content => content)
          (fun _ _ => empty_module).

(** A session that holds [c.py] as analysed for an earlier content: its
    hash is out of date, and it has one code unit; another file has one
    too. *)
Definition stale_session : Session :=
  mkSession [mkDirectory 100 1 None "" "demo" None]
            [mkFile 5 100 "c.py" "c.py" (Some "python") (Some "old") (Some "old summary")
                    (Some 1);
             mkFile 6 100 "d.py" "d.py" (Some "python") (Some "h") None (Some 1)]
            [mkCodeUnit 7 5 None "function" "removed" 1 1 (Some "def removed():") None [];
             mkCodeUnit 8 6 None "function" "other" 1 1 (Some "def other():") None []]
            101 [].

(** A session with the root directory, the directory [src] below it and
    a summarized file in [src]. *)
Definition summarized_session : Session :=
  mkSession [mkDirectory 100 1 None "" "demo" None;
             mkDirectory 101 1 (Some 100) "src" "src" None]
            [mkFile 5 101 "src/a.py" "a.py" (Some "python") (Some "h")
                    (Some "helpers") (Some 1)]
            [] 102 [].





End MoreSamples.
(* ===================================================================== *)
(** * Properties of the structural extractor *)
(* ===================================================================== *)

Section Extractor.
Import Py ParserService ExtractorSpec Forest ForestShape Samples MoreSamples.

(** Induction over a parse tree, with the hypothesis for every child. *)
Lemma Node_forall_ind (P : Node -> Prop) :
  (forall ty tx sb eb sp ep chs,
      Forall P chs -> P (mkNode ty tx sb eb sp ep chs)) ->
  forall n, P n.
Proof.
  intro step.
  fix IH 1.
  intros [ty tx sb eb sp ep chs].
  apply step.
  induction chs as [|c chs IHchs]; constructor.
  - apply IH.
  - exact IHchs.
Qed.

Lemma extract_child_unfold content language parent_class child :
  extract_child content language parent_class child =
  match
    (if mem (node_type child) (extract_types language "function") then
       _extract_function child content language parent_class
     else if mem (node_type child) (extract_types language "class") then
       match _extract_class child content language with
       | Some u =>
           Some (set_children u
                   (_extract_code_units child content language (Some (name u))))
       | None => None
       end
     else None)
  with
  | Some u => [u]
  | None => _extract_code_units child content language parent_class
  end.
Proof. destruct child; reflexivity. Qed.



Lemma extract_function_some node content language parent_class u :
  _extract_function node content language parent_class = Some u ->
  _get_name node language = Some (name u) /\ name u <> "" /\
  type u = (if truthy parent_class then "method" else "function") /\
  start_line u = fst (node_start_point node) + 1 /\
  end_line u = fst (node_end_point node) + 1 /\
  children u = [] /\
  metadata u = function_metadata parent_class.
Proof.
  unfold _extract_function.
  destruct (_get_name node language) as [nm|]; [|discriminate].
  destruct nm as [|c nm]; simpl; [discriminate|].
  intros [= <-]. simpl. repeat split; discriminate.
Qed.

Lemma extract_function_none node content language parent_class :
  _extract_function node content language parent_class = None <->
  (_get_name node language = None \/ _get_name node language = Some "").
Proof.
  unfold _extract_function.
  destruct (_get_name node language) as [[|c nm]|]; simpl; split; intros H;
    auto; try discriminate; destruct H as [H|H]; discriminate.
Qed.


(** ** Function-kind nodes *)

(** C1 (as the code has it). A node whose kind is in the language's
    function kind set and that has a non-empty name contributes exactly
    one unit, without children: the extractor does not look inside it. A
    function-kind node from which no name (or only an empty one) can be
    extracted contributes no unit of its own, and the extractor then
    recurses into its children with the class context unchanged: the
    node contributes whatever units its subtree holds. *)
Theorem function_node_contribution :
  forall content language parent_class child,
    mem (node_type child) (extract_types language "function") = true ->
    (forall nm, _get_name child language = Some nm -> nm <> "" ->
       exists u, extract_child content language parent_class child = [u] /\
                 name u = nm /\ children u = []) /\
    (_get_name child language = None \/ _get_name child language = Some "" ->
       extract_child content language parent_class child =
       _extract_code_units child content language parent_class).
Proof.
  intros content language parent_class child Hkind.
  rewrite extract_child_unfold, Hkind.
  split.
  - intros nm Hnm Hne.
    destruct (_extract_function child content language parent_class) as [u|] eqn:E.
    + apply extract_function_some in E.
      destruct E as (Hn & _ & _ & _ & _ & Hch & _).
      exists u. repeat split; [congruence | exact Hch].
    + apply extract_function_none in E. destruct E as [E|E]; congruence.
  - intros Hnone.
    apply (proj2 (extract_function_none child content language parent_class)) in Hnone.
    now rewrite Hnone.
Qed.


(** Witness of [function_node_contribution]: the inner function of the
    sample is named [g]; the arrow function around it has no name. *)
Lemma function_node_contribution_witness :
  (exists u, extract_child js_source "javascript" None js_inner_function = [u] /\
             name u = "g" /\ children u = []) /\
  extract_child js_source "javascript" None js_arrow =
  _extract_code_units js_arrow js_source "javascript" None.
Proof.
  split.
  - apply (proj1 (function_node_contribution js_source "javascript" None
                    js_inner_function eq_refl) "g" eq_refl).
    discriminate.
  - apply (proj2 (function_node_contribution js_source "javascript" None
                    js_arrow eq_refl)).
    left. reflexivity.
Defined.

(** C1, counterexample. In [const f = () => { function g() {} }] the
    arrow function is of a function kind and no name can be extracted
    from it, yet the extractor recurses into it: the function [g] of its
    body is a unit of the result. *)
Lemma unnamed_function_node_is_searched :
  mem (node_type js_arrow) (extract_types "javascript" "function") = true /\
  _get_name js_arrow "javascript" = None /\
  extract_child js_source "javascript" None js_arrow =
    [mkCodeUnitInfo "function" "g" 1 1 "function g()" "function g() {}" [] []] /\
  _extract_code_units js_root js_source "javascript" None =
    [mkCodeUnitInfo "function" "g" 1 1 "function g()" "function g() {}" [] []].
Proof. repeat split; vm_compute; reflexivity. Qed.

(** ** The shape of the forest *)


Lemma descendants_unfold n :
  descendants n = flat_map (fun c => c :: descendants c) (node_children n).
Proof. destruct n; reflexivity. Qed.








End Extractor.

(* ===================================================================== *)
(** * Properties of job cancellation *)
(* ===================================================================== *)

Section Cancellation.
Import Py Models JobsApi PipelineSpec.

Lemma filter_update_job id j' jobs :
  job_id j' = id ->
  filter (fun j => Nat.eqb (job_id j) id) (update_job j' jobs) =
  map (fun _ => j') (filter (fun j => Nat.eqb (job_id j) id) jobs).
Proof.
  intros Hid. subst id. unfold update_job.
  induction jobs as [|j jobs IH]; simpl; [reflexivity|].
  destruct (Nat.eqb (job_id j) (job_id j')) eqn:E; simpl.
  - rewrite Nat.eqb_refl. simpl. now rewrite IH.
  - rewrite E. exact IH.
Qed.

(** C6. For a job found by its id: if its status is [pending] or
    [running], cancelling returns the job with status [failed] and error
    message exactly [Cancelled by user], stores that as the job's row and
    revokes the task; if its status is [completed] or [failed], the
    request is rejected (400) and the table is unchanged. *)
Theorem cancel_job_spec :
  forall id jobs job,
    filter (fun j => Nat.eqb (job_id j) id) jobs = [job] ->
    (status job = "pending" \/ status job = "running" ->
     cancel_job id jobs =
       mkOutcome (update_job (cancelled job) jobs) [id] (Ok (inr (cancelled job))) /\
     status (cancelled job) = "failed" /\
     error_message (cancelled job) = Some "Cancelled by user" /\
     filter (fun j => Nat.eqb (job_id j) id) (update_job (cancelled job) jobs)
       = [cancelled job]) /\
    (status job = "completed" \/ status job = "failed" ->
     cancel_job id jobs =
       mkOutcome jobs [] (Ok (inl (mkHTTPException 400 "Job cannot be cancelled")))).
Proof.
  intros id jobs job Hrow.
  assert (Hid : job_id job = id).
  { assert (Hin : In job (filter (fun j => Nat.eqb (job_id j) id) jobs))
      by (rewrite Hrow; left; reflexivity).
    apply filter_In in Hin. destruct Hin as [_ Hin].
    now apply Nat.eqb_eq in Hin. }
  unfold cancel_job. rewrite Hrow. simpl scalar_one_or_none. cbv iota.
  split.
  - intros Hst.
    assert (Hmem : mem (status job) ["pending"; "running"] = true)
      by (destruct Hst as [-> | ->]; reflexivity).
    rewrite Hmem. simpl negb. cbv iota.
    repeat split.
    rewrite filter_update_job by exact Hid.
    now rewrite Hrow.
  - intros Hst.
    assert (Hmem : mem (status job) ["pending"; "running"] = false)
      by (destruct Hst as [-> | ->]; reflexivity).
    rewrite Hmem. reflexivity.
Qed.

End Cancellation.

(** Witness of [cancel_job_spec]: a pending job is cancelled, a completed
    one is not. *)
Lemma cancel_job_spec_witness :
  JobsApi.cancel_job 7 [Samples.demo_job] =
    JobsApi.mkOutcome [PipelineSpec.cancelled Samples.demo_job] [7]
                      (Ok (inr (PipelineSpec.cancelled Samples.demo_job))) /\
  JobsApi.cancel_job 7 [Models.set_status Samples.demo_job "completed"] =
    JobsApi.mkOutcome [Models.set_status Samples.demo_job "completed"] []
                      (Ok (inl (JobsApi.mkHTTPException 400 "Job cannot be cancelled"))).
Proof.
  split.
  - apply (proj1 (cancel_job_spec 7 [Samples.demo_job] Samples.demo_job eq_refl)).
    left. reflexivity.
  - apply (proj2 (cancel_job_spec 7 [Models.set_status Samples.demo_job "completed"]
                                  (Models.set_status Samples.demo_job "completed") eq_refl)).
    left. reflexivity.
Defined.

(* ===================================================================== *)
(** * Properties of the file selection *)
(* ===================================================================== *)

Section Selection.
Import Py Models ParserService Tasks PipelineSpec Samples.

(** The session and the repository instance a run leaves do not depend
    on the job's own columns. *)
Lemma process_files_session w depth selected selected' :
  forall remaining i i' r r',
    run_session r = run_session r' -> run_repo r = run_repo r' ->
    run_session (process_files w depth selected i remaining r) =
    run_session (process_files w depth selected' i' remaining r') /\
    run_repo (process_files w depth selected i remaining r) =
    run_repo (process_files w depth selected' i' remaining r').
Proof.
  induction remaining as [|f rest IH]; intros i i' r r' Hs Hr; simpl.
  - auto.
  - rewrite Hs, Hr.
    destruct (_process_file w depth (run_repo r') f (run_session r')) as [res s'].
    apply IH; reflexivity.
Qed.

Lemma analyze_body_session w depth t_end r r' :
  run_session r = run_session r' -> run_repo r = run_repo r' ->
  files_to_process w (run_job r) (run_repo r) =
  files_to_process w (run_job r') (run_repo r') ->
  fst (analyze_body w depth t_end r) = fst (analyze_body w depth t_end r') /\
  run_session (snd (analyze_body w depth t_end r)) =
  run_session (snd (analyze_body w depth t_end r')) /\
  run_repo (snd (analyze_body w depth t_end r)) =
  run_repo (snd (analyze_body w depth t_end r')).
Proof.
  destruct r as [s j rp c], r' as [s' j' rp' c'].
  simpl. intros <- <- Hsel. unfold analyze_body. simpl run_repo. simpl run_job.
  destruct (clone_or_pull w (repo_owner rp) (repo_name rp))
    as [[commit_hash changed]|e0]; [|simpl; auto].
  rewrite <- Hsel.
  set (selected := files_to_process w j rp changed).
  match goal with
  | |- context [process_files w depth selected 0 selected ?a] => set (r1 := a)
  end.
  match goal with
  | |- context [process_files w depth selected 0 selected ?a] =>
      lazymatch a with r1 => fail | _ => set (r1' := a) end
  end.
  destruct (process_files_session w depth selected selected selected 0 0 r1 r1')
    as [Hs2 Hr2]; [reflexivity | reflexivity |].
  rewrite Hs2, Hr2.
  destruct (_generate_directory_summaries w
              (run_repo (process_files w depth selected 0 selected r1'))
              (run_session (process_files w depth selected 0 selected r1')))
    as [[u|e1] s3]; simpl; [|auto].
  destruct (_generate_repository_summary w
              (run_repo (process_files w depth selected 0 selected r1')) s3)
    as [[repo'|e2] s4]; simpl; auto.
Qed.

(** C10. An incremental job on a repository without a stored revision
    ignores the changed paths and selects every supported file of the
    cloned tree, which is the selection of a full job; the two runs then
    end alike and leave the same session and the same repository row. *)
Theorem incremental_without_revision_runs_full :
  forall w job full_job repo changed_files,
    job_type job = "incremental" ->
    truthy (last_commit_hash repo) = false ->
    job_type full_job = "full" ->
    files_to_process w job repo changed_files =
      _get_all_supported_files w (get_repo_path w (repo_owner repo) (repo_name repo)) /\
    (forall changed_files',
        files_to_process w job repo changed_files =
        files_to_process w full_job repo changed_files') /\
    (forall depth t_end s c c',
        let a := analyze_body w depth t_end (mkRun s job repo c) in
        let b := analyze_body w depth t_end (mkRun s full_job repo c') in
        fst a = fst b /\
        run_session (snd a) = run_session (snd b) /\
        run_repo (snd a) = run_repo (snd b)).
Proof.
  intros w job full_job repo changed_files Hinc Hrev Hfull.
  assert (Hsel : forall ch ch',
             files_to_process w job repo ch = files_to_process w full_job repo ch').
  { intros ch ch'. unfold files_to_process.
    rewrite Hinc, Hfull, Hrev. reflexivity. }
  split; [|split].
  - unfold files_to_process. rewrite Hinc, Hrev. reflexivity.
  - intros ch'. apply Hsel.
  - intros depth t_end s c c'. simpl.
    apply analyze_body_session; simpl; try reflexivity.
    unfold files_to_process. rewrite Hinc, Hfull, Hrev. reflexivity.
Qed.

(** Witness of [incremental_without_revision_runs_full]: an incremental
    job on the sample repository with its revision removed. *)
Lemma incremental_without_revision_runs_full_witness :
  files_to_process demo_world demo_job (set_last_commit_hash demo_repo None)
                   demo_changed =
  _get_all_supported_files demo_world (get_repo_path demo_world "octo" "demo").
Proof.
  apply (incremental_without_revision_runs_full
           demo_world demo_job (set_status (JobsApi.new_job 8 (set_last_commit_hash demo_repo None)) "pending")
           (set_last_commit_hash demo_repo None) demo_changed);
    reflexivity.
Defined.

(** C2, the code at a failing input. An incremental job on a repository
    with a stored revision takes the changed paths as they are: of the
    four changed paths only [src/a.py] passes the filter of a full job,
    yet all four are selected and counted in [total_files], and the
    hidden file [.eslintrc.js] is parsed and stored. *)
Lemma incremental_job_counts_unfiltered_paths :
  job_type demo_job = "incremental" /\
  last_commit_hash demo_repo = Some "0123abc" /\
  files_to_process demo_world demo_job demo_repo demo_changed = demo_changed /\
  spec_incremental_selection (get_repo_path demo_world "octo" "demo") demo_changed
    = ["src/a.py"] /\
  exists r,
    demo_run = Finished (Ok tt) r /\
    total_files (run_job r) = Some 4 /\
    map file_path (files (run_session r)) = [".eslintrc.js"; "src/a.py"].
Proof.
  repeat split; try (vm_compute; reflexivity).
  eexists. split; [vm_compute; reflexivity|].
  split; reflexivity.
Qed.

End Selection.

(* ===================================================================== *)
(** * Properties of the summarization order *)
(* ===================================================================== *)

Section StringOrder.

Lemma ascii_compare_refl (a : ascii) : Ascii.compare a a = Eq.
Proof. unfold Ascii.compare. apply N.compare_refl. Qed.

Lemma ascii_compare_lt_trans (a b c : ascii) :
  Ascii.compare a b = Lt -> Ascii.compare b c = Lt -> Ascii.compare a c = Lt.
Proof.
  unfold Ascii.compare. rewrite !N.compare_lt_iff. apply N.lt_trans.
Qed.

Lemma string_compare_refl (s : string) : String.compare s s = Eq.
Proof.
  induction s as [|a s IH]; simpl; [reflexivity|].
  now rewrite ascii_compare_refl.
Qed.

Lemma string_compare_lt_trans :
  forall a b c : string,
    String.compare a b = Lt -> String.compare b c = Lt -> String.compare a c = Lt.
Proof.
  induction a as [|x a IH]; intros [|y b] [|z c]; simpl; try discriminate; auto.
  destruct (Ascii.compare x y) eqn:E1; try discriminate;
    destruct (Ascii.compare y z) eqn:E2; try discriminate.
  - apply Ascii.compare_eq_iff in E1, E2. subst.
    rewrite ascii_compare_refl. apply IH.
  - apply Ascii.compare_eq_iff in E1. subst. now rewrite E2.
  - apply Ascii.compare_eq_iff in E2. subst. now rewrite E1.
  - now rewrite (ascii_compare_lt_trans x y z E1 E2).
Qed.

Lemma string_leb_iff (a b : string) :
  String.leb a b = true <-> String.compare a b = Lt \/ a = b.
Proof.
  unfold String.leb. destruct (String.compare a b) eqn:E; split; auto.
  - intros _. right. now apply String.compare_eq_iff.
  - discriminate.
  - intros [H|H]; [discriminate|]. subst. rewrite string_compare_refl in E.
    discriminate.
Qed.

Lemma string_leb_trans (a b c : string) :
  String.leb a b = true -> String.leb b c = true -> String.leb a c = true.
Proof.
  rewrite !string_leb_iff.
  intros [H1| ->] [H2| ->]; auto.
  left. eapply string_compare_lt_trans; eassumption.
Qed.

(** A string extended by a non-empty suffix is strictly greater. *)
Lemma string_lt_extension (a : string) (c : ascii) (s : string) :
  String.compare a (a ++ String c s) = Lt.
Proof.
  induction a as [|x a IH]; simpl; [reflexivity|].
  now rewrite ascii_compare_refl.
Qed.

Lemma string_extension_not_leb (a : string) (c : ascii) (s : string) :
  String.leb (a ++ String c s) a = false.
Proof.
  unfold String.leb. rewrite String.compare_antisym, string_lt_extension.
  reflexivity.
Qed.

End StringOrder.

Section SummarizationOrder.
Import Py Models Tasks PipelineSpec Samples.

Lemma insert_desc_perm d l : Permutation (d :: l) (insert_desc d l).
Proof.
  induction l as [|x l IH]; simpl; [apply Permutation_refl|].
  destruct (String.leb (dir_path x) (dir_path d)); [apply Permutation_refl|].
  eapply Permutation_trans; [apply perm_swap|].
  now apply perm_skip.
Qed.

Lemma order_by_path_desc_perm l : Permutation l (order_by_path_desc l).
Proof.
  induction l as [|d l IH]; simpl; [constructor|].
  eapply Permutation_trans; [|apply insert_desc_perm].
  now apply perm_skip.
Qed.

Lemma insert_desc_sorted d l :
  StronglySorted path_ge l -> StronglySorted path_ge (insert_desc d l).
Proof.
  induction 1 as [|x l Hsorted IH Hx]; simpl.
  - repeat constructor.
  - destruct (String.leb (dir_path x) (dir_path d)) eqn:E.
    + constructor; [constructor; assumption|].
      constructor; [exact E|].
      eapply Forall_impl; [|exact Hx].
      intros y Hy. unfold path_ge in *.
      eapply string_leb_trans; eassumption.
    + constructor; [exact IH|].
      eapply Permutation_Forall; [apply insert_desc_perm|].
      constructor; [|exact Hx].
      unfold path_ge.
      destruct (String.leb_total (dir_path d) (dir_path x)) as [H|H];
        [exact H | congruence].
Qed.

Lemma order_by_path_desc_sorted l : StronglySorted path_ge (order_by_path_desc l).
Proof.
  induction l as [|d l IH]; simpl; [constructor|].
  now apply insert_desc_sorted.
Qed.

Lemma strongly_sorted_nth {A : Type} (R : A -> A -> Prop) (l : list A) :
  StronglySorted R l ->
  forall i j x y, i < j -> nth_error l i = Some x -> nth_error l j = Some y -> R x y.
Proof.
  induction 1 as [|a l Hsorted IH Ha]; intros i j x y Hij Hi Hj.
  - destruct i; discriminate.
  - destruct j as [|j]; [lia|].
    destruct i as [|i]; simpl in Hi, Hj.
    + injection Hi as <-.
      rewrite Forall_forall in Ha. apply Ha.
      eapply nth_error_In; eassumption.
    + apply (IH i j); [lia | assumption | assumption].
Qed.

(** C8. In the order in which [_generate_directory_summaries] visits the
    directories of a repository (descending path order), a directory whose
    path is another directory's path extended by a ["/"]-prefixed suffix
    comes strictly before that directory; every directory of the
    repository is visited exactly as often as it is stored; and the paths
    [""], ["a"], ["a/b"], ["c"] are visited as ["c"], ["a/b"], ["a"],
    [""]. *)
Theorem descendants_are_summarized_first :
  (forall repo s i j ancestor descendant suffix,
      nth_error (summarization_order repo s) i = Some ancestor ->
      nth_error (summarization_order repo s) j = Some descendant ->
      dir_path descendant = dir_path ancestor ++ "/" ++ suffix ->
      j < i) /\
  (forall repo s,
      Permutation
        (filter (fun d => Nat.eqb (dir_repository_id d) (repo_id repo)) (directories s))
        (summarization_order repo s)) /\
  map dir_path (summarization_order demo_repo four_directories) = ["c"; "a/b"; "a"; ""].
Proof.
  split; [|split].
  - intros repo s i j a d suffix Hi Hj Hpath.
    destruct (Nat.lt_ge_cases j i) as [Hlt|Hge]; [exact Hlt|].
    exfalso.
    assert (Hnot : String.leb (dir_path d) (dir_path a) = false)
      by (rewrite Hpath; apply string_extension_not_leb).
    destruct (Nat.eq_dec i j) as [->|Hne].
    + rewrite Hi in Hj. injection Hj as <-.
      unfold String.leb in Hnot. rewrite string_compare_refl in Hnot. discriminate.
    + assert (Hge' : path_ge a d).
      { apply (strongly_sorted_nth path_ge (summarization_order repo s)
                 (order_by_path_desc_sorted _) i j); [lia | assumption | assumption]. }
      unfold path_ge in Hge'. congruence.
  - intros repo s. apply order_by_path_desc_perm.
  - vm_compute. reflexivity.
Qed.

(** Witness of [descendants_are_summarized_first]: ["a/b"] is visited
    second and ["a"] third. *)
Lemma descendants_are_summarized_first_witness :
  nth_error (summarization_order demo_repo four_directories) 2
    = Some (dir_with_path 2 "a") /\
  nth_error (summarization_order demo_repo four_directories) 1
    = Some (dir_with_path 3 "a/b") /\
  1 < 2.
Proof.
  split; [reflexivity|]. split; [reflexivity|].
  apply (proj1 descendants_are_summarized_first demo_repo four_directories 2 1
               (dir_with_path 2 "a") (dir_with_path 3 "a/b") "b");
    reflexivity.
Defined.

End SummarizationOrder.

(* ===================================================================== *)
(** * Properties of the directory tree builder *)
(* ===================================================================== *)

Section PathFacts.
Import Py.

Lemma append_length (a b : string) :
  String.length (a ++ b) = String.length a + String.length b.
Proof. induction a as [|c a IH]; simpl; [reflexivity | now rewrite IH]. Qed.

Lemma append_assoc (a b c : string) : (a ++ b) ++ c = a ++ (b ++ c).
Proof. induction a as [|x a IH]; simpl; [reflexivity | now rewrite IH]. Qed.

Lemma append_empty_r (a : string) : a ++ "" = a.
Proof. induction a as [|x a IH]; simpl; [reflexivity | now rewrite IH]. Qed.

Lemma rsplit_sep_append :
  forall p h t, rsplit_sep p = Some (h, t) -> p = h ++ t.
Proof.
  induction p as [|c p IH]; simpl; intros h t H; [discriminate|].
  destruct (rsplit_sep p) as [[h' t']|].
  - injection H as <- <-. simpl. now rewrite (IH h' t' eq_refl).
  - destruct (Ascii.eqb c "/") eqn:E; [|discriminate].
    injection H as <- <-. apply Ascii.eqb_eq in E. now subst.
Qed.

Lemma rsplit_sep_head :
  forall p h t, rsplit_sep p = Some (h, t) -> exists h', h = h' ++ "/".
Proof.
  induction p as [|c p IH]; simpl; intros h t H; [discriminate|].
  destruct (rsplit_sep p) as [[h1 t1]|].
  - injection H as <- <-. destruct (IH h1 t1 eq_refl) as [h' ->].
    exists (String c h'). reflexivity.
  - destruct (Ascii.eqb c "/"); [|discriminate].
    injection H as <- <-. exists "". reflexivity.
Qed.

Lemma rstrip_sep_prefix : forall h, exists r, h = rstrip_sep h ++ r.
Proof.
  induction h as [|c h [r IH]]; simpl; [exists ""; reflexivity|].
  destruct (rstrip_sep h) as [|x y] eqn:E.
  - destruct (Ascii.eqb c "/").
    + exists (String c h). reflexivity.
    + exists h. reflexivity.
  - exists r. rewrite IH at 1. reflexivity.
Qed.

Lemma rstrip_sep_drops :
  forall h, String.length (rstrip_sep (h ++ "/")) <= String.length h.
Proof.
  induction h as [|c h IH]; simpl; [lia|].
  destruct (rstrip_sep (h ++ "/")) as [|x y].
  - destruct (Ascii.eqb c "/"); simpl; lia.
  - simpl in *. lia.
Qed.

Lemma dirname_prefix (p : string) : exists r, p = dirname p ++ r.
Proof.
  unfold dirname. destruct (rsplit_sep p) as [[h t]|] eqn:E.
  - apply rsplit_sep_append in E. subst p.
    destruct (all_sep h).
    + exists t. reflexivity.
    + destruct (rstrip_sep_prefix h) as [r Hr].
      exists (r ++ t). rewrite <- append_assoc. now rewrite <- Hr.
  - exists p. reflexivity.
Qed.

Lemma dirname_length (p : string) :
  String.length (dirname p) <= String.length p.
Proof.
  destruct (dirname_prefix p) as [r Hr].
  rewrite Hr at 2. rewrite append_length. lia.
Qed.

Lemma dirname_fixed (p : string) :
  String.length (dirname p) = String.length p -> dirname p = p.
Proof.
  destruct (dirname_prefix p) as [r Hr]. intros Hlen.
  rewrite Hr in Hlen at 2. rewrite append_length in Hlen.
  destruct r as [|c r]; [|simpl in Hlen; lia].
  rewrite append_empty_r in Hr. now symmetry.
Qed.

Lemma all_sep_starts (h h' : string) :
  all_sep h = true -> h = h' ++ "/" -> startswith h "/" = true.
Proof.
  intros Hall ->. destruct h' as [|c h']; [reflexivity|].
  simpl in Hall. apply andb_true_iff in Hall. destruct Hall as [Hc _].
  apply Ascii.eqb_eq in Hc. subst c. reflexivity.
Qed.

Lemma startswith_append (a b : string) :
  startswith a "/" = true -> startswith (a ++ b) "/" = true.
Proof.
  destruct a as [|c a]; [discriminate|]. simpl. auto.
Qed.

Lemma dirname_shorter (p : string) :
  startswith p "/" = false -> p <> "" ->
  String.length (dirname p) < String.length p.
Proof.
  intros Hrel Hne. unfold dirname.
  destruct (rsplit_sep p) as [[h t]|] eqn:E.
  - destruct (rsplit_sep_head p h t E) as [h' Hh].
    apply rsplit_sep_append in E.
    destruct (all_sep h) eqn:A.
    + pose proof (all_sep_starts h h' A Hh) as Hs.
      apply (startswith_append h t) in Hs. rewrite <- E in Hs. congruence.
    + rewrite E, append_length, Hh, append_length. simpl.
      pose proof (rstrip_sep_drops h'). lia.
  - destruct p; [congruence | simpl; lia].
Qed.

Lemma dirname_relative (p : string) :
  startswith p "/" = false -> startswith (dirname p) "/" = false.
Proof.
  intros Hrel. destruct (dirname_prefix p) as [r Hr].
  destruct (startswith (dirname p) "/") eqn:E; [|reflexivity].
  apply (startswith_append _ r) in E. rewrite <- Hr in E. congruence.
Qed.

End PathFacts.

Section EnsureDirectory.
Import Py Models Tasks PipelineSpec Samples.

Variable repo : Repository.

(** One call of [_ensure_directory], after the look-up. *)
Lemma ensure_directory_step depth p s :
  _ensure_directory (S depth) repo p s =
  match scalar_one_or_none (rows_for repo p s) with
  | Raise e => (Raise e, s)
  | Ok (Some d) => (Ok d, s)
  | Ok None =>
      if negb (truthy (Some p))
      then add_directory (repo_id repo) None "" (repo_name repo) s
      else match _ensure_directory depth repo (dirname p) s with
           | (Ok parent, s1) =>
               add_directory (repo_id repo) (Some (dir_id parent)) p (basename p) s1
           | (Raise e, s1) => (Raise e, s1)
           end
  end.
Proof.
  unfold rows_for.
  destruct p as [|c p']; simpl; unfold bind, select_directories, lift, ret;
    destruct (scalar_one_or_none _) as [[d|]|e]; reflexivity.
Qed.

Lemma scalar_one_or_none_some {A : Type} (rows : list A) (x : A) :
  scalar_one_or_none rows = Ok (Some x) -> rows = [x].
Proof.
  destruct rows as [|a [|b rows]]; simpl; intros H; try discriminate.
  now injection H as ->.
Qed.

Lemma scalar_one_or_none_none {A : Type} (rows : list A) :
  scalar_one_or_none rows = Ok None -> rows = [].
Proof.
  destruct rows as [|a [|b rows]]; simpl; intros H; try discriminate; reflexivity.
Qed.

Lemma ensure_directory_frame :
  forall depth p s r s',
    _ensure_directory depth repo p s = (r, s') ->
    exists added, appends_rows repo p s s' added.
Proof.
  induction depth as [|depth IH]; intros p s r s' H.
  - simpl in H. injection H as <- <-. exists []. unfold appends_rows.
    rewrite app_nil_r. repeat split; auto.
  - rewrite ensure_directory_step in H.
    destruct (scalar_one_or_none (rows_for repo p s)) as [[d|]|e].
    + injection H as <- <-. exists []. unfold appends_rows.
      rewrite app_nil_r. repeat split; auto.
    + destruct (negb (truthy (Some p))) eqn:T.
      * unfold add_directory in H. injection H as <- <-.
        eexists [_]. unfold appends_rows. simpl.
        repeat split; auto; try lia.
        constructor; [|constructor]. simpl. split; [reflexivity | lia].
      * destruct (_ensure_directory depth repo (dirname p) s) as [[parent|e] s1] eqn:E.
        -- destruct (IH _ _ _ _ E) as (added & Hd & Hf & Hc & Hl & Hn & Hall).
           unfold add_directory in H. injection H as <- <-.
           eexists (added ++ [_])%list. unfold appends_rows. simpl.
           rewrite Hd, Hf, Hc, Hl, Hn, app_assoc, length_app. simpl.
           repeat split; auto; try lia.
           apply Forall_app. split.
           ++ eapply Forall_impl; [|exact Hall]. simpl.
              intros row [H1 H2]. split; [exact H1|].
              pose proof (dirname_length p). lia.
           ++ constructor; [|constructor]. simpl. split; [reflexivity | lia].
        -- injection H as <- <-.
           destruct (IH _ _ _ _ E) as (added & Hd & Hf & Hc & Hl & Hn & Hall).
           exists added. unfold appends_rows. repeat split; auto.
           eapply Forall_impl; [|exact Hall]. simpl.
           intros row [H1 H2]. split; [exact H1|].
           pose proof (dirname_length p). lia.
    + injection H as <- <-. exists []. unfold appends_rows.
      rewrite app_nil_r. repeat split; auto.
Qed.

(** A path that is its own parent and is not stored can never be
    ensured: the recursion does not end. *)
Lemma ensure_directory_stuck p s :
  dirname p = p -> p <> "" -> rows_for repo p s = [] ->
  forall depth, exists e, _ensure_directory depth repo p s = (Raise e, s).
Proof.
  intros Hfix Hne Hrows.
  induction depth as [|depth [e IH]].
  - eexists. reflexivity.
  - rewrite ensure_directory_step, Hrows. simpl scalar_one_or_none. cbv iota.
    destruct p as [|c p']; [congruence|].
    change (negb (truthy (Some (String c p')))) with false. cbv iota.
    rewrite Hfix, IH. eexists. reflexivity.
Qed.

Lemma rows_for_app p s s' added :
  directories s' = (directories s ++ added)%list ->
  rows_for repo p s' =
  (rows_for repo p s ++
   filter (fun d => Nat.eqb (dir_repository_id d) (repo_id repo)
                    && String.eqb (dir_path d) p) added)%list.
Proof. intros H. unfold rows_for. now rewrite H, filter_app. Qed.

Lemma filter_longer_paths p q added :
  String.length q < String.length p ->
  Forall (fun row => dir_repository_id row = repo_id repo /\
                     String.length (dir_path row) <= String.length q) added ->
  filter (fun d => Nat.eqb (dir_repository_id d) (repo_id repo)
                   && String.eqb (dir_path d) p) added = [].
Proof.
  intros Hlt Hall. induction Hall as [|row added [_ Hlen] _ IH]; simpl; [reflexivity|].
  destruct (String.eqb (dir_path row) p) eqn:E.
  - apply String.eqb_eq in E. rewrite E in Hlen. lia.
  - rewrite andb_false_r. exact IH.
Qed.

(** After a call that returned, the look-up of the path finds exactly the
    returned row. *)
Lemma ensure_directory_found :
  forall depth p s d s',
    _ensure_directory depth repo p s = (Ok d, s') ->
    rows_for repo p s' = [d].
Proof.
  induction depth as [|depth IH]; intros p s d s' H; [discriminate|].
  rewrite ensure_directory_step in H.
  destruct (scalar_one_or_none (rows_for repo p s)) as [[d0|]|e] eqn:Hrows;
    [| |discriminate].
  - injection H as <- <-. now apply scalar_one_or_none_some.
  - apply scalar_one_or_none_none in Hrows.
    destruct p as [|c p'].
    + change (negb (truthy (Some ""))) with true in H. cbv iota in H.
      unfold add_directory in H. injection H as <- <-.
      unfold rows_for in *. cbn [directories]. rewrite filter_app, Hrows.
      cbn [filter dir_repository_id dir_path].
      now rewrite Nat.eqb_refl.
    + change (negb (truthy (Some (String c p')))) with false in H. cbv iota in H.
      set (p := String c p') in *.
      destruct (_ensure_directory depth repo (dirname p) s) as [[parent|e] s1] eqn:E;
        [|discriminate].
      destruct (ensure_directory_frame _ _ _ _ _ E) as (added & Hd & _ & _ & _ & _ & Hall).
      unfold add_directory in H. injection H as <- <-.
      assert (Hshort : String.length (dirname p) < String.length p).
      { pose proof (dirname_length p) as Hle.
        destruct (Nat.eq_dec (String.length (dirname p)) (String.length p)) as [Heq|Hne];
          [|lia].
        apply dirname_fixed in Heq.
        destruct (ensure_directory_stuck p s Heq ltac:(discriminate) Hrows depth) as [e He].
        rewrite Heq in E. congruence. }
      unfold rows_for at 1. cbn [directories]. rewrite filter_app.
      cbn [filter dir_repository_id dir_path].
      rewrite Nat.eqb_refl, String.eqb_refl. cbn [andb].
      change (filter _ (directories s1)) with (rows_for repo p s1).
      rewrite (rows_for_app p s s1 added Hd), Hrows.
      now rewrite (filter_longer_paths p (dirname p) added Hshort Hall).
Qed.

Lemma unique_after_add p s s' row :
  unique_paths repo s -> rows_for repo p s = [] ->
  dir_path row = p ->
  directories s' = (directories s ++ [row])%list ->
  unique_paths repo s'.
Proof.
  intros Hu Hrows Hpath Hd q.
  rewrite (rows_for_app q s s' [row] Hd), length_app.
  cbn [filter]. rewrite Hpath.
  destruct (String.eqb p q) eqn:E.
  - apply String.eqb_eq in E. subst q. rewrite Hrows.
    destruct (Nat.eqb (dir_repository_id row) (repo_id repo)); simpl; lia.
  - rewrite andb_false_r. simpl. pose proof (Hu q). lia.
Qed.

(** With no path stored twice, a relative path is ensured within as many
    nested calls as it has characters, plus one. *)
Lemma ensure_directory_returns :
  forall depth p s,
    unique_paths repo s -> relative p -> String.length p < depth ->
    exists d s',
      _ensure_directory depth repo p s = (Ok d, s') /\ unique_paths repo s'.
Proof.
  induction depth as [|depth IH]; intros p s Hu Hrel Hlen; [lia|].
  rewrite ensure_directory_step.
  destruct (scalar_one_or_none (rows_for repo p s)) as [[d0|]|e] eqn:Hrows.
  - exists d0, s. auto.
  - apply scalar_one_or_none_none in Hrows.
    destruct p as [|c p'].
    + change (negb (truthy (Some ""))) with true. cbv iota.
      unfold add_directory. do 2 eexists. split; [reflexivity|].
      eapply (unique_after_add "" s _
                (mkDirectory (next_id s) (repo_id repo) None "" (repo_name repo) None));
        [exact Hu | exact Hrows | reflexivity | reflexivity].
    + change (negb (truthy (Some (String c p')))) with false. cbv iota.
      set (p := String c p') in *.
      assert (Hshort : String.length (dirname p) < String.length p)
        by (apply dirname_shorter; [exact Hrel | discriminate]).
      destruct (IH (dirname p) s Hu (dirname_relative p Hrel) ltac:(lia))
        as (parent & s1 & E & Hu1).
      rewrite E. unfold add_directory. do 2 eexists. split; [reflexivity|].
      destruct (ensure_directory_frame _ _ _ _ _ E) as (added & Hd & _ & _ & _ & _ & Hall).
      assert (Hrows1 : rows_for repo p s1 = []).
      { rewrite (rows_for_app p s s1 added Hd), Hrows.
        now rewrite (filter_longer_paths p (dirname p) added Hshort Hall). }
      eapply (unique_after_add p s1 _
                (mkDirectory (next_id s1) (repo_id repo) (Some (dir_id parent)) p
                             (basename p) None));
        [exact Hu1 | exact Hrows1 | reflexivity | reflexivity].
  - exfalso. pose proof (Hu p) as Hle.
    destruct (rows_for repo p s) as [|a [|b rows]]; simpl in *; try discriminate; lia.
Qed.

End EnsureDirectory.

(** C9. [_ensure_directory] is idempotent: when a call returns a
    directory, a second call with the same arguments returns that same
    row and leaves the session as it is, and the look-up of the path finds
    exactly that row, so none is duplicated. It does return, for a relative
    path and a session that stores no path twice, when the interpreter
    allows as many nested calls as the path has characters, plus one. The
    empty path returns the root row if there is one and otherwise creates
    it, without parent and named after the repository. A non-empty path
    that is not stored first ensures its parent path [dirname] and then
    creates the row as the child of the returned parent, named [basename];
    an exception of the parent call is passed on. *)
Theorem ensure_directory_spec :
  forall repo : Models.Repository,
    (forall depth p s d s',
        Tasks._ensure_directory depth repo p s = (Ok d, s') ->
        PipelineSpec.rows_for repo p s' = [d] /\
        forall depth',
          Tasks._ensure_directory (S depth') repo p s' = (Ok d, s')) /\
    (forall depth p s,
        PipelineSpec.unique_paths repo s -> PipelineSpec.relative p ->
        String.length p < depth ->
        exists d s',
          Tasks._ensure_directory depth repo p s = (Ok d, s') /\
          PipelineSpec.unique_paths repo s') /\
    (forall depth s d,
        PipelineSpec.rows_for repo "" s = [d] ->
        Tasks._ensure_directory (S depth) repo "" s = (Ok d, s)) /\
    (forall depth s,
        PipelineSpec.rows_for repo "" s = [] ->
        let root := Models.mkDirectory (Tasks.next_id s) (Models.repo_id repo) None ""
                                       (Models.repo_name repo) None in
        Tasks._ensure_directory (S depth) repo "" s =
        (Ok root,
         Tasks.mkSession (Tasks.directories s ++ [root])%list (Tasks.files s)
                         (Tasks.code_units s) (S (Tasks.next_id s))
                         (Tasks.llm_calls s))) /\
    (forall depth p s,
        p <> "" -> PipelineSpec.rows_for repo p s = [] ->
        Tasks._ensure_directory (S depth) repo p s =
        match Tasks._ensure_directory depth repo (Py.dirname p) s with
        | (Ok parent, s1) =>
            let child := Models.mkDirectory (Tasks.next_id s1) (Models.repo_id repo)
                                            (Some (Models.dir_id parent)) p
                                            (Py.basename p) None in
            (Ok child,
             Tasks.mkSession (Tasks.directories s1 ++ [child])%list (Tasks.files s1)
                             (Tasks.code_units s1) (S (Tasks.next_id s1))
                             (Tasks.llm_calls s1))
        | (Raise e, s1) => (Raise e, s1)
        end).
Proof.
  intros repo. split; [|split; [|split; [|split]]].
  - intros depth p s d s' H.
    pose proof (ensure_directory_found repo depth p s d s' H) as Hrows.
    split; [exact Hrows|].
    intros depth'. rewrite ensure_directory_step, Hrows. reflexivity.
  - apply ensure_directory_returns.
  - intros depth s d Hrows. rewrite ensure_directory_step, Hrows. reflexivity.
  - intros depth s Hrows. rewrite ensure_directory_step, Hrows. reflexivity.
  - intros depth p s Hne Hrows. rewrite ensure_directory_step, Hrows.
    destruct p as [|c p']; [congruence|]. simpl Models.scalar_one_or_none. cbv iota.
    change (negb (Py.truthy (Some (String c p')))) with false. cbv iota.
    destruct (Tasks._ensure_directory depth repo (Py.dirname (String c p')) s)
      as [[parent|e] s1]; reflexivity.
Qed.

(** Witness of [ensure_directory_spec]: ensuring [src/app] in an empty
    session creates the root, [src] and [src/app]; ensuring it again
    returns the same row and changes nothing. *)
Lemma ensure_directory_spec_witness :
  exists d s',
    Tasks._ensure_directory 50 Samples.demo_repo "src/app" Samples.empty_session
      = (Ok d, s') /\
    Tasks._ensure_directory 1 Samples.demo_repo "src/app" s' = (Ok d, s').
Proof.
  destruct (proj1 (proj2 (ensure_directory_spec Samples.demo_repo))
              50 "src/app" Samples.empty_session)
    as (d & s' & H & _).
  - intros path. simpl. lia.
  - reflexivity.
  - simpl. lia.
  - exists d, s'. split; [exact H|].
    apply (proj1 (ensure_directory_spec Samples.demo_repo) 50 "src/app"
                 Samples.empty_session d s' H).
Defined.

(* ===================================================================== *)
(** * Properties of file processing *)
(* ===================================================================== *)

Section FileProcessing.
Import Py Models ParserService Tasks PipelineSpec Samples.

Variable w : World.

(** [_process_file] after the directory is ensured and the content is
    read. *)
Lemma process_file_after_read depth repo path s directory s1 content :
  _ensure_directory depth repo (dirname path) s = (Ok directory, s1) ->
  read_text w (path_join (get_repo_path w (repo_owner repo) (repo_name repo)) path)
    = Some content ->
  _process_file w depth repo path s =
  match scalar_one_or_none (file_rows directory path s1) with
  | Raise e => (Raise e, s1)
  | Ok existing_file =>
      if is_unchanged existing_file (sha256_hexdigest w content) then (Ok tt, s1)
      else
        match parse_file (parse w) path content with
        | None => (Ok tt, s1)
        | Some pr =>
            match prepare_file_record directory path (sha256_hexdigest w content)
                                      pr existing_file s1 with
            | (Raise e, s2) => (Raise e, s2)
            | (Ok file_record, s2) =>
                let '(summaries, s3) :=
                  create_code_units w file_record (ParserService.language pr)
                                    (ParserService.code_units pr) s2 in
                match summaries with
                | [] => (Ok tt, s3)
                | _ :: _ =>
                    match call_llm w (summarize_file path summaries
                                        (ParserService.language pr)) s3 with
                    | (Ok summary, s4) =>
                        update_file (set_file_summary file_record summary) s4
                    | (Raise e, s4) => (Raise e, s4)
                    end
                end
            end
        end
  end.
Proof.
  intros Hdir Hread.
  unfold _process_file, bind at 1. rewrite Hdir.
  unfold get_file_hash, get_file_content. rewrite Hread.
  unfold bind at 1. unfold lift at 1.
  unfold bind at 1. unfold lift at 1.
  unfold bind at 1. unfold select_files at 1.
  unfold bind at 1. unfold lift at 1.
  fold (file_rows directory path s1).
  destruct (scalar_one_or_none (file_rows directory path s1)) as [existing|e];
    [|reflexivity].
  destruct (is_unchanged existing (sha256_hexdigest w content)); [reflexivity|].
  destruct (parse_file (parse w) path content) as [pr|]; [|reflexivity].
  unfold bind at 1.
  fold (prepare_file_record directory path (sha256_hexdigest w content) pr existing).
  destruct (prepare_file_record directory path (sha256_hexdigest w content) pr existing s1)
    as [[file_record|e] s2]; [|reflexivity].
  unfold bind at 1.
  destruct (create_code_units w file_record (ParserService.language pr)
              (ParserService.code_units pr) s2) as [summaries s3].
  destruct summaries as [|x xs]; [reflexivity|].
  unfold bind. reflexivity.
Qed.

(** C3. When the look-up finds the file's record and its stored hash is
    the hash of the content just read, [_process_file] returns at once:
    the [files] and [code_units] tables are as before and no request was
    sent to the language model; when the file's directory row exists, the
    whole session is unchanged, and so it is after the loop iteration of
    [analyze_repository] for that file, whatever the job and its type. *)
Theorem unchanged_file_is_skipped :
  (forall depth repo path s directory s1 content f,
      _ensure_directory depth repo (dirname path) s = (Ok directory, s1) ->
      read_text w (path_join (get_repo_path w (repo_owner repo) (repo_name repo)) path)
        = Some content ->
      file_rows directory path s = [f] ->
      file_content_hash f = Some (sha256_hexdigest w content) ->
      _process_file w depth repo path s = (Ok tt, s1) /\
      files s1 = files s /\ code_units s1 = code_units s /\
      llm_calls s1 = llm_calls s) /\
  (forall depth repo path s directory content f,
      rows_for repo (dirname path) s = [directory] ->
      read_text w (path_join (get_repo_path w (repo_owner repo) (repo_name repo)) path)
        = Some content ->
      file_rows directory path s = [f] ->
      file_content_hash f = Some (sha256_hexdigest w content) ->
      _process_file w (S depth) repo path s = (Ok tt, s)) /\
  (forall depth selected i r path directory content f,
      rows_for (run_repo r) (dirname path) (run_session r) = [directory] ->
      read_text w (path_join (get_repo_path w (repo_owner (run_repo r))
                                               (repo_name (run_repo r))) path)
        = Some content ->
      file_rows directory path (run_session r) = [f] ->
      file_content_hash f = Some (sha256_hexdigest w content) ->
      run_session (process_files w (S depth) selected i [path] r) = run_session r).
Proof.
  assert (main : forall depth repo path s directory s1 content f,
             _ensure_directory depth repo (dirname path) s = (Ok directory, s1) ->
             read_text w (path_join (get_repo_path w (repo_owner repo) (repo_name repo)) path)
               = Some content ->
             file_rows directory path s = [f] ->
             file_content_hash f = Some (sha256_hexdigest w content) ->
             _process_file w depth repo path s = (Ok tt, s1) /\
             files s1 = files s /\ code_units s1 = code_units s /\
             llm_calls s1 = llm_calls s).
  { intros depth repo path s directory s1 content f Hdir Hread Hrows Hhash.
    destruct (ensure_directory_frame repo _ _ _ _ _ Hdir)
      as (added & _ & Hf & Hc & Hl & _).
    rewrite (process_file_after_read depth repo path s directory s1 content Hdir Hread).
    unfold file_rows in *. rewrite Hf, Hrows. simpl scalar_one_or_none. cbv iota.
    unfold is_unchanged. rewrite Hhash. simpl. rewrite String.eqb_refl.
    auto. }
  assert (noop : forall depth repo path s directory content f,
             rows_for repo (dirname path) s = [directory] ->
             read_text w (path_join (get_repo_path w (repo_owner repo) (repo_name repo)) path)
               = Some content ->
             file_rows directory path s = [f] ->
             file_content_hash f = Some (sha256_hexdigest w content) ->
             _process_file w (S depth) repo path s = (Ok tt, s)).
  { intros depth repo path s directory content f Hdir Hread Hrows Hhash.
    assert (Hens : _ensure_directory (S depth) repo (dirname path) s = (Ok directory, s))
      by (rewrite ensure_directory_step, Hdir; reflexivity).
    apply (main (S depth) repo path s directory s content f Hens Hread Hrows Hhash). }
  split; [exact main|]. split; [exact noop|].
  intros depth selected i r path directory content f Hdir Hread Hrows Hhash.
  cbn [process_files].
  rewrite (noop depth (run_repo r) path (run_session r) directory content f
                Hdir Hread Hrows Hhash).
  reflexivity.
Qed.

End FileProcessing.

(** Witness of [unchanged_file_is_skipped]: [m.py] is stored with the
    digest of its content; processing it changes nothing. *)
Lemma unchanged_file_is_skipped_witness :
  Tasks._process_file Samples.flaky_world 1 Samples.demo_repo "m.py"
                      Samples.analysed_session
  = (Ok tt, Samples.analysed_session).
Proof.
  apply (proj1 (proj2 (unchanged_file_is_skipped Samples.flaky_world)) 0 Samples.demo_repo
               "m.py" Samples.analysed_session
               (Models.mkDirectory 100 1 None "" "demo" None) "x = 1"
               Samples.stored_file);
    reflexivity.
Defined.

Section Descriptions.
Import Py Models ParserService Tasks PipelineSpec Samples.

Variable w : World.

(** Induction over a unit, with the hypothesis for every child. *)
Lemma CodeUnitInfo_forall_ind (P : CodeUnitInfo -> Prop) :
  (forall ty nm sl el sg src chs md,
      Forall P chs -> P (mkCodeUnitInfo ty nm sl el sg src chs md)) ->
  forall u, P u.
Proof.
  intro step.
  fix IH 1.
  intros [ty nm sl el sg src chs md].
  apply step.
  induction chs as [|c chs IHchs]; constructor.
  - apply IH.
  - exact IHchs.
Qed.

(** The row [_create_code_unit] returns, and the session in which the
    children are then processed. *)
Lemma create_code_unit_row file_record language parent_id u s :
  let description :=
    match llm w (llm_calls s) (unit_request language u) with
    | Ok d => d
    | Raise _ => None
    end in
  let row := mkCodeUnit (next_id s) (file_id file_record) parent_id (type u) (name u)
                        (start_line u) (end_line u) (Some (signature u))
                        description (metadata u) in
  _create_code_unit w file_record language parent_id u s =
  (row,
   fold_left
     (fun acc child_info =>
        snd (_create_code_unit w file_record language (Some (cu_id row)) child_info acc))
     (children u)
     (mkSession (directories s) (files s) (code_units s ++ [row])%list
                (S (next_id s)) (llm_calls s ++ [unit_request language u])%list)).
Proof. destruct u; reflexivity. Qed.

(** [_create_code_unit] only appends: rows to [code_units] and requests
    to the log. *)
Lemma create_code_unit_appends file_record language :
  forall u parent_id s,
  exists more calls,
    code_units (snd (_create_code_unit w file_record language parent_id u s)) =
      (code_units s ++ fst (_create_code_unit w file_record language parent_id u s)
                   :: more)%list /\
    llm_calls (snd (_create_code_unit w file_record language parent_id u s)) =
      (llm_calls s ++ unit_request language u :: calls)%list /\
    files (snd (_create_code_unit w file_record language parent_id u s)) = files s /\
    directories (snd (_create_code_unit w file_record language parent_id u s)) =
      directories s.
Proof.
  induction u as [ty nm sl el sg src chs md IH] using CodeUnitInfo_forall_ind.
  intros parent_id s.
  assert (Hfold : forall pid s0,
             exists more calls,
               code_units (fold_left
                 (fun acc child_info =>
                    snd (_create_code_unit w file_record language pid child_info acc))
                 chs s0) = (code_units s0 ++ more)%list /\
               llm_calls (fold_left
                 (fun acc child_info =>
                    snd (_create_code_unit w file_record language pid child_info acc))
                 chs s0) = (llm_calls s0 ++ calls)%list /\
               files (fold_left
                 (fun acc child_info =>
                    snd (_create_code_unit w file_record language pid child_info acc))
                 chs s0) = files s0 /\
               directories (fold_left
                 (fun acc child_info =>
                    snd (_create_code_unit w file_record language pid child_info acc))
                 chs s0) = directories s0).
  { intros pid. induction chs as [|c chs IHchs]; intros s0.
    - exists [], []. simpl. rewrite !app_nil_r. auto.
    - inversion IH as [|? ? Hc Hrest]; subst.
      destruct (Hc pid s0) as (m1 & c1 & H1 & H2 & H3 & H4).
      destruct (IHchs Hrest
                  (snd (_create_code_unit w file_record language pid c s0)))
        as (m2 & c2 & G1 & G2 & G3 & G4).
      simpl fold_left. rewrite G1, G2, G3, G4, H1, H2, H3, H4.
      eexists. eexists. rewrite <- !app_assoc. simpl. auto. }
  rewrite create_code_unit_row. cbn [fst snd children].
  match goal with
  | |- context [fold_left (fun acc child_info =>
                  snd (_create_code_unit w file_record language ?pid child_info acc))
                  chs ?s1] =>
      destruct (Hfold pid s1) as (more & calls & H1 & H2 & H3 & H4)
  end.
  rewrite H1, H2, H3, H4. cbn [code_units llm_calls files directories].
  exists more, calls. rewrite <- !app_assoc. simpl. auto.
Qed.

Lemma create_code_units_cons file_record language u rest s :
  create_code_units w file_record language (u :: rest) s =
  let '(code_unit, s1) := _create_code_unit w file_record language None u s in
  let '(summaries, s2) := create_code_units w file_record language rest s1 in
  ((summary_entries [code_unit] ++ summaries)%list, s2).
Proof.
  simpl create_code_units.
  destruct (_create_code_unit w file_record language None u s) as [cu s1].
  destruct (create_code_units w file_record language rest s1) as [sums s2].
  unfold summary_entries. simpl.
  destruct (cu_description cu) as [[|c d]|]; reflexivity.
Qed.





End Descriptions.



(* ===================================================================== *)
(** * Properties of the progress arithmetic *)
(* ===================================================================== *)

Section FloatFacts.
Import PyFloat.
Local Open Scope Z_scope.

Lemma pow2_pos (x : Z) : 0 <= x -> 0 < 2 ^ x.
Proof. intros. apply Z.pow_pos_nonneg; lia. Qed.

Lemma pow2_split (x y : Z) : 0 <= x -> 0 <= y -> 2 ^ (x + y) = 2 ^ x * 2 ^ y.
Proof. intros. apply Z.pow_add_r; assumption. Qed.

Lemma pow2_lt_inv (x y : Z) : 0 <= x -> 0 <= y -> 2 ^ x < 2 ^ y -> x < y.
Proof. intros Hx Hy H. apply (Z.pow_lt_mono_r_iff 2); lia. Qed.

Lemma scale_le (x y k : Z) : 0 < k -> x <= y -> x * k <= y * k.
Proof. intros. apply Z.mul_le_mono_nonneg_r; lia. Qed.

Lemma scale_lt (x y k : Z) : 0 < k -> x < y -> x * k < y * k.
Proof. intros. apply Z.mul_lt_mono_pos_r; lia. Qed.

(** The exponent found by [ilog2_ratio] brackets the quotient: scaled by
    [2^(52 - E)] it lies in [[2^52, 2^53)]. *)
Lemma ilog2_ratio_spec (p q : Z) :
  0 < p -> 0 < q -> p < 2 ^ 52 * q ->
  ilog2_ratio p q < 52 /\
  2 ^ 52 * q <= p * 2 ^ (52 - ilog2_ratio p q) < 2 * 2 ^ 52 * q.
Proof.
  intros Hp Hq Hsmall.
  destruct (Z.log2_spec p Hp) as [Hp1 Hp2].
  destruct (Z.log2_spec q Hq) as [Hq1 Hq2].
  pose proof (Z.log2_nonneg p) as Hf. pose proof (Z.log2_nonneg q) as Hg.
  set (f := Z.log2 p) in *. set (g := Z.log2 q) in *.
  replace (Z.succ f) with (f + 1) in Hp2 by lia.
  replace (Z.succ g) with (g + 1) in Hq2 by lia.
  rewrite pow2_split in Hp2, Hq2 by lia. change (2 ^ 1) with 2 in *.
  pose proof (pow2_pos 52 ltac:(lia)) as Hc.
  assert (Hd : f - g <= 52).
  { assert (H : 2 ^ f < 2 ^ (g + 53)).
    { rewrite pow2_split by lia. change (2 ^ 53) with (2 ^ 52 * 2). nia. }
    apply pow2_lt_inv in H; lia. }
  unfold ilog2_ratio, scaled. fold f g.
  destruct (0 <=? f - g) eqn:Hsign.
  - apply Z.leb_le in Hsign.
    assert (Hfg : 2 ^ f = 2 ^ g * 2 ^ (f - g))
      by (rewrite <- pow2_split by lia; f_equal; lia).
    pose proof (pow2_pos (f - g) Hsign) as Hpd.
    destruct (q * 2 ^ (f - g) <=? p) eqn:Hcmp.
    + apply Z.leb_le in Hcmp.
      assert (Hlt : f - g < 52).
      { destruct (Z.eq_dec (f - g) 52) as [E|E]; [|lia]. rewrite E in Hcmp. lia. }
      split; [exact Hlt|].
      assert (H52 : 2 ^ 52 = 2 ^ (f - g) * 2 ^ (52 - (f - g)))
        by (rewrite <- pow2_split by lia; f_equal; lia).
      pose proof (pow2_pos (52 - (f - g)) ltac:(lia)) as Hps.
      rewrite H52. clear H52 Hsmall Hc.
      set (A := 2 ^ (f - g)) in *. set (S := 2 ^ (52 - (f - g))) in *.
      assert (Hup : p < 2 * (q * A)) by nia.
      split.
      * replace (A * S * q) with (q * A * S) by ring. now apply scale_le.
      * replace (2 * (A * S) * q) with (2 * (q * A) * S) by ring. now apply scale_lt.
    + apply Z.leb_gt in Hcmp.
      split; [lia|].
      replace (52 - (f - g - 1)) with (53 - (f - g)) by lia.
      assert (H53 : 2 * 2 ^ 52 = 2 ^ (f - g) * 2 ^ (53 - (f - g))).
      { change (2 * 2 ^ 52) with (2 ^ 53).
        rewrite <- pow2_split by lia; f_equal; lia. }
      pose proof (pow2_pos (53 - (f - g)) ltac:(lia)) as Hps.
      set (A := 2 ^ (f - g)) in *. set (S := 2 ^ (53 - (f - g))) in *.
      assert (Hlo : q * A <= 2 * p) by nia.
      split.
      * apply (Z.mul_le_mono_pos_l _ _ 2); [lia|].
        replace (2 * (2 ^ 52 * q)) with (2 * 2 ^ 52 * q) by ring. rewrite H53.
        replace (A * S * q) with (q * A * S) by ring.
        replace (2 * (p * S)) with (2 * p * S) by ring. now apply scale_le.
      * rewrite H53. replace (A * S * q) with (q * A * S) by ring. now apply scale_lt.
  - apply Z.leb_gt in Hsign.
    assert (Hgf : 2 ^ g = 2 ^ f * 2 ^ (- (f - g)))
      by (rewrite <- pow2_split by lia; f_equal; lia).
    pose proof (pow2_pos (- (f - g)) ltac:(lia)) as Hpd.
    set (B := 2 ^ (- (f - g))) in *.
    destruct (q <=? p * B) eqn:Hcmp.
    + apply Z.leb_le in Hcmp.
      split; [lia|].
      replace (52 - (f - g)) with (- (f - g) + 52) by lia.
      rewrite pow2_split by lia. fold B.
      assert (Hup : p * B < 2 * q) by nia.
      split.
      * replace (2 ^ 52 * q) with (q * 2 ^ 52) by ring.
        replace (p * (B * 2 ^ 52)) with (p * B * 2 ^ 52) by ring. now apply scale_le.
      * replace (2 * 2 ^ 52 * q) with (2 * q * 2 ^ 52) by ring.
        replace (p * (B * 2 ^ 52)) with (p * B * 2 ^ 52) by ring. now apply scale_lt.
    + apply Z.leb_gt in Hcmp.
      split; [lia|].
      replace (52 - (f - g - 1)) with (- (f - g) + 53) by lia.
      rewrite pow2_split by lia. fold B.
      change (2 ^ 53) with (2 * 2 ^ 52).
      assert (Hlo : q <= 2 * (p * B)) by nia.
      split.
      * replace (2 ^ 52 * q) with (q * 2 ^ 52) by ring.
        replace (p * (B * (2 * 2 ^ 52))) with (2 * (p * B) * 2 ^ 52) by ring.
        now apply scale_le.
      * replace (2 * 2 ^ 52 * q) with (q * (2 * 2 ^ 52)) by ring.
        replace (p * (B * (2 * 2 ^ 52))) with (p * B * (2 * 2 ^ 52)) by ring.
        apply scale_lt; lia.
Qed.


(** [round_half_even] is within one half of the quotient. *)
Lemma round_half_even_spec (N D : Z) :
  0 <= N -> 0 < D ->
  - D <= 2 * (round_half_even N D * D - N) <= D.
Proof.
  intros HN HD. unfold round_half_even.
  pose proof (Z.div_mod N D ltac:(lia)) as Hdm.
  pose proof (Z.mod_pos_bound N D HD) as Hr.
  set (m := N / D) in *. set (r := N mod D) in *.
  destruct (2 * r <? D) eqn:E1; [apply Z.ltb_lt in E1; nia|].
  apply Z.ltb_ge in E1.
  destruct (D <? 2 * r) eqn:E2; [apply Z.ltb_lt in E2; nia|].
  apply Z.ltb_ge in E2.
  destruct (Z.even m); nia.
Qed.

Lemma div_cross (N D N' D' : Z) :
  0 <= N -> 0 < D -> 0 <= N' -> 0 < D' -> N * D' = N' * D ->
  N / D = N' / D'.
Proof.
  intros HN HD HN' HD' Hx.
  pose proof (Z.div_mod N D ltac:(lia)) as Hdm.
  pose proof (Z.mod_pos_bound N D HD) as Hr.
  set (m := N / D) in *. set (r := N mod D) in *.
  apply (Z.div_unique_pos N' D' m (N' - m * D')); [|lia].
  assert (H1 : (m * D' - N') * D = (m * D - N) * D') by (rewrite Hdm; nia).
  assert (H2 : ((m + 1) * D' - N') * D = ((m + 1) * D - N) * D') by (rewrite Hdm; nia).
  split; nia.
Qed.

Lemma round_half_even_cross (N D N' D' : Z) :
  0 <= N -> 0 < D -> 0 <= N' -> 0 < D' -> N * D' = N' * D ->
  round_half_even N D = round_half_even N' D'.
Proof.
  intros HN HD HN' HD' Hx. unfold round_half_even.
  rewrite <- (div_cross N D N' D' HN HD HN' HD' Hx).
  pose proof (Z.div_mod N D ltac:(lia)) as Hdm.
  pose proof (Z.div_mod N' D' ltac:(lia)) as Hdm'.
  rewrite <- (div_cross N D N' D' HN HD HN' HD' Hx) in Hdm'.
  pose proof (Z.mod_pos_bound N D HD) as Hr.
  pose proof (Z.mod_pos_bound N' D' HD') as Hr'.
  set (m := N / D) in *. set (r := N mod D) in *. set (r' := N' mod D') in *.
  assert (Hrr : r * D' = r' * D) by nia.
  assert (H1 : (2 * r <? D) = (2 * r' <? D')).
  { destruct (2 * r <? D) eqn:A, (2 * r' <? D') eqn:B; auto;
      rewrite ?Z.ltb_lt, ?Z.ltb_ge in *; nia. }
  assert (H2 : (D <? 2 * r) = (D' <? 2 * r')).
  { destruct (D <? 2 * r) eqn:A, (D' <? 2 * r') eqn:B; auto;
      rewrite ?Z.ltb_lt, ?Z.ltb_ge in *; nia. }
  now rewrite H1, H2.
Qed.

(** The rounded quotient, for a quotient below [2^52]: the exponent is
    negative, the scaled quotient lies in [[2^52, 2^53)] and the mantissa
    is within one half of it. *)
Lemma round_ratio_spec (p q : Z) :
  0 < p -> 0 < q -> p < 2 ^ 52 * q ->
  exists m s,
    round_ratio p q = (m, - s) /\ 1 <= s /\
    2 ^ 52 * q <= p * 2 ^ s < 2 * 2 ^ 52 * q /\
    - q <= 2 * (m * q - p * 2 ^ s) <= q.
Proof.
  intros Hp Hq Hsmall.
  destruct (ilog2_ratio_spec p q Hp Hq Hsmall) as [HE Hbin].
  unfold round_ratio.
  destruct (p =? 0) eqn:E0; [apply Z.eqb_eq in E0; lia|].
  unfold scaled.
  destruct (0 <=? ilog2_ratio p q - 52) eqn:Es; [apply Z.leb_le in Es; lia|].
  replace (- (ilog2_ratio p q - 52)) with (52 - ilog2_ratio p q) by lia.
  set (s := 52 - ilog2_ratio p q) in *.
  exists (round_half_even (p * 2 ^ s) q), s.
  split; [f_equal; lia|].
  split; [lia|]. split; [exact Hbin|].
  apply round_half_even_spec; [|lia].
  pose proof (pow2_pos s ltac:(lia)). nia.
Qed.

(** Two fractions with the same value round alike. *)
Lemma round_ratio_cross (p q p' q' : Z) :
  0 < p -> 0 < q -> 0 < p' -> 0 < q' -> p * q' = p' * q ->
  p < 2 ^ 52 * q ->
  round_ratio p q = round_ratio p' q'.
Proof.
  intros Hp Hq Hp' Hq' Hx Hsmall.
  assert (Hsmall' : p' < 2 ^ 52 * q').
  { pose proof (pow2_pos 52 ltac:(lia)) as Hc.
    generalize dependent (2 ^ 52). intros. nia. }
  destruct (ilog2_ratio_spec p q Hp Hq Hsmall) as [HE Hbin].
  destruct (ilog2_ratio_spec p' q' Hp' Hq' Hsmall') as [HE' Hbin'].
  assert (Heq : ilog2_ratio p q = ilog2_ratio p' q').
  { set (s := 52 - ilog2_ratio p q) in *. set (s' := 52 - ilog2_ratio p' q') in *.
    assert (Hss : s = s'); [|lia].
    pose proof (pow2_pos 52 ltac:(lia)) as Hc.
    pose proof (pow2_pos s ltac:(lia)) as Hs. pose proof (pow2_pos s' ltac:(lia)) as Hs'.
    assert (Hlt1 : 2 ^ s < 2 * 2 ^ s').
    { assert (p * q' * 2 ^ s < 2 * (p * q') * 2 ^ s'); [|nia].
      rewrite Hx at 2.
      generalize dependent (2 ^ s). generalize dependent (2 ^ s').
      generalize dependent (2 ^ 52). intros. nia. }
    assert (Hlt2 : 2 ^ s' < 2 * 2 ^ s).
    { assert (p' * q * 2 ^ s' < 2 * (p' * q) * 2 ^ s); [|nia].
      rewrite <- Hx at 2.
      generalize dependent (2 ^ s). generalize dependent (2 ^ s').
      generalize dependent (2 ^ 52). intros. nia. }
    change (2 * 2 ^ s') with (2 ^ 1 * 2 ^ s') in Hlt1.
    change (2 * 2 ^ s) with (2 ^ 1 * 2 ^ s) in Hlt2.
    rewrite <- pow2_split in Hlt1, Hlt2 by lia.
    apply pow2_lt_inv in Hlt1; [|lia|lia]. apply pow2_lt_inv in Hlt2; [|lia|lia].
    lia. }
  unfold round_ratio.
  destruct (p =? 0) eqn:E0; [apply Z.eqb_eq in E0; lia|].
  destruct (p' =? 0) eqn:E0'; [apply Z.eqb_eq in E0'; lia|].
  rewrite <- Heq. unfold scaled.
  destruct (0 <=? ilog2_ratio p q - 52) eqn:Es; [apply Z.leb_le in Es; lia|].
  f_equal.
  pose proof (pow2_pos (- (ilog2_ratio p q - 52)) ltac:(lia)) as Hs.
  apply round_half_even_cross; try nia.
Qed.

(** Multiples of [1/80] survive the division and the multiplication. *)
Lemma eightieths_exact (k : Z) :
  1 <= k <= 80 -> to_int (mul_int (round_ratio k 80) 80) = k.
Proof.
  intros Hk.
  assert (Hall : forallb (fun i => to_int (mul_int (round_ratio (Z.of_nat i) 80) 80)
                                   =? Z.of_nat i) (seq 1 80) = true)
    by (vm_compute; reflexivity).
  rewrite forallb_forall in Hall.
  specialize (Hall (Z.to_nat k)).
  rewrite Z2Nat.id in Hall by lia.
  apply Z.eqb_eq. apply Hall. apply in_seq. lia.
Qed.

(** The progress of the per-file phase: for at most [2^40] files the
    floating-point computation yields the exact integer quotient. *)
Lemma progress_formula (a n : Z) :
  1 <= a <= n -> n < 2 ^ 40 ->
  to_int (mul_int (truediv a n) 80) = 80 * a / n.
Proof.
  intros Ha Hn. unfold truediv.
  pose proof (pow2_pos 52 ltac:(lia)) as Hc.
  destruct (Z.eq_dec ((80 * a) mod n) 0) as [Hex|Hnex].
  - (* the quotient is an integer *)
    assert (Hk : 80 * a = n * (80 * a / n)) by (apply Z.div_exact; lia).
    set (k := 80 * a / n) in *.
    assert (Hk1 : 1 <= k <= 80) by nia.
    rewrite (round_ratio_cross a n k 80)
      by (try lia; change (2 ^ 52) with 4503599627370496 in *; nia).
    now apply eightieths_exact.
  - (* the quotient is at least [1/n] away from the integers around it *)
    pose proof (Z.div_mod (80 * a) n ltac:(lia)) as Hdm.
    pose proof (Z.mod_pos_bound (80 * a) n ltac:(lia)) as Hf.
    set (k := 80 * a / n) in *. set (f := (80 * a) mod n) in *.
    destruct (round_ratio_spec a n) as (m1 & s1 & E1 & Hs1 & Hbin1 & Herr1);
      [lia | lia | change (2 ^ 52) with 4503599627370496 in *; nia |].
    rewrite E1. unfold mul_int, scaled.
    replace (0 <=? - - s1) with true by (symmetry; apply Z.leb_le; lia).
    replace (- - s1) with s1 by lia.
    pose proof (pow2_pos s1 ltac:(lia)) as HT1.
    set (T1 := 2 ^ s1) in *.
    assert (HcT1 : 2 ^ 52 <= T1) by (change (2 ^ 52) with 4503599627370496 in *; nia).
    assert (Hm1 : 1 <= m1 <= T1) by (change (2 ^ 52) with 4503599627370496 in *; nia).
    destruct (round_ratio_spec (m1 * 80) (1 * T1)) as (m2 & s2 & E2 & Hs2 & Hbin2 & Herr2);
      [lia | lia | change (2 ^ 52) with 4503599627370496 in *; nia |].
    rewrite E2. unfold to_int.
    replace (0 <=? - s2) with false by (symmetry; apply Z.leb_gt; lia).
    replace (- - s2) with s2 by lia.
    pose proof (pow2_pos s2 ltac:(lia)) as HT2.
    set (T2 := 2 ^ s2) in *.
    assert (HcT2 : 2 ^ 52 <= 80 * T2) by (change (2 ^ 52) with 4503599627370496 in *; nia).
    change (2 ^ 40) with 1099511627776 in Hn.
    change (2 ^ 52) with 4503599627370496 in *.
    clearbody T1 T2 k f. clear E1 E2 Hs1 Hs2 Hc.
    assert (Hn1 : 80 * n < T1) by lia.
    assert (Hn2 : n <= T2) by lia.
    destruct Herr1 as [Herr1a Herr1b]. destruct Herr2 as [Herr2a Herr2b].
    assert (B1 : (2 * a * T1 - n) * (80 * T2) <= (2 * m1 * n) * (80 * T2))
      by (apply scale_le; lia).
    assert (B2 : (2 * m1 * n) * (80 * T2) <= (2 * a * T1 + n) * (80 * T2))
      by (apply scale_le; lia).
    assert (B3 : (160 * m1 * T2 - T1) * n <= (2 * m2 * T1) * n)
      by (apply scale_le; lia).
    assert (B4 : (2 * m2 * T1) * n <= (160 * m1 * T2 + T1) * n)
      by (apply scale_le; lia).
    assert (A1 : (80 * n) * T2 < T1 * T2) by (apply scale_lt; lia).
    assert (A2 : n * T1 <= T2 * T1) by (apply scale_le; lia).
    assert (B6 : 1 * (2 * T1 * T2) <= f * (2 * T1 * T2)) by (apply scale_le; nia).
    assert (B7 : 1 * (2 * T1 * T2) <= (n - f) * (2 * T1 * T2)) by (apply scale_le; nia).
    assert (B5 : 160 * a * T1 * T2 = (n * k + f) * (2 * T1 * T2))
      by (rewrite <- Hdm; ring).
    symmetry. apply (Z.div_unique_pos m2 T2 k (m2 - k * T2)); [|lia].
    assert (Hpos : 0 < 2 * n * T1) by nia.
    assert (Hlo : (2 * n * T1) * (k * T2) <= (2 * n * T1) * m2).
    { replace (2 * n * T1 * (k * T2)) with (n * k * (2 * T1 * T2)) by ring.
      replace (2 * n * T1 * m2) with (2 * m2 * T1 * n) by ring.
      replace ((n * k + f) * (2 * T1 * T2)) with
        (n * k * (2 * T1 * T2) + f * (2 * T1 * T2)) in B5 by ring.
      replace ((2 * a * T1 - n) * (80 * T2)) with
        (160 * a * T1 * T2 - 80 * n * T2) in B1 by ring.
      replace (2 * m1 * n * (80 * T2)) with ((160 * m1 * T2) * n) in B1 by ring.
      replace ((160 * m1 * T2 - T1) * n) with ((160 * m1 * T2) * n - n * T1) in B3 by ring.
      replace (T2 * T1) with (T1 * T2) in A2 by ring.
      replace (1 * (2 * T1 * T2)) with (T1 * T2 + T1 * T2) in B6 by ring.
      lia. }
    assert (Hhi : (2 * n * T1) * m2 < (2 * n * T1) * ((k + 1) * T2)).
    { replace (2 * n * T1 * ((k + 1) * T2)) with
        (n * k * (2 * T1 * T2) + n * (2 * T1 * T2)) by ring.
      replace (2 * n * T1 * m2) with (2 * m2 * T1 * n) by ring.
      replace ((n * k + f) * (2 * T1 * T2)) with
        (n * k * (2 * T1 * T2) + f * (2 * T1 * T2)) in B5 by ring.
      replace ((2 * a * T1 + n) * (80 * T2)) with
        (160 * a * T1 * T2 + 80 * n * T2) in B2 by ring.
      replace (2 * m1 * n * (80 * T2)) with ((160 * m1 * T2) * n) in B2 by ring.
      replace ((160 * m1 * T2 + T1) * n) with ((160 * m1 * T2) * n + n * T1) in B4 by ring.
      replace (T2 * T1) with (T1 * T2) in A2 by ring.
      replace ((n - f) * (2 * T1 * T2)) with
        (n * (2 * T1 * T2) - f * (2 * T1 * T2)) in B7 by ring.
      replace (1 * (2 * T1 * T2)) with (T1 * T2 + T1 * T2) in B7 by ring.
      lia. }
    apply Z.mul_le_mono_pos_l in Hlo; [|exact Hpos].
    apply Z.mul_lt_mono_pos_l in Hhi; [|exact Hpos].
    lia.
Qed.

End FloatFacts.

(* ===================================================================== *)
(** * Properties of the job state machine *)
(* ===================================================================== *)

Section JobHistory.
Import Py Models ParserService Tasks PipelineSpec Samples.

Variable w : World.

(** The commits of the per-file loop. *)
Lemma process_files_commits depth selected :
  forall remaining i r,
    commits (process_files w depth selected i remaining r) =
      (commits r ++
       map (fun k => set_progress (set_processed_files (run_job r) (k + 1))
                                  (file_progress k selected))
           (seq i (length remaining)))%list /\
    run_job (process_files w depth selected i remaining r) =
      match length remaining with
      | O => run_job r
      | S m => set_progress (set_processed_files (run_job r) (i + m + 1))
                            (file_progress (i + m) selected)
      end /\
    run_repo (process_files w depth selected i remaining r) = run_repo r.
Proof.
  induction remaining as [|f rest IH]; intros i r.
  - simpl. rewrite app_nil_r. auto.
  - cbn [process_files].
    destruct (_process_file w depth (run_repo r) f (run_session r)) as [res s'].
    destruct (IH (i + 1) (commit (mkRun s'
                (set_progress (set_processed_files (run_job r) (i + 1))
                              (file_progress i selected)) (run_repo r) (commits r))))
      as (Hc & Hj & Hr).
    rewrite Hc, Hj, Hr. cbn [commit commits run_job run_repo length seq map].
    clear IH Hc Hj Hr.
    split; [|split; [|reflexivity]].
    + rewrite <- app_assoc. cbn [app].
      replace (seq (i + 1) (length rest)) with (seq (S i) (length rest))
        by (f_equal; lia).
      reflexivity.
    + destruct (length rest) as [|m].
      * replace (i + 0) with i by lia. reflexivity.
      * replace (i + S m) with (i + 1 + m) by lia. reflexivity.
Qed.

(** Summarizing the directories does not raise: a failing request is
    caught inside the loop. *)
Lemma for_each_summarize_returns repo :
  forall ds s, fst (for_each (summarize_directory_step w repo) ds s) = Ok tt.
Proof.
  induction ds as [|d ds IH]; intros s; [reflexivity|].
  cbn [for_each]. unfold bind at 1.
  assert (Hstep : exists s', summarize_directory_step w repo d s = (Ok tt, s')).
  { unfold summarize_directory_step, bind, select_files, select_directories, ret.
    destruct (file_items _ ++ dir_items _ _)%list; [eexists; reflexivity|].
    destruct (call_llm w _ s) as [[summary|e] s']; eexists; reflexivity. }
  destruct Hstep as [s' ->]. apply IH.
Qed.

Lemma generate_directory_summaries_returns repo s :
  fst (_generate_directory_summaries w repo s) = Ok tt.
Proof. apply for_each_summarize_returns. Qed.

(** The history of a run, case by case. *)
Lemma run_history depth t0 t1 job repos s :
  (forall e, scalar_one repos = Raise e ->
     job_history (analyze_repository w depth t0 t1 [job] repos s) =
     [failed_job job e t1]) /\
  (forall repo e,
     scalar_one repos = Ok repo ->
     clone_or_pull w (repo_owner repo) (repo_name repo) = Raise e ->
     job_history (analyze_repository w depth t0 t1 [job] repos s) =
     [running_job job t0; failed_job (running_job job t0) e t1]) /\
  (forall repo commit_hash changed,
     scalar_one repos = Ok repo ->
     clone_or_pull w (repo_owner repo) (repo_name repo) = Ok (commit_hash, changed) ->
     let selected := files_to_process w job repo changed in
     exists final,
       (final = completed_job job t0 t1 selected \/
        exists e, final = failed_job (summarized_job job t0 selected) e t1) /\
       job_history (analyze_repository w depth t0 t1 [job] repos s) =
       ([running_job job t0; counted_job job t0 (length selected)] ++
        map (file_snapshot job t0 selected) (seq 0 (length selected)) ++
        [summarized_job job t0 selected; final])%list).
Proof.
  unfold analyze_repository. cbn [scalar_one].
  split; [|split].
  - intros e ->. reflexivity.
  - intros repo e -> Hclone. unfold analyze_body. cbn [run_repo commit].
    rewrite Hclone. reflexivity.
  - intros repo commit_hash changed -> Hclone.
    set (selected := files_to_process w job repo changed).
    unfold analyze_body. cbn [run_repo run_job commit with_job commits run_session].
    rewrite Hclone.
    change (files_to_process w (set_started_at (set_status job "running") (Some t0))
                             repo changed) with selected.
    match goal with
    | |- context [process_files w depth selected 0 selected ?r] => set (r1 := r)
    end.
    destruct (process_files_commits depth selected selected 0 r1) as (Hc & Hj & Hr).
    pose proof (generate_directory_summaries_returns
                  (run_repo (process_files w depth selected 0 selected r1))
                  (run_session (process_files w depth selected 0 selected r1))) as Hd.
    destruct (_generate_directory_summaries w
                (run_repo (process_files w depth selected 0 selected r1))
                (run_session (process_files w depth selected 0 selected r1)))
      as [[u|e] s3]; [|discriminate].
    cbn [commit run_repo run_job run_session commits].
    assert (Hj' : run_job (process_files w depth selected 0 selected r1)
                  = last_file_job job t0 selected).
    { rewrite Hj. unfold last_file_job, file_snapshot. subst r1. cbn [run_job].
      destruct (length selected); reflexivity. }
    assert (Hc' : commits (process_files w depth selected 0 selected r1) =
                  ([running_job job t0; counted_job job t0 (length selected)] ++
                   map (file_snapshot job t0 selected) (seq 0 (length selected)))%list).
    { rewrite Hc. subst r1. reflexivity. }
    rewrite Hj', Hc'.
    destruct (_generate_repository_summary w
                (run_repo (process_files w depth selected 0 selected r1)) s3)
      as [[repo'|e] s4].
    + exists (completed_job job t0 t1 selected). split; [left; reflexivity|].
      cbn [job_history commit commits run_job].
      rewrite <- !app_assoc. reflexivity.
    + exists (failed_job (summarized_job job t0 selected) e t1).
      split; [right; exists e; reflexivity|].
      cbn [job_history fail_job commit with_job commits run_job].
      rewrite <- !app_assoc. reflexivity.
Qed.

End JobHistory.

Section JobProgress.
Import Py Models ParserService Tasks PipelineSpec Samples.
Local Open Scope Z_scope.

Lemma int_ratio_times_80_value (a n : nat) :
  (1 <= a <= n)%nat -> Z.of_nat n < 2 ^ 40 ->
  PyFloat.int_ratio_times_80 a n = 80 * Z.of_nat a / Z.of_nat n.
Proof.
  intros Ha Hn. unfold PyFloat.int_ratio_times_80.
  apply progress_formula; lia.
Qed.

Lemma file_snapshot_progress job t0 selected k :
  (k < length selected)%nat -> Z.of_nat (length selected) < 2 ^ 40 ->
  progress (file_snapshot job t0 selected k) =
  80 * Z.of_nat (k + 1) / Z.of_nat (length selected).
Proof.
  intros Hk Hn. unfold file_snapshot, file_progress. cbn [progress set_progress].
  destruct selected as [|f rest]; [simpl in Hk; lia|].
  apply int_ratio_times_80_value; [lia | exact Hn].
Qed.

Lemma quotient_bounds (k n : nat) :
  (k < n)%nat -> 0 <= 80 * Z.of_nat (k + 1) / Z.of_nat n <= 80.
Proof.
  intros Hk. split.
  - apply Z.div_pos; lia.
  - apply Z.div_le_upper_bound; lia.
Qed.

Lemma quotient_mono (k k' n : nat) :
  (k <= k')%nat -> (0 < n)%nat ->
  80 * Z.of_nat (k + 1) / Z.of_nat n <= 80 * Z.of_nat (k' + 1) / Z.of_nat n.
Proof. intros. apply Z.div_le_mono; lia. Qed.

Lemma strongly_sorted_app {A : Type} (R : A -> A -> Prop) (l1 l2 : list A) :
  StronglySorted R l1 -> StronglySorted R l2 ->
  (forall x y, In x l1 -> In y l2 -> R x y) ->
  StronglySorted R (l1 ++ l2).
Proof.
  induction 1 as [|a l1 Hs IH Ha]; intros H2 Hx; simpl; [exact H2|].
  constructor.
  - apply IH; [exact H2|]. intros x y Hin. apply Hx. now right.
  - apply Forall_app. split; [exact Ha|].
    apply Forall_forall. intros y Hy. apply Hx; [now left | exact Hy].
Qed.

Lemma file_phase_sorted job t0 selected :
  Z.of_nat (length selected) < 2 ^ 40 ->
  forall len a, (a + len <= length selected)%nat ->
    StronglySorted Z.le (map progress (map (file_snapshot job t0 selected) (seq a len))).
Proof.
  intros Hn. induction len as [|len IH]; intros a Ha; cbn [map seq]; [constructor|].
  constructor; [apply IH; lia|].
  apply Forall_forall. intros p Hp.
  apply in_map_iff in Hp. destruct Hp as (x & <- & Hx).
  apply in_map_iff in Hx. destruct Hx as (k & <- & Hk).
  apply in_seq in Hk.
  rewrite !file_snapshot_progress by (try exact Hn; lia).
  apply quotient_mono; lia.
Qed.

(** A list ends with its only terminal entry. *)
Lemma terminal_is_last (init : list AnalysisJob) (final : AnalysisJob) :
  (forall y, In y init -> ~ terminal y) ->
  forall before x after,
    (init ++ [final])%list = (before ++ x :: after)%list -> terminal x -> after = [].
Proof.
  induction init as [|a init IH]; intros Hinit before x after Heq Hx.
  - destruct before as [|b before]; simpl in Heq.
    + now injection Heq as _ <-.
    + injection Heq as _ Heq. destruct before; discriminate.
  - destruct before as [|b before]; simpl in Heq.
    + injection Heq as <- _. exfalso. apply (Hinit a); [now left | exact Hx].
    + injection Heq as _ Heq.
      apply (IH (fun y Hy => Hinit y (or_intror Hy)) before x after Heq Hx).
Qed.


Lemma summarized_job_fields job t0 selected :
  status (summarized_job job t0 selected) = "running" /\
  progress (summarized_job job t0 selected) = 90.
Proof.
  unfold summarized_job, last_file_job. destruct (length selected); split; reflexivity.
Qed.

(** The progress of a run on a pending job. For a job that is still as
    [sync_repository] created it when its run starts, and a run that
    counts fewer than [2^40] files: along the values of the job's row (the
    created job, then the row at every commit of the run) progress never
    decreases; a
    terminal state is only ever the last value, so nothing changes after
    it; once the files are counted progress is [0], after the [k]-th of
    [n] files it is the integer quotient of [80 * k] by [n], and after the
    directory summaries it is [90], the job still running; progress is
    [100] exactly in the state [completed]. *)
Theorem job_progress_spec :
  forall (w : World) (depth t0 t1 id : nat) (repo0 : Repository)
         (repos : list Repository) (s : Session),
    let job := JobsApi.new_job id repo0 in
    let history :=
      job :: job_history (analyze_repository w depth t0 t1 [job] repos s) in
    (forall x n, In x history -> total_files x = Some n -> Z.of_nat n < 2 ^ 40) ->
    StronglySorted Z.le (map progress history) /\
    (forall before x after,
        history = (before ++ x :: after)%list -> terminal x -> after = []) /\
    (forall x n,
        nth_error history 2 = Some x -> total_files x = Some n ->
        length history = (n + 5)%nat /\
        progress x = 0 /\
        (forall k y,
            (k < n)%nat -> nth_error history (3 + k) = Some y ->
            status y = "running" /\ processed_files y = (k + 1)%nat /\
            progress y = 80 * Z.of_nat (k + 1) / Z.of_nat n) /\
        (forall y,
            nth_error history (3 + n) = Some y ->
            status y = "running" /\ progress y = 90)) /\
    (forall x, In x history -> (progress x = 100 <-> status x = "completed")).
Proof.
  intros w depth t0 t1 id repo0 repos s job history Hbound.
  destruct (run_history w depth t0 t1 job repos s) as (H1 & H2 & H3).
  assert (Hjob : progress job = 0 /\ status job = "pending") by (split; reflexivity).
  destruct (scalar_one repos) as [repo|e] eqn:Hrepo.
  - destruct (clone_or_pull w (repo_owner repo) (repo_name repo))
      as [[commit_hash changed]|e] eqn:Hclone.
    + (* the run reaches the files *)
      destruct (H3 repo commit_hash changed eq_refl Hclone) as (final & Hfinal & Hhist).
      clear H1 H2 H3.
      set (selected := files_to_process w job repo changed) in *.
      set (n := length selected) in *.
      set (middle := map (file_snapshot job t0 selected) (seq 0 n)) in *.
      assert (Hshape : history =
                ([job; running_job job t0; counted_job job t0 n] ++ middle ++
                 [summarized_job job t0 selected; final])%list)
        by (unfold history; rewrite Hhist; reflexivity).
      clearbody history. subst history. clear Hhist.
      assert (Hn : Z.of_nat n < 2 ^ 40).
      { apply (Hbound (counted_job job t0 n)); [|reflexivity].
        right. right. left. reflexivity. }
      assert (Hmid : forall y, In y middle ->
                  status y = "running" /\ 0 <= progress y <= 80).
      { intros y Hy. apply in_map_iff in Hy. destruct Hy as (k & <- & Hk).
        apply in_seq in Hk. split; [reflexivity|].
        rewrite file_snapshot_progress by (fold n; lia || exact Hn).
        apply quotient_bounds. fold n. lia. }
      assert (Hfin : (status final = "completed" /\ progress final = 100) \/
                     (status final = "failed" /\ progress final = 90)).
      { destruct Hfinal as [->|[e ->]]; [left | right]; split; reflexivity. }
      split; [|split; [|split]].
      * rewrite !map_app.
        apply strongly_sorted_app.
        -- cbn. repeat constructor; lia.
        -- apply strongly_sorted_app.
           ++ apply file_phase_sorted; fold n; [exact Hn | lia].
           ++ cbn. repeat constructor. destruct Hfin as [[_ ->]|[_ ->]]; lia.
           ++ intros x y Hx Hy. apply in_map_iff in Hx. destruct Hx as (jx & <- & Hjx).
              destruct (Hmid jx Hjx) as [_ Hb].
              cbn in Hy. destruct Hy as [<-|[<-|[]]]; [lia|].
              destruct Hfin as [[_ ->]|[_ ->]]; lia.
        -- intros x y Hx Hy. cbn in Hx.
           assert (Hx0 : x = 0) by (destruct Hx as [<-|[<-|[<-|[]]]]; reflexivity).
           subst x. rewrite <- map_app in Hy.
           apply in_map_iff in Hy. destruct Hy as (jy & <- & Hjy).
           apply in_app_or in Hjy. destruct Hjy as [Hjy|Hjy].
           ++ destruct (Hmid jy Hjy) as [_ Hb]. lia.
           ++ cbn in Hjy. destruct Hjy as [<-|[<-|[]]]; [cbn; lia|].
              destruct Hfin as [[_ ->]|[_ ->]]; lia.
      * intros before x after Heq Hx.
        apply (terminal_is_last
                 ([job; running_job job t0; counted_job job t0 n] ++ middle ++
                  [summarized_job job t0 selected])%list final) with (before := before) (x := x);
          [| rewrite <- Heq; rewrite <- !app_assoc; reflexivity | exact Hx].
        intros y Hy [Hc|Hf];
          (apply in_app_or in Hy; destruct Hy as [Hy|Hy];
           [cbn in Hy; destruct Hy as [<-|[<-|[<-|[]]]]; discriminate|];
           apply in_app_or in Hy; destruct Hy as [Hy|Hy];
           [destruct (Hmid y Hy) as [Hst _]; congruence|];
           cbn in Hy; destruct Hy as [<-|[]];
           destruct (summarized_job_fields job t0 selected) as [Hst _]; congruence).
      * intros x m Hx Hm. cbn in Hx. injection Hx as <-.
        cbn in Hm. injection Hm as <-.
        split; [|split; [reflexivity|split]].
        -- rewrite !length_app. unfold middle. rewrite length_map, length_seq.
           cbn. lia.
        -- intros k y Hk Hy.
           change (nth_error (middle ++ [summarized_job job t0 selected; final]) k = Some y)
             in Hy.
           rewrite nth_error_app1 in Hy by (unfold middle; rewrite length_map, length_seq; lia).
           unfold middle in Hy. rewrite nth_error_map in Hy.
           rewrite nth_error_seq in Hy.
           destruct (Nat.ltb k n) eqn:Hlt; [|apply Nat.ltb_ge in Hlt; lia].
           cbn in Hy. injection Hy as <-.
           split; [reflexivity|]. split; [reflexivity|].
           apply file_snapshot_progress; fold n; [lia | exact Hn].
        -- intros y Hy.
           change (nth_error (middle ++ [summarized_job job t0 selected; final]) n = Some y)
             in Hy.
           rewrite nth_error_app2 in Hy by (unfold middle; rewrite length_map, length_seq; lia).
           replace (n - length middle)%nat with 0%nat in Hy
             by (unfold middle; rewrite length_map, length_seq; lia).
           cbn in Hy. injection Hy as <-. apply summarized_job_fields.
      * intros x Hx.
        apply in_app_or in Hx. destruct Hx as [Hx|Hx].
        -- cbn in Hx. destruct Hx as [<-|[<-|[<-|[]]]]; cbn; split; discriminate.
        -- apply in_app_or in Hx. destruct Hx as [Hx|Hx].
           ++ destruct (Hmid x Hx) as [Hst Hb]. rewrite Hst. split; [lia | discriminate].
           ++ cbn in Hx. destruct Hx as [<-|[<-|[]]].
              ** destruct (summarized_job_fields job t0 selected) as [-> ->].
                 split; discriminate.
              ** destruct Hfin as [[-> ->]|[-> ->]]; split; auto; discriminate.
    + (* the pull fails *)
      assert (Hshape : history =
                [job; running_job job t0; failed_job (running_job job t0) e t1])
        by (unfold history; rewrite (H2 repo e eq_refl Hclone); reflexivity).
      clearbody history. subst history. clear H1 H2 H3.
      split; [|split; [|split]].
      * cbn. repeat constructor; lia.
      * intros before x after Heq Hx.
        apply (terminal_is_last [job; running_job job t0]
                 (failed_job (running_job job t0) e t1)) with (before := before) (x := x);
          [| exact Heq | exact Hx].
        intros y Hy [Hc|Hf]; cbn in Hy; destruct Hy as [<-|[<-|[]]]; discriminate.
      * intros x m Hx Hm. cbn in Hx. injection Hx as <-. discriminate.
      * intros x Hx. cbn in Hx. destruct Hx as [<-|[<-|[<-|[]]]]; cbn; split; discriminate.
  - (* no repository row *)
    assert (Hshape : history = [job; failed_job job e t1])
      by (unfold history; rewrite (H1 e eq_refl); reflexivity).
    clearbody history. subst history. clear H1 H2 H3.
    split; [|split; [|split]].
    * cbn. repeat constructor; lia.
    * intros before x after Heq Hx.
      apply (terminal_is_last [job] (failed_job job e t1)) with (before := before) (x := x);
        [| exact Heq | exact Hx].
      intros y Hy [Hc|Hf]; cbn in Hy; destruct Hy as [<-|[]]; discriminate.
    * intros x m Hx Hm. cbn in Hx. discriminate.
    * intros x Hx. cbn in Hx. destruct Hx as [<-|[<-|[]]]; cbn; split; discriminate.
Qed.

End JobProgress.

(** A run does not read the job's status before it starts: started on a
    job that was cancelled while pending, it commits the job as running
    again. *)
Lemma run_on_cancelled_job_resumes :
  forall (w : Tasks.World) (depth t0 t1 : nat) (job : Models.AnalysisJob)
         (repo : Models.Repository) (s : Tasks.Session),
  exists rest,
    Tasks.job_history
      (Tasks.analyze_repository w depth t0 t1 [PipelineSpec.cancelled job] [repo] s)
    = PipelineSpec.running_job (PipelineSpec.cancelled job) t0 :: rest /\
    Models.status (PipelineSpec.cancelled job) = "failed" /\
    Models.status (PipelineSpec.running_job (PipelineSpec.cancelled job) t0) = "running".
Proof.
  intros w depth t0 t1 job repo s.
  destruct (run_history w depth t0 t1 (PipelineSpec.cancelled job) [repo] s)
    as (_ & H2 & H3).
  destruct (Tasks.clone_or_pull w (Models.repo_owner repo) (Models.repo_name repo))
    as [[commit_hash changed]|e] eqn:Hclone.
  - destruct (H3 repo commit_hash changed eq_refl Hclone) as (final & _ & ->).
    eexists. repeat split.
  - rewrite (H2 repo e eq_refl Hclone). eexists. repeat split.
Qed.

(** C7, the defect. [cancel_job] sets a pending job to the terminal
    state [failed] and asks the queue to revoke the task whose id is the
    id of the job. The run made on that row does not read the status:
    whatever the world, its first commit sets the job running again. On
    the sample job, cancelled while pending, the run moves the progress
    from [0] up to [100] and ends the job as [completed], with the
    message of the cancellation still on the row. The values of the row
    over the job's lifetime are the created job, the cancelled job, and
    the commits of the run: the terminal state [failed] is left, and
    progress changes after it. *)
Lemma cancelled_job_is_run_to_completion :
  (forall (w : Tasks.World) (depth t0 t1 : nat) (job : Models.AnalysisJob)
          (repo : Models.Repository) (s : Tasks.Session),
   exists rest,
     Tasks.job_history
       (Tasks.analyze_repository w depth t0 t1 [PipelineSpec.cancelled job] [repo] s)
     = PipelineSpec.running_job (PipelineSpec.cancelled job) t0 :: rest /\
     Models.status (PipelineSpec.cancelled job) = "failed" /\
     Models.status (PipelineSpec.running_job (PipelineSpec.cancelled job) t0)
     = "running") /\
  Samples.cancelled_table = [PipelineSpec.cancelled Samples.demo_job] /\
  JobsApi.revoked (JobsApi.cancel_job 7 [Samples.demo_job])
    = [Models.job_id Samples.demo_job] /\
  map Models.status
      (Samples.demo_job :: Samples.cancelled_table
         ++ Tasks.job_history Samples.run_after_cancel)%list
    = [ "pending"; "failed"; "running"; "running"; "running"; "running";
        "running"; "running"; "running"; "completed" ] /\
  map Models.progress
      (Samples.demo_job :: Samples.cancelled_table
         ++ Tasks.job_history Samples.run_after_cancel)%list
    = [0; 0; 0; 0; 20; 40; 60; 80; 90; 100]%Z /\
  map Models.error_message Samples.cancelled_table = [Some "Cancelled by user"] /\
  last (map Models.error_message (Tasks.job_history Samples.run_after_cancel)) None
    = Some "Cancelled by user".
Proof.
  split; [exact run_on_cancelled_job_resumes|].
  repeat split; vm_compute; reflexivity.
Qed.

(** Witness of [job_progress_spec]: the sample run over four files. *)
Lemma job_progress_spec_witness :
  map Models.progress (Samples.demo_job :: Tasks.job_history Samples.demo_run)
    = [0; 0; 0; 20; 40; 60; 80; 90; 100]%Z /\
  StronglySorted Z.le
    (map Models.progress (Samples.demo_job :: Tasks.job_history Samples.demo_run)).
Proof.
  split; [vm_compute; reflexivity|].
  apply (job_progress_spec Samples.demo_world 50 10 20 7 Samples.demo_repo
                           [Samples.demo_repo] Samples.empty_session).
  intros x n Hin Htotal.
  assert (Hn : n = 4); [|subst n; reflexivity].
  vm_compute in Hin.
  repeat (destruct Hin as [<-|Hin]; [vm_compute in Htotal; congruence|]).
  destruct Hin.
Defined.

(** The model of the float arithmetic agrees with the binary64 operations
    for all [1 <= a <= n <= 64]. *)
Lemma float_model_agrees_with_binary64 : Binary64.agree_up_to 64 = true.
Proof. vm_compute. reflexivity. Qed.
(* ===================================================================== *)
(** * Further properties of the extractor *)
(* ===================================================================== *)

Section ExtractorMore.
Import Py ParserService Forest Samples.

Lemma dict_get_in {V : Type} (d : list (string * V)) (key : string) (v : V) :
  dict_get d key = Some v -> In v (map snd d).
Proof.
  induction d as [|[k x] d IH]; simpl; [discriminate|].
  destruct (String.eqb k key); [intros [= ->]; now left | auto].
Qed.

Lemma detected_language_is_known file_path language :
  detect_language file_path = Some language ->
  In language LANGUAGE_MODULES.
Proof.
  unfold detect_language. intros H. apply dict_get_in in H.
  simpl in H. unfold LANGUAGE_MODULES.
  repeat (destruct H as [<-|H]; [simpl; tauto|]). contradiction.
Qed.

Lemma known_language_is_parsable parse language :
  In language LANGUAGE_MODULES ->
  truthy (Some language) = true /\
  _get_parser parse language = Some (parse language) /\
  extract_types language "function" <> [] /\
  extract_types language "class" <> [].
Proof.
  unfold LANGUAGE_MODULES. simpl. intros H.
  repeat (destruct H as [<-|H];
          [repeat split; try reflexivity; vm_compute; discriminate|]).
  contradiction.
Qed.

Lemma parse_file_unfold parse file_path content :
  parse_file parse file_path content =
  match detect_language file_path with
  | Some language =>
      Some {| language := language;
              code_units :=
                _extract_code_units (parse language content) content language None;
              line_count := count "010" content + 1 |}
  | None => None
  end.
Proof.
  unfold parse_file.
  destruct (detect_language file_path) as [language|] eqn:E; [|reflexivity].
  destruct (known_language_is_parsable parse language
              (detected_language_is_known _ _ E)) as (Ht & Hp & _).
  now rewrite Ht, Hp.
Qed.

(** [parse_file] gives a result exactly for the paths whose extension is
    in [EXTENSION_MAP]: each language of that table has a grammar in
    [LANGUAGE_MODULES] and both kind lists in [EXTRACT_TYPES], so the
    second [return None] of [parse_file] is never taken. The result holds
    the detected language, the units of the root node, and one more line
    than the content has newline characters. *)
Theorem parse_file_result parse file_path content :
  parse_file parse file_path content =
  match detect_language file_path with
  | Some language =>
      Some {| language := language;
              code_units :=
                _extract_code_units (parse language content) content language None;
              line_count := count "010" content + 1 |}
  | None => None
  end /\
  (forall language, detect_language file_path = Some language ->
     _get_parser parse language = Some (parse language) /\
     extract_types language "function" <> [] /\
     extract_types language "class" <> []).
Proof.
  split; [apply parse_file_unfold|].
  intros language H.
  destruct (known_language_is_parsable parse language
              (detected_language_is_known _ _ H)) as (_ & Hp & Hf & Hc).
  auto.
Qed.

Lemma parse_file_result_witness :
  detect_language "src/App.TSX" = Some "typescript" /\
  _get_parser (fun _ _ => empty_module) "typescript" = Some (fun _ => empty_module).
Proof.
  split; [reflexivity|].
  exact (proj1 (proj2 (parse_file_result (fun _ _ => empty_module) "src/App.TSX" "")
                  "typescript" eq_refl)).
Defined.

(** ** Provenance of the units *)

Lemma flat_map_flat_map {A B C : Type} (f : A -> list B) (g : B -> list C) (l : list A) :
  flat_map g (flat_map f l) = flat_map (fun x => flat_map g (f x)) l.
Proof.
  induction l as [|x l IH]; simpl; [reflexivity|].
  now rewrite flat_map_app, IH.
Qed.

Lemma preorder_unfold u : preorder u = u :: all_units (children u).
Proof. destruct u; reflexivity. Qed.

Lemma extract_function_taken node content language parent_class u :
  mem (node_type node) (extract_types language "function") = true ->
  _extract_function node content language parent_class = Some u ->
  taken_from content language node u /\ children u = [].
Proof.
  intros Hkind. unfold _extract_function.
  destruct (_get_name node language) as [nm|] eqn:E; [|discriminate].
  destruct (truthy (Some nm)); [|discriminate].
  intros [= <-]. unfold taken_from. simpl. rewrite E. tauto.
Qed.

Lemma extract_class_taken node content language u cs :
  mem (node_type node) (extract_types language "class") = true ->
  _extract_class node content language = Some u ->
  taken_from content language node (set_children u cs) /\
  children (set_children u cs) = cs.
Proof.
  intros Hkind. unfold _extract_class.
  destruct (_get_name node language) as [nm|] eqn:E; [|discriminate].
  destruct (truthy (Some nm)); [|discriminate].
  intros [= <-]. unfold taken_from. simpl. rewrite E. tauto.
Qed.

Lemma extract_child_provenance content language :
  forall child parent_class,
    Forall (fun u => exists n, In n (child :: descendants child) /\
                               taken_from content language n u)
           (all_units (extract_child content language parent_class child)).
Proof.
  induction child as [ty tx sb eb sp ep chs IH] using Node_forall_ind.
  intros parent_class.
  set (child := mkNode ty tx sb eb sp ep chs).
  assert (Below : forall pc,
    Forall (fun u => exists n, In n (child :: descendants child) /\
                               taken_from content language n u)
           (all_units (_extract_code_units child content language pc))).
  { intros pc. unfold _extract_code_units, all_units.
    rewrite flat_map_flat_map. apply Forall_flat_map.
    rewrite Forall_forall in IH. apply Forall_forall. intros c Hc.
    specialize (IH c Hc pc). unfold all_units in IH.
    eapply Forall_impl; [|exact IH].
    intros u (n & Hn & Ht). exists n. split; [|exact Ht].
    right. rewrite descendants_unfold. apply in_flat_map.
    exists c. split; [exact Hc | exact Hn]. }
  rewrite extract_child_unfold. fold child.
  destruct (mem (node_type child) (extract_types language "function")) eqn:Kf.
  - destruct (_extract_function child content language parent_class) as [u|] eqn:E.
    + destruct (extract_function_taken _ _ _ _ _ Kf E) as [Ht Hch].
      unfold all_units. simpl. rewrite app_nil_r, preorder_unfold, Hch.
      simpl. constructor; [|constructor].
      exists child. split; [now left | exact Ht].
    + apply Below.
  - destruct (mem (node_type child) (extract_types language "class")) eqn:Kc;
      [|apply Below].
    destruct (_extract_class child content language) as [u|] eqn:E; [|apply Below].
    destruct (extract_class_taken _ _ _ _
                (_extract_code_units child content language (Some (name u))) Kc E)
      as [Ht Hch].
    unfold all_units at 1. simpl. rewrite app_nil_r, preorder_unfold, Hch.
    constructor.
    + exists child. split; [now left | exact Ht].
    + apply Below.
Qed.

(** Every unit of the extracted forest, at any depth, is taken from a
    node below the root: a node of a function or class kind of the
    language, whose name, rows, text and signature the unit carries. The
    extractor invents no unit and never reports the root itself. *)
Theorem every_unit_is_taken_from_a_node content language root parent_class :
  Forall (fun u => exists n, In n (descendants root) /\
                             taken_from content language n u)
         (all_units (_extract_code_units root content language parent_class)).
Proof.
  unfold _extract_code_units, all_units.
  rewrite flat_map_flat_map. apply Forall_flat_map, Forall_forall.
  intros c Hc.
  eapply Forall_impl; [|apply (extract_child_provenance content language c parent_class)].
  intros u (n & Hn & Ht). exists n. split; [|exact Ht].
  rewrite descendants_unfold. apply in_flat_map. exists c. split; assumption.
Qed.


(** ** Signatures *)

Lemma split_not_nil (sep : ascii) (s : string) : split sep s <> [].
Proof.
  induction s as [|c s IH]; simpl; [discriminate|].
  destruct (Ascii.eqb c sep); [discriminate|].
  destruct (split sep s); discriminate.
Qed.

Lemma join_split (sep : ascii) (s : string) :
  join (String sep "") (split sep s) = s.
Proof.
  unfold join. induction s as [|c s IH]; simpl; [reflexivity|].
  destruct (Ascii.eqb c sep) eqn:E.
  - apply Ascii.eqb_eq in E. subst c.
    pose proof (split_not_nil sep s) as Hne.
    destruct (split sep s) as [|h t]; [congruence|].
    simpl in *. now rewrite IH.
  - pose proof (split_not_nil sep s) as Hne.
    destruct (split sep s) as [|h t]; [congruence|].
    destruct t as [|h' t]; simpl in *; now rewrite <- IH.
Qed.

Lemma concat_cons2 (sep x y : string) (l : list string) :
  String.concat sep (x :: y :: l) = x ++ sep ++ String.concat sep (y :: l).
Proof. reflexivity. Qed.

Lemma join_app_prefix (sep : string) (a b : list string) :
  exists rest, String.concat sep (a ++ b)%list = String.concat sep a ++ rest.
Proof.
  induction a as [|x a [rest IH]].
  - eexists. reflexivity.
  - destruct a as [|y a].
    + destruct b as [|z b].
      * exists "". simpl. now rewrite append_empty_r.
      * eexists. reflexivity.
    + exists rest.
      change ((x :: y :: a) ++ b)%list with (x :: y :: (a ++ b)%list).
      change ((y :: a) ++ b)%list with (y :: (a ++ b)%list) in IH.
      rewrite !concat_cons2, IH, !append_assoc. reflexivity.
Qed.

Lemma sig_lines_prefix (lines : list string) :
  exists tail, lines = (sig_lines lines ++ tail)%list.
Proof.
  induction lines as [|line rest [tail IH]]; simpl.
  - exists []. reflexivity.
  - destruct (endswith_char (strip line) ":").
    + exists rest. reflexivity.
    + exists tail. simpl. now rewrite <- IH.
Qed.

Lemma sig_lines_all (lines : list string) :
  forallb (fun line => negb (endswith_char (strip line) ":")) lines = true ->
  sig_lines lines = lines.
Proof.
  induction lines as [|line rest IH]; simpl; [reflexivity|].
  intros H. apply andb_true_iff in H. destruct H as [H1 H2].
  apply negb_true_iff in H1. rewrite H1. now rewrite IH.
Qed.

Lemma python_signature_prefix node content :
  exists rest,
    slice content (node_start_byte node) (node_end_byte node) =
    _extract_signature node content "python" ++ rest.
Proof.
  unfold _extract_signature. simpl String.eqb. cbv iota.
  set (source := slice content (node_start_byte node) (node_end_byte node)).
  destruct (sig_lines_prefix (split "010" source)) as [tail Ht].
  destruct (join_app_prefix (String "010" "") (sig_lines (split "010" source)) tail)
    as [rest Hr].
  exists rest. rewrite <- Ht in Hr. unfold join in *.
  rewrite <- Hr. symmetry. apply (join_split "010" source).
Qed.

(** For Python the signature is an initial segment of the text of the
    node: it is the first line when that line, stripped, ends with a
    colon, and the whole text when no line does. Hence the source code of
    every unit of a forest extracted from a Python tree begins with its
    signature. *)
Theorem python_signature_starts_the_source content :
  (forall node,
     let source := slice content (node_start_byte node) (node_end_byte node) in
     let first_line := hd "" (split "010" source) in
     (exists rest, source = _extract_signature node content "python" ++ rest) /\
     (endswith_char (strip first_line) ":" = true ->
      _extract_signature node content "python" = first_line) /\
     (forallb (fun line => negb (endswith_char (strip line) ":"))
              (split "010" source) = true ->
      _extract_signature node content "python" = source)) /\
  (forall root parent_class,
     Forall (fun u => exists rest, source_code u = signature u ++ rest)
            (all_units (_extract_code_units root content "python" parent_class))).
Proof.
  split.
  - intros node source first_line. split; [apply python_signature_prefix|]. split.
    + intros H. unfold _extract_signature. simpl String.eqb. cbv iota.
      fold source. subst first_line.
      pose proof (split_not_nil "010" source) as Hne.
      destruct (split "010" source) as [|l ls]; [congruence|].
      simpl in *. now rewrite H.
    + intros H. unfold _extract_signature. simpl String.eqb. cbv iota.
      fold source. rewrite (sig_lines_all _ H). apply join_split.
  - intros root parent_class.
    unfold _extract_code_units, all_units.
    rewrite flat_map_flat_map. apply Forall_flat_map, Forall_forall.
    intros c Hc.
    eapply Forall_impl;
      [|apply (extract_child_provenance content "python" c parent_class)].
    intros u (n & _ & Ht). destruct Ht as (_ & _ & _ & _ & Hsrc & Hsig).
    rewrite Hsrc, Hsig. apply python_signature_prefix.
Qed.

(** Witness: the first method of the sample class. *)
Lemma python_signature_starts_the_source_witness :
  endswith_char
    (strip (hd "" (split "010" (slice two_methods_source 13 38)))) ":" = true /\
  _extract_signature (method_node "f" 1 13) two_methods_source "python" =
  hd "" (split "010" (slice two_methods_source 13 38)).
Proof.
  split; [reflexivity|].
  apply (proj1 (proj2 (proj1 (python_signature_starts_the_source two_methods_source)
                         (method_node "f" 1 13)))).
  reflexivity.
Defined.

Lemma ascii_eqb_sym (a b : ascii) : Ascii.eqb a b = Ascii.eqb b a.
Proof.
  destruct (Ascii.eqb a b) eqn:E.
  - apply Ascii.eqb_eq in E. subst. symmetry. apply Ascii.eqb_refl.
  - destruct (Ascii.eqb b a) eqn:E'; [|reflexivity].
    apply Ascii.eqb_eq in E'. subst. now rewrite Ascii.eqb_refl in E.
Qed.

Lemma contains_char (c : ascii) (s : string) :
  contains (String c "") s = negb (Nat.eqb (count c s) 0).
Proof.
  induction s as [|d s IH]; simpl; [reflexivity|].
  rewrite andb_true_r, (ascii_eqb_sym c d).
  destruct (Ascii.eqb d c); simpl; [reflexivity | exact IH].
Qed.

Lemma split_without_sep (c : ascii) (s : string) :
  count c s = 0 -> split c s = [s].
Proof.
  induction s as [|d s IH]; simpl; [reflexivity|].
  destruct (Ascii.eqb d c); simpl; [discriminate|].
  intros H. now rewrite (IH H).
Qed.

Lemma count_hd_split (c d : ascii) (s : string) :
  count d (hd "" (split c s)) <= count d s /\
  count c (hd "" (split c s)) = 0.
Proof.
  induction s as [|x s [IH1 IH2]]; simpl; [split; lia|].
  destruct (Ascii.eqb x c) eqn:E; simpl; [split; lia|].
  pose proof (split_not_nil c s) as Hne.
  destruct (split c s) as [|h t]; [congruence|].
  simpl in *. rewrite E. split; [|exact IH2].
  destruct (Ascii.eqb x d); lia.
Qed.

Lemma count_lstrip (c : ascii) (s : string) : count c (lstrip s) <= count c s.
Proof.
  induction s as [|d s IH]; simpl; [lia|].
  destruct (is_space d); simpl; lia.
Qed.

Lemma count_rstrip (c : ascii) (s : string) : count c (rstrip s) <= count c s.
Proof.
  induction s as [|d s IH]; simpl; [lia|].
  destruct (rstrip s) as [|x r]; simpl in *.
  - destruct (is_space d); simpl; lia.
  - lia.
Qed.

Lemma count_strip (c : ascii) (s : string) : count c (strip s) <= count c s.
Proof.
  unfold strip. pose proof (count_rstrip c (lstrip s)).
  pose proof (count_lstrip c s). lia.
Qed.

Lemma rstrip_idempotent (s : string) : rstrip (rstrip s) = rstrip s.
Proof.
  induction s as [|d s IH]; simpl; [reflexivity|].
  destruct (rstrip s) as [|x r] eqn:E.
  - destruct (is_space d) eqn:Sd; simpl; [reflexivity | now rewrite Sd].
  - simpl in IH. simpl.
    destruct (rstrip r) as [|y r'] eqn:E'.
    + destruct (is_space x); [discriminate | now rewrite IH].
    + now rewrite IH.
Qed.

Lemma lstrip_head (s : string) :
  lstrip s = "" \/ exists c r, lstrip s = String c r /\ is_space c = false.
Proof.
  induction s as [|d s IH]; simpl; [now left|].
  destruct (is_space d) eqn:E; [exact IH|].
  right. exists d, s. now split.
Qed.

Lemma strip_idempotent (s : string) : strip (strip s) = strip s.
Proof.
  unfold strip.
  assert (H : lstrip (rstrip (lstrip s)) = rstrip (lstrip s)).
  { destruct (lstrip_head s) as [->|(c & r & -> & Hc)]; [reflexivity|].
    simpl. destruct (rstrip r); rewrite ?Hc; simpl; rewrite ?Hc; reflexivity. }
  rewrite H. apply rstrip_idempotent.
Qed.

(** For every language other than Python the signature is computed from
    the first line of the node's text alone: it is the part of that line
    before its first opening brace, stripped. It therefore holds neither
    a brace nor a line break, and stripping it again changes nothing. *)
Theorem brace_signature_is_one_line node content language :
  language <> "python" ->
  let source := slice content (node_start_byte node) (node_end_byte node) in
  let sig := _extract_signature node content language in
  sig = strip (hd "" (split "{" (hd "" (split "010" source)))) /\
  count "{" sig = 0 /\ count "010" sig = 0 /\ strip sig = sig.
Proof.
  intros Hlang source sig.
  assert (Hsig : sig = strip (hd "" (split "{" (hd "" (split "010" source))))).
  { subst sig. unfold _extract_signature. fold source.
    destruct (String.eqb language "python") eqn:E;
      [apply String.eqb_eq in E; contradiction|].
    rewrite contains_char.
    destruct (Nat.eqb (count "{" (hd "" (split "010" source))) 0) eqn:C; simpl.
    - apply Nat.eqb_eq in C. now rewrite (split_without_sep _ _ C).
    - reflexivity. }
  split; [exact Hsig|]. rewrite Hsig.
  set (first_line := hd "" (split "010" source)).
  pose proof (count_hd_split "{" "{" first_line) as [_ B1].
  pose proof (count_hd_split "{" "010" first_line) as [B2 _].
  pose proof (count_hd_split "010" "010" source) as [_ B3]. fold first_line in B3.
  pose proof (count_strip "{" (hd "" (split "{" first_line))).
  pose proof (count_strip "010" (hd "" (split "{" first_line))).
  repeat split; try lia. apply strip_idempotent.
Qed.

(** Witness: the inner function of the JavaScript sample. *)
Lemma brace_signature_is_one_line_witness :
  "javascript" <> "python" /\
  _extract_signature js_inner_function js_source "javascript" = "function g()".
Proof.
  split; [discriminate|].
  rewrite (proj1 (brace_signature_is_one_line js_inner_function js_source "javascript"
                    ltac:(discriminate))).
  reflexivity.
Defined.

(** ** The units in document order *)

Lemma Forall2_flat_map {A B C : Type} (R : B -> C -> Prop)
      (f : A -> list B) (g : A -> list C) (l : list A) :
  Forall (fun x => Forall2 R (f x) (g x)) l ->
  Forall2 R (flat_map f l) (flat_map g l).
Proof.
  induction 1; simpl; [constructor | now apply Forall2_app].
Qed.

Lemma filter_flat_map {A B : Type} (p : B -> bool) (f : A -> list B) (l : list A) :
  filter p (flat_map f l) = flat_map (fun x => filter p (f x)) l.
Proof.
  induction l as [|x l IH]; simpl; [reflexivity|].
  now rewrite filter_app, IH.
Qed.

Lemma searched_unfold language n :
  searched language n =
  flat_map (fun c => c :: (if yields_function language c then []
                           else searched language c)) (node_children n).
Proof. destruct n; reflexivity. Qed.

Lemma extract_function_truthy node content language parent_class :
  _extract_function node content language parent_class = None <->
  truthy (_get_name node language) = false.
Proof.
  unfold _extract_function.
  destruct (_get_name node language) as [[|c nm]|]; simpl; split;
    intros; congruence.
Qed.

Lemma extract_class_truthy node content language :
  _extract_class node content language = None <->
  truthy (_get_name node language) = false.
Proof.
  unfold _extract_class.
  destruct (_get_name node language) as [[|c nm]|]; simpl; split;
    intros; congruence.
Qed.

Lemma filter_yields_cons language child :
  filter (yields_unit language)
         (child :: (if yields_function language child then []
                    else searched language child)) =
  if yields_unit language child
  then child :: (if yields_function language child then []
                 else filter (yields_unit language) (searched language child))
  else filter (yields_unit language) (searched language child).
Proof.
  cbn [filter].
  destruct (yields_unit language child) eqn:U;
    destruct (yields_function language child) eqn:F; try reflexivity.
  unfold yields_unit, yields_function in *.
  destruct (mem (node_type child) (extract_types language "function"));
    simpl in F; congruence.
Qed.

Lemma extract_child_in_order content language :
  forall child parent_class,
    Forall2 (taken_from content language)
            (filter (yields_unit language)
                    (child :: (if yields_function language child then []
                               else searched language child)))
            (all_units (extract_child content language parent_class child)).
Proof.
  induction child as [ty tx sb eb sp ep chs IH] using Node_forall_ind.
  intros parent_class.
  set (child := mkNode ty tx sb eb sp ep chs).
  assert (Below : forall pc,
    Forall2 (taken_from content language)
            (filter (yields_unit language) (searched language child))
            (all_units (_extract_code_units child content language pc))).
  { intros pc. unfold _extract_code_units, all_units.
    rewrite flat_map_flat_map, searched_unfold, filter_flat_map.
    apply Forall2_flat_map. apply Forall_forall. intros c Hc.
    rewrite Forall_forall in IH. exact (IH c Hc pc). }
  assert (One : forall u, all_units [u] = u :: all_units (children u)).
  { intros u. unfold all_units at 1. cbn [flat_map].
    now rewrite app_nil_r, preorder_unfold. }
  rewrite filter_yields_cons, extract_child_unfold. fold child.
  unfold yields_unit, yields_function.
  destruct (mem (node_type child) (extract_types language "function")) eqn:Kf.
  - destruct (_extract_function child content language parent_class) as [u|] eqn:E.
    + destruct (truthy (_get_name child language)) eqn:T.
      2:{ apply (proj2 (extract_function_truthy child content language parent_class))
            in T. congruence. }
      destruct (extract_function_taken _ _ _ _ _ Kf E) as [Ht Hch].
      cbn [andb]. rewrite One, Hch.
      constructor; [exact Ht | constructor].
    + apply (proj1 (extract_function_truthy child content language parent_class)) in E.
      rewrite E. apply Below.
  - cbn [andb].
    destruct (mem (node_type child) (extract_types language "class")) eqn:Kc;
      [|apply Below].
    destruct (_extract_class child content language) as [u|] eqn:E.
    + destruct (truthy (_get_name child language)) eqn:T.
      2:{ apply (proj2 (extract_class_truthy child content language)) in T.
          congruence. }
      destruct (extract_class_taken _ _ _ _
                  (_extract_code_units child content language (Some (name u))) Kc E)
        as [Ht Hch].
      rewrite One, Hch.
      constructor; [exact Ht | apply Below].
    + apply (proj1 (extract_class_truthy child content language)) in E.
      rewrite E. apply Below.
Qed.

(** The units of the extracted forest, a unit before the units nested in
    it, are in one-to-one correspondence, in document order, with the
    nodes below the root that have a function or class kind and a
    non-empty name and do not lie inside a node yielding a function or
    method unit: no such node is missed, and each gives one unit. *)
Theorem units_follow_document_order content language root parent_class :
  Forall2 (taken_from content language)
          (filter (yields_unit language) (searched language root))
          (all_units (_extract_code_units root content language parent_class)).
Proof.
  unfold _extract_code_units, all_units.
  rewrite flat_map_flat_map, searched_unfold, filter_flat_map.
  apply Forall2_flat_map, Forall_forall. intros c _.
  apply extract_child_in_order.
Qed.

End ExtractorMore.

(* ===================================================================== *)
(** * Further properties of the analysis pipeline *)
(* ===================================================================== *)

Section PipelineMore.
Import Py Models ParserService Tasks PipelineSpec Forest Persistence Stored Samples.

Variable w : World.

(** ** [_process_file], case by case *)

Lemma process_file_no_directory depth repo path s e s1 :
  _ensure_directory depth repo (dirname path) s = (Raise e, s1) ->
  _process_file w depth repo path s = (Raise e, s1).
Proof.
  intros H. unfold _process_file, bind at 1. now rewrite H.
Qed.

Lemma process_file_unreadable depth repo path s directory s1 :
  _ensure_directory depth repo (dirname path) s = (Ok directory, s1) ->
  read_text w (path_join (get_repo_path w (repo_owner repo) (repo_name repo)) path)
    = None ->
  _process_file w depth repo path s = (Raise ("File not found: " ++ path), s1).
Proof.
  intros Hdir Hread. unfold _process_file, bind at 1. rewrite Hdir.
  unfold get_file_content. rewrite Hread.
  unfold bind at 1. unfold lift at 1. reflexivity.
Qed.

Lemma prepare_file_record_effect directory path h pr existing s r s2 :
  prepare_file_record directory path h pr existing s = (r, s2) ->
  directories s2 = directories s /\ llm_calls s2 = llm_calls s /\
  (exists new, map file_id (files s2) = (map file_id (files s) ++ new)%list) /\
  exists file_record, r = Ok file_record.
Proof.
  unfold prepare_file_record. destruct existing as [f|].
  - unfold bind, update_file, delete_code_units, ret. intros [= <- <-]. simpl.
    repeat split; [|eauto].
    exists []. rewrite app_nil_r, map_map. apply map_ext.
    intros a. unfold set_file_parsed. simpl.
    destruct (Nat.eqb (file_id a) (file_id f)) eqn:E; [|reflexivity].
    apply Nat.eqb_eq in E. simpl. congruence.
  - unfold add_file. intros [= <- <-]. simpl.
    repeat split; [|eauto].
    eexists. rewrite map_app. reflexivity.
Qed.

Lemma create_code_units_frame file_record language :
  forall units s,
    files (snd (create_code_units w file_record language units s)) = files s /\
    directories (snd (create_code_units w file_record language units s)) =
      directories s.
Proof.
  induction units as [|u rest IH]; intros s; [simpl; auto|].
  rewrite create_code_units_cons.
  destruct (create_code_unit_appends w file_record language u None s)
    as (more & calls & _ & _ & Hf & Hd).
  destruct (_create_code_unit w file_record language None u s) as [cu s1].
  destruct (IH s1) as [G1 G2].
  destruct (create_code_units w file_record language rest s1) as [sums s2].
  simpl in *. split; congruence.
Qed.

Lemma update_file_ids f' s :
  map file_id (files (snd (update_file f' s))) = map file_id (files s).
Proof.
  unfold update_file. simpl. rewrite map_map. apply map_ext.
  intros a. destruct (Nat.eqb (file_id a) (file_id f')) eqn:E; [|reflexivity].
  apply Nat.eqb_eq in E. congruence.
Qed.

(** After the directory is ensured, [_process_file] leaves the
    directories as they are and removes no file row. *)
Lemma process_file_after_directory depth repo path s directory s1 :
  _ensure_directory depth repo (dirname path) s = (Ok directory, s1) ->
  directories (snd (_process_file w depth repo path s)) = directories s1 /\
  exists new,
    map file_id (files (snd (_process_file w depth repo path s))) =
    (map file_id (files s1) ++ new)%list.
Proof.
  intros Hdir.
  assert (Refl : exists new : list nat,
             map file_id (files s1) = (map file_id (files s1) ++ new)%list)
    by (exists []; now rewrite app_nil_r).
  destruct (read_text w (path_join (get_repo_path w (repo_owner repo) (repo_name repo))
                           path)) as [content|] eqn:Hread.
  2:{ rewrite (process_file_unreadable _ _ _ _ _ _ Hdir Hread). simpl. auto. }
  rewrite (process_file_after_read w _ _ _ _ _ _ _ Hdir Hread).
  destruct (scalar_one_or_none (file_rows directory path s1)) as [existing|e];
    [|simpl; auto].
  destruct (is_unchanged existing (sha256_hexdigest w content)); [simpl; auto|].
  destruct (parse_file (parse w) path content) as [pr|]; [|simpl; auto].
  destruct (prepare_file_record directory path (sha256_hexdigest w content) pr
              existing s1) as [r s2] eqn:Hprep.
  destruct (prepare_file_record_effect _ _ _ _ _ _ _ _ Hprep)
    as (Hd2 & _ & [new Hf2] & [file_record ->]).
  destruct (create_code_units_frame file_record (ParserService.language pr)
              (ParserService.code_units pr) s2) as [Hf3 Hd3].
  destruct (create_code_units w file_record (ParserService.language pr)
              (ParserService.code_units pr) s2) as [summaries s3].
  simpl in Hf3, Hd3.
  destruct summaries as [|x xs].
  - simpl. rewrite Hf3, Hd3. eauto.
  - unfold call_llm.
    destruct (llm w (llm_calls s3)
                (summarize_file path (x :: xs) (ParserService.language pr)))
      as [summary|e].
    + split.
      * simpl. congruence.
      * rewrite update_file_ids. simpl. rewrite Hf3. eauto.
    + simpl. rewrite Hf3, Hd3. eauto.
Qed.

(** ** Paths that are not stored *)

(** A path without a supported extension is not stored: [_process_file]
    does no more than ensure its directory, so it adds directory rows at
    most, whatever the session holds, and neither a file row, nor code
    units, nor a request to the language model. *)
Theorem unsupported_path_is_not_stored depth repo path s :
  detect_language path = None ->
  snd (_process_file w depth repo path s) =
  snd (_ensure_directory depth repo (dirname path) s) /\
  files (snd (_process_file w depth repo path s)) = files s /\
  code_units (snd (_process_file w depth repo path s)) = code_units s /\
  llm_calls (snd (_process_file w depth repo path s)) = llm_calls s.
Proof.
  intros Hlang.
  assert (E : snd (_process_file w depth repo path s) =
              snd (_ensure_directory depth repo (dirname path) s)).
  { destruct (_ensure_directory depth repo (dirname path) s) as [[directory|e] s1]
      eqn:Hdir.
    2:{ now rewrite (process_file_no_directory _ _ _ _ _ _ Hdir). }
    destruct (read_text w (path_join (get_repo_path w (repo_owner repo)
                                        (repo_name repo)) path))
      as [content|] eqn:Hread.
    2:{ now rewrite (process_file_unreadable _ _ _ _ _ _ Hdir Hread). }
    rewrite (process_file_after_read w _ _ _ _ _ _ _ Hdir Hread).
    destruct (scalar_one_or_none (file_rows directory path s1)); [|reflexivity].
    destruct (is_unchanged _ _); [reflexivity|].
    rewrite (parse_file_unfold (parse w) path content), Hlang.
    reflexivity. }
  split; [exact E|]. rewrite E.
  destruct (_ensure_directory depth repo (dirname path) s) as [r s1] eqn:Hdir.
  destruct (ensure_directory_frame _ _ _ _ _ _ Hdir) as [added Ha].
  destruct Ha as (_ & Hf & Hc & Hl & _). simpl. auto.
Qed.

(** A path that cannot be read, such as a file the pull has deleted, is
    reported with [FileNotFoundError] once its directory is ensured; no
    file row, code unit or request is touched, so a record stored for
    the path earlier stays as it is. The loop of [analyze_repository]
    swallows the exception and counts the file as processed. *)
Theorem unreadable_path_is_counted_and_kept depth repo path s directory s1 :
  _ensure_directory depth repo (dirname path) s = (Ok directory, s1) ->
  read_text w (path_join (get_repo_path w (repo_owner repo) (repo_name repo)) path)
    = None ->
  _process_file w depth repo path s = (Raise ("File not found: " ++ path), s1) /\
  files s1 = files s /\ code_units s1 = code_units s /\ llm_calls s1 = llm_calls s /\
  (forall selected i job history,
     let r' := process_files w depth selected i [path] (mkRun s job repo history) in
     run_session r' = s1 /\
     processed_files (run_job r') = i + 1 /\
     status (run_job r') = status job /\
     commits r' = (history ++ [run_job r'])%list).
Proof.
  intros Hdir Hread.
  pose proof (process_file_unreadable _ _ _ _ _ _ Hdir Hread) as Hp.
  destruct (ensure_directory_frame _ _ _ _ _ _ Hdir) as [added Ha].
  destruct Ha as (_ & Hf & Hc & Hl & _).
  repeat split; auto; cbn [process_files run_repo run_session];
    rewrite Hp; reflexivity.
Qed.

(** ** What a run keeps *)

Lemma keeps_rows_refl s : keeps_rows s s.
Proof. split; exists []; now rewrite app_nil_r. Qed.

Lemma keeps_rows_trans s1 s2 s3 :
  keeps_rows s1 s2 -> keeps_rows s2 s3 -> keeps_rows s1 s3.
Proof.
  intros [[a1 D1] [n1 F1]] [[a2 D2] [n2 F2]]. split.
  - exists (a1 ++ a2)%list. now rewrite D2, D1, app_assoc.
  - exists (n1 ++ n2)%list. now rewrite F2, F1, app_assoc.
Qed.

Lemma keeps_rows_same s s' :
  map dir_key (directories s') = map dir_key (directories s) ->
  map file_id (files s') = map file_id (files s) ->
  keeps_rows s s'.
Proof.
  intros D F. split; exists []; now rewrite app_nil_r.
Qed.

Lemma ensure_directory_keeps_rows depth repo p s :
  keeps_rows s (snd (_ensure_directory depth repo p s)).
Proof.
  destruct (_ensure_directory depth repo p s) as [r s'] eqn:E.
  destruct (ensure_directory_frame _ _ _ _ _ _ E) as [added Ha].
  destruct Ha as (Hd & Hf & _). simpl. split.
  - exists (map dir_key added). now rewrite Hd, map_app.
  - exists []. now rewrite Hf, app_nil_r.
Qed.

Lemma process_file_keeps_rows depth repo path s :
  keeps_rows s (snd (_process_file w depth repo path s)).
Proof.
  pose proof (ensure_directory_keeps_rows depth repo (dirname path) s) as K.
  destruct (_ensure_directory depth repo (dirname path) s) as [[directory|e] s1]
    eqn:Hdir.
  - destruct (process_file_after_directory _ _ _ _ _ _ Hdir) as [Hd [new Hf]].
    eapply keeps_rows_trans; [exact K|]. simpl. split.
    + exists []. now rewrite Hd, app_nil_r.
    + exists new. exact Hf.
  - now rewrite (process_file_no_directory _ _ _ _ _ _ Hdir).
Qed.

(** A property of the session that every [_process_file] call keeps is
    kept by the file loop. *)
Lemma process_files_invariant (Inv : Session -> Prop) depth repo selected :
  (forall path s, Inv s -> Inv (snd (_process_file w depth repo path s))) ->
  forall remaining i r,
    run_repo r = repo -> Inv (run_session r) ->
    Inv (run_session (process_files w depth selected i remaining r)).
Proof.
  intros Step. induction remaining as [|path rest IH]; intros i r Hrepo Hinv;
    [exact Hinv|].
  cbn [process_files].
  pose proof (Step path (run_session r) Hinv) as H. rewrite Hrepo.
  destruct (_process_file w depth repo path (run_session r)) as [res s'].
  apply IH; [reflexivity | exact H].
Qed.

Lemma for_each_invariant {A : Type} (Inv : Session -> Prop) (body : A -> M unit) :
  (forall x s, Inv s -> Inv (snd (body x s))) ->
  forall xs s, Inv s -> Inv (snd (for_each body xs s)).
Proof.
  intros Step. induction xs as [|x xs IH]; intros s Hinv; [exact Hinv|].
  cbn [for_each]. unfold bind.
  pose proof (Step x s Hinv) as H.
  destruct (body x s) as [[u|e] s']; [apply IH|]; exact H.
Qed.

(** One step of the directory loop: it returns, assigns nothing but the
    summary of the rows with the directory's id, and sends at most one
    request. *)
Lemma summarize_directory_step_effect repo directory s :
  fst (summarize_directory_step w repo directory s) = Ok tt /\
  files (snd (summarize_directory_step w repo directory s)) = files s /\
  code_units (snd (summarize_directory_step w repo directory s)) = code_units s /\
  next_id (snd (summarize_directory_step w repo directory s)) = next_id s /\
  map dir_key (directories (snd (summarize_directory_step w repo directory s))) =
    map dir_key (directories s).
Proof.
  unfold summarize_directory_step, bind, select_files, select_directories.
  destruct (file_items _ ++ dir_items "" _)%list as [|x xs]; [simpl; auto|].
  unfold call_llm. destruct (llm w (llm_calls s) _) as [summary|e]; simpl;
    repeat split; try reflexivity.
  rewrite map_map. apply map_ext. intros d.
  destruct (Nat.eqb (dir_id d) (dir_id directory)); reflexivity.
Qed.

Lemma generate_directory_summaries_effect repo s :
  files (snd (_generate_directory_summaries w repo s)) = files s /\
  code_units (snd (_generate_directory_summaries w repo s)) = code_units s /\
  map dir_key (directories (snd (_generate_directory_summaries w repo s))) =
    map dir_key (directories s).
Proof.
  unfold _generate_directory_summaries.
  apply (for_each_invariant
           (fun s' => files s' = files s /\ code_units s' = code_units s /\
                      map dir_key (directories s') = map dir_key (directories s))
           (summarize_directory_step w repo)); [|auto].
  intros d s0 (H1 & H2 & H3).
  destruct (summarize_directory_step_effect repo d s0) as (_ & G1 & G2 & _ & G3).
  repeat split; congruence.
Qed.

(** ** _generate_repository_summary *)

Lemma generate_repository_summary_unfold repo s :
  _generate_repository_summary w repo s =
  match scalar_one_or_none (rows_for repo "" s) with
  | Raise e => (Raise e, s)
  | Ok None => (Ok repo, s)
  | Ok (Some root_dir) =>
      match root_items root_dir s with
      | [] => (Ok repo, s)
      | (_ :: _) as items =>
          let request := summarize_repository (repo_name repo) items in
          (Ok match llm w (llm_calls s) request with
              | Ok summary => set_repo_summary repo summary
              | Raise _ => repo
              end,
           logged s request)
      end
  end.
Proof.
  unfold _generate_repository_summary, bind at 1, select_directories at 1.
  unfold bind at 1, lift at 1.
  fold (rows_for repo "" s).
  destruct (scalar_one_or_none (rows_for repo "" s)) as [[root_dir|]|e];
    [| reflexivity | reflexivity].
  unfold bind at 1. unfold bind at 1, select_files at 1.
  unfold bind at 1, select_directories at 1. unfold ret at 1.
  fold (root_items root_dir s).
  destruct (root_items root_dir s) as [|x xs]; [reflexivity|].
  cbv zeta. unfold call_llm, logged.
  destruct (llm w (llm_calls s) (summarize_repository (repo_name repo) (x :: xs)));
    reflexivity.
Qed.

Lemma generate_repository_summary_effect repo s :
  let s' := snd (_generate_repository_summary w repo s) in
  directories s' = directories s /\ files s' = files s /\
  (at_most_one_root repo s ->
   exists repo', fst (_generate_repository_summary w repo s) = Ok repo' /\
                 last_commit_hash repo' = last_commit_hash repo /\
                 repo_id repo' = repo_id repo /\ repo_name repo' = repo_name repo /\
                 repo_owner repo' = repo_owner repo).
Proof.
  rewrite generate_repository_summary_unfold. cbv zeta.
  unfold at_most_one_root.
  destruct (rows_for repo "" s) as [|root_dir [|d2 rest]].
  - simpl. split; [reflexivity|]. split; [reflexivity|].
    intros _. exists repo. auto.
  - cbn [scalar_one_or_none].
    destruct (root_items root_dir s) as [|x xs].
    + simpl. split; [reflexivity|]. split; [reflexivity|].
      intros _. exists repo. auto.
    + simpl. split; [reflexivity|]. split; [reflexivity|].
      intros _.
      destruct (llm w (llm_calls s)
                  (summarize_repository (repo_name repo) (x :: xs)));
        eexists; split; try reflexivity; auto.
  - simpl. split; [reflexivity|]. split; [reflexivity|]. lia.
Qed.

(** ** The root directory row *)

Lemma rows_for_same_keys repo p s s' :
  map dir_key (directories s') = map dir_key (directories s) ->
  length (rows_for repo p s') = length (rows_for repo p s).
Proof.
  unfold rows_for.
  generalize (directories s') (directories s).
  induction l as [|d l IH]; intros [|d0 l0]; simpl; try discriminate;
    [reflexivity|].
  intros [= H1 H2 H3 H4 H5 H6]. rewrite H2, H4.
  destruct (Nat.eqb (dir_repository_id d0) (repo_id repo) && String.eqb (dir_path d0) p);
    simpl; rewrite (IH l0); auto.
Qed.

Lemma ensure_directory_one_root repo :
  forall depth p s,
    at_most_one_root repo s ->
    at_most_one_root repo (snd (_ensure_directory depth repo p s)).
Proof.
  unfold at_most_one_root.
  induction depth as [|depth IH]; intros p s Hone; [exact Hone|].
  rewrite ensure_directory_step.
  destruct (scalar_one_or_none (rows_for repo p s)) as [[d|]|e] eqn:Rows;
    [exact Hone | | exact Hone].
  apply scalar_one_or_none_none in Rows.
  destruct (negb (truthy (Some p))) eqn:Root.
  - destruct p as [|c p]; [|discriminate].
    unfold add_directory. cbn [snd].
    erewrite rows_for_app by reflexivity.
    rewrite Rows. simpl. rewrite Nat.eqb_refl. simpl. lia.
  - specialize (IH (dirname p) s Hone).
    destruct (_ensure_directory depth repo (dirname p) s) as [[parent|e] s1];
      [|exact IH].
    unfold add_directory. cbn [snd] in *.
    erewrite rows_for_app by reflexivity. simpl.
    destruct p as [|c p]; [discriminate|].
    rewrite andb_false_r. simpl. rewrite app_nil_r. exact IH.
Qed.

Lemma process_file_one_root depth repo path s :
  at_most_one_root repo s ->
  at_most_one_root repo (snd (_process_file w depth repo path s)).
Proof.
  intros Hone.
  pose proof (ensure_directory_one_root repo depth (dirname path) s Hone) as H.
  destruct (_ensure_directory depth repo (dirname path) s) as [[directory|e] s1]
    eqn:Hdir.
  - destruct (process_file_after_directory _ _ _ _ _ _ Hdir) as [Hd _].
    unfold at_most_one_root, rows_for in *. now rewrite Hd.
  - now rewrite (process_file_no_directory _ _ _ _ _ _ Hdir).
Qed.

(** ** Runs *)

(** The run of [analyze_repository] on the job and the repository found,
    once the clone or pull has returned: the session after the file loop
    and the directory summaries decides, through
    [_generate_repository_summary], between the two outcomes. *)
Lemma analyze_repository_steps depth t0 t1 job repo s commit_hash changed :
  clone_or_pull w (repo_owner repo) (repo_name repo) = Ok (commit_hash, changed) ->
  let selected := files_to_process w job repo changed in
  exists s2 s3,
    keeps_rows s s2 /\ (at_most_one_root repo s -> at_most_one_root repo s2) /\
    s3 = snd (_generate_directory_summaries w repo s2) /\
    analyze_repository w depth t0 t1 [job] [repo] s =
    match _generate_repository_summary w repo s3 with
    | (Ok repo', s4) =>
        Finished (Ok tt)
                 (mkRun s4 (completed_job job t0 t1 selected)
                        (set_last_commit_hash repo' (Some commit_hash))
                        (([running_job job t0; counted_job job t0 (length selected)] ++
                          map (file_snapshot job t0 selected) (seq 0 (length selected)) ++
                          [summarized_job job t0 selected;
                           completed_job job t0 t1 selected])%list))
    | (Raise e, s4) =>
        Finished (Raise e)
                 (mkRun s4 (failed_job (summarized_job job t0 selected) e t1) repo
                        (([running_job job t0; counted_job job t0 (length selected)] ++
                          map (file_snapshot job t0 selected) (seq 0 (length selected)) ++
                          [summarized_job job t0 selected;
                           failed_job (summarized_job job t0 selected) e t1])%list))
    end.
Proof.
  intros Hclone selected.
  unfold analyze_repository. cbn [scalar_one].
  unfold analyze_body. cbn [run_repo run_job commit with_job commits run_session].
  rewrite Hclone.
  change (files_to_process w (set_started_at (set_status job "running") (Some t0))
                           repo changed) with selected.
  match goal with
  | |- context [process_files w depth selected 0 selected ?r] => set (r1 := r)
  end.
  destruct (process_files_commits w depth selected selected 0 r1) as (Hc & Hj & Hr).
  set (r2 := process_files w depth selected 0 selected r1) in *.
  exists (run_session r2), (snd (_generate_directory_summaries w repo (run_session r2))).
  split; [|split; [|split; [reflexivity|]]].
  - apply (process_files_invariant (keeps_rows s) depth repo selected);
      [|reflexivity|apply keeps_rows_refl].
    intros path s0 H. eapply keeps_rows_trans; [exact H|].
    apply process_file_keeps_rows.
  - intros Hone.
    apply (process_files_invariant (at_most_one_root repo) depth repo selected);
      [|reflexivity|exact Hone].
    intros path s0 H. now apply process_file_one_root.
  - assert (Hj' : run_job r2 = last_file_job job t0 selected).
    { rewrite Hj. unfold last_file_job, file_snapshot. subst r1. cbn [run_job].
      destruct (length selected); reflexivity. }
    assert (Hc' : commits r2 =
                  ([running_job job t0; counted_job job t0 (length selected)] ++
                   map (file_snapshot job t0 selected) (seq 0 (length selected)))%list).
    { rewrite Hc. subst r1. reflexivity. }
    assert (Hr' : run_repo r2 = repo) by (rewrite Hr; reflexivity).
    rewrite Hr'.
    pose proof (generate_directory_summaries_returns w repo (run_session r2)) as Hd.
    destruct (_generate_directory_summaries w repo (run_session r2))
      as [[u|e] s3]; [|discriminate].
    cbn [commit run_repo run_job run_session commits snd].
    rewrite Hj', Hc'.
    destruct (_generate_repository_summary w repo s3) as [[repo'|e] s4].
    + unfold commit. cbn [commits run_job run_session run_repo].
      rewrite <- !app_assoc. reflexivity.
    + unfold fail_job, commit, with_job. cbn [commits run_job run_session run_repo].
      rewrite <- !app_assoc. reflexivity.
Qed.

(** Once the clone or pull has returned, a run on a repository with at
    most one root directory row always completes: neither a file that
    fails to process, nor a request the language model refuses, nor the
    recursion limit makes the job fail. The job ends completed at 100
    with [total_files] the number of selected paths, every one of them
    counted as processed; the repository records the commit hash; and no
    directory or file row present before the run was removed. *)
Theorem run_completes_whatever_files_and_model_do
        depth t0 t1 job repo s commit_hash changed :
  clone_or_pull w (repo_owner repo) (repo_name repo) = Ok (commit_hash, changed) ->
  at_most_one_root repo s ->
  let selected := files_to_process w job repo changed in
  exists r,
    analyze_repository w depth t0 t1 [job] [repo] s = Finished (Ok tt) r /\
    status (run_job r) = "completed" /\ progress (run_job r) = 100%Z /\
    total_files (run_job r) = Some (length selected) /\
    (selected <> [] -> processed_files (run_job r) = length selected) /\
    last_commit_hash (run_repo r) = Some commit_hash /\
    keeps_rows s (run_session r).
Proof.
  intros Hclone Hone selected.
  destruct (analyze_repository_steps depth t0 t1 job repo s commit_hash changed Hclone)
    as (s2 & s3 & Hkeep & Hroot & Hs3 & Hrun).
  fold selected in Hrun. rewrite Hrun.
  destruct (generate_directory_summaries_effect repo s2) as (Gf & Gc & Gd).
  rewrite <- Hs3 in Gf, Gc, Gd.
  assert (Hone3 : at_most_one_root repo s3).
  { unfold at_most_one_root. rewrite (rows_for_same_keys repo "" s2 s3 Gd).
    now apply Hroot. }
  pose proof (generate_repository_summary_effect repo s3) as Hsum.
  cbv zeta in Hsum.
  destruct Hsum as (Rd & Rf & Rok).
  destruct (Rok Hone3) as (repo' & Hfst & _).
  destruct (_generate_repository_summary w repo s3) as [[repo''|e] s4];
    [|discriminate].
  cbn [fst snd] in *.
  eexists. split; [reflexivity|].
  cbn [run_job run_repo run_session].
  split; [reflexivity|]. split; [reflexivity|].
  split.
  { unfold completed_job, summarized_job, last_file_job.
    destruct (length selected) eqn:L; cbn; [reflexivity | now rewrite L]. }
  split.
  { intros Hne. unfold completed_job, summarized_job, last_file_job.
    destruct (length selected) eqn:L; cbn; [|lia].
    destruct selected; [congruence | discriminate]. }
  split; [reflexivity|].
  eapply keeps_rows_trans; [exact Hkeep|].
  apply keeps_rows_same; congruence.
Qed.

(** A run that fails, after the job and the repository were found,
    failed in the clone or pull or met more than one root directory row;
    it leaves the job failed with the message of the exception and the
    repository with the revision it had, so that the next job
    [sync_repository] creates has the type it would have had before the
    run. After a run that completes, the next job is incremental as soon
    as the commit hash is not empty. *)
Theorem failed_run_keeps_the_revision depth t0 t1 job repo s :
  (forall e r,
     analyze_repository w depth t0 t1 [job] [repo] s = Finished (Raise e) r ->
     status (run_job r) = "failed" /\ error_message (run_job r) = Some e /\
     run_repo r = repo /\
     (forall id, job_type (JobsApi.new_job id (run_repo r)) =
                 job_type (JobsApi.new_job id repo)) /\
     (clone_or_pull w (repo_owner repo) (repo_name repo) = Raise e \/
      1 < length (rows_for repo "" (run_session r)))) /\
  (forall r,
     analyze_repository w depth t0 t1 [job] [repo] s = Finished (Ok tt) r ->
     exists commit_hash changed,
       clone_or_pull w (repo_owner repo) (repo_name repo) = Ok (commit_hash, changed) /\
       last_commit_hash (run_repo r) = Some commit_hash /\
       (commit_hash <> "" ->
        forall id, job_type (JobsApi.new_job id (run_repo r)) = "incremental")).
Proof.
  destruct (clone_or_pull w (repo_owner repo) (repo_name repo))
    as [[commit_hash changed]|e0] eqn:Hclone.
  - destruct (analyze_repository_steps depth t0 t1 job repo s commit_hash changed Hclone)
      as (s2 & s3 & Hkeep & Hroot & Hs3 & Hrun).
    cbv zeta in Hrun. rewrite Hrun.
    pose proof (generate_repository_summary_effect repo s3) as Hsum.
    cbv zeta in Hsum.
    destruct Hsum as (Rd & _ & Rok).
    destruct (_generate_repository_summary w repo s3) as [[repo'|e'] s4] eqn:Hgen.
    + split; [intros e r H; discriminate|].
      intros r [= <-]. exists commit_hash, changed.
      split; [reflexivity|]. split; [reflexivity|].
      intros Hne id. unfold JobsApi.new_job. cbn.
      destruct commit_hash; [congruence | reflexivity].
    + split; [|intros r H; discriminate].
      intros e r [= <- <-]. cbn [run_job run_repo run_session].
      split; [reflexivity|]. split; [reflexivity|]. split; [reflexivity|].
      split; [reflexivity|]. right.
      destruct (Nat.le_gt_cases (length (rows_for repo "" s3)) 1) as [Hle|Hgt].
      * destruct (Rok Hle) as (repo' & Hfst & _). discriminate.
      * cbn [snd] in Rd. unfold rows_for in *. now rewrite Rd.
  - assert (Hrun : analyze_repository w depth t0 t1 [job] [repo] s =
                   Finished (Raise e0)
                            (fail_job e0 t1
                               (commit (mkRun s (running_job job t0) repo [])))).
    { unfold analyze_repository. cbn [scalar_one].
      unfold analyze_body. cbn [run_repo commit]. rewrite Hclone. reflexivity. }
    rewrite Hrun. split; [|intros r H; discriminate].
    intros e r [= <- <-]. cbn.
    repeat split. now left.
Qed.

(** ** The selection of a full job *)

Lemma supported_in_spec repo_path root filenames p :
  In p (supported_in repo_path root filenames) <->
  exists filename,
    In filename filenames /\
    p = relpath (path_join root filename) repo_path /\
    startswith filename "." = false /\ mem filename lockfiles = false /\
    truthy (detect_language p) = true.
Proof.
  induction filenames as [|f rest IH]; cbn [supported_in In].
  - split; [contradiction | intros (x & [] & _)].
  - destruct (startswith f ".") eqn:Hid;
      [|destruct (mem f lockfiles) eqn:Lock;
        [|destruct (truthy (detect_language (relpath (path_join root f) repo_path)))
            eqn:Lang]].
    3:{ cbn [In]. rewrite IH. split.
        - intros [<-|(x & Hx & H)].
          + exists f. auto.
          + exists x. split; [now right | exact H].
        - intros (x & [<-|Hx] & H).
          + left. symmetry. apply H.
          + right. exists x. split; assumption. }
    all: rewrite IH; split;
      [ intros (x & Hx & H); exists x; split; [now right | exact H]
      | intros (x & [<-|Hx] & Hp & H1 & H2 & H3);
        [ subst p; congruence | exists x; auto ] ].
Qed.

(** The paths a full job selects are exactly the files that [os.walk]
    lists under a directory whose path does not contain [.git], whose
    name neither starts with a dot nor is a lockfile, and for which a
    language is detected, taken relative to the repository; hence
    [parse_file] gives a result for every selected path. A directory such
    as [.github] is skipped with the [.git] directory itself. *)
Theorem full_job_selects_the_parsable_files repo_path :
  (forall p,
     In p (_get_all_supported_files w repo_path) <->
     exists root filenames filename,
       In (root, filenames) (os_walk w repo_path) /\ In filename filenames /\
       p = relpath (path_join root filename) repo_path /\
       contains ".git" root = false /\
       startswith filename "." = false /\ mem filename lockfiles = false /\
       truthy (detect_language p) = true) /\
  (forall p content,
     In p (_get_all_supported_files w repo_path) ->
     exists parse_result, parse_file (parse w) p content = Some parse_result).
Proof.
  assert (Spec : forall entries p,
    In p (supported_walk repo_path entries) <->
    exists root filenames filename,
      In (root, filenames) entries /\ In filename filenames /\
      p = relpath (path_join root filename) repo_path /\
      contains ".git" root = false /\
      startswith filename "." = false /\ mem filename lockfiles = false /\
      truthy (detect_language p) = true).
  { induction entries as [|[root filenames] rest IH]; intros p;
      cbn [supported_walk In].
    - split; [contradiction | intros (r & fs & f & [] & _)].
    - destruct (contains ".git" root) eqn:Git.
      + rewrite IH. split.
        * intros (r & fs & f & Hin & H). exists r, fs, f. split; [now right | exact H].
        * intros (r & fs & f & [E|Hin] & Hf & Hp & Hg & H).
          -- injection E as <- <-. congruence.
          -- exists r, fs, f. auto.
      + rewrite in_app_iff, IH, supported_in_spec. split.
        * intros [(f & Hf & H)|(r & fs & f & Hin & H)].
          -- exists root, filenames, f. split; [now left|]. tauto.
          -- exists r, fs, f. split; [now right | exact H].
        * intros (r & fs & f & [E|Hin] & Hf & Hp & Hg & H).
          -- injection E as <- <-. left. exists f. tauto.
          -- right. exists r, fs, f. auto. }
  split; [intros p; apply Spec|].
  intros p content Hin. apply Spec in Hin.
  destruct Hin as (_ & _ & _ & _ & _ & _ & _ & _ & _ & Hlang).
  rewrite (parse_file_unfold (parse w) p content).
  destruct (detect_language p); [eauto | discriminate].
Qed.

(** ** The stored code units *)

Lemma answers_app language log a b :
  answers w language log (a ++ b) =
  (answers w language log a ++
   answers w language (log ++ map (unit_request language) a) b)%list.
Proof.
  revert log. induction a as [|u a IH]; intros log; simpl.
  - now rewrite app_nil_r.
  - rewrite IH, <- app_assoc. reflexivity.
Qed.

(** What [_create_code_unit] stores for a unit and the units nested in
    it. *)
Lemma create_code_unit_stores file_record language :
  forall u parent_id s,
    let s' := snd (_create_code_unit w file_record language parent_id u s) in
    exists tail,
      code_units s' =
        (code_units s ++
         fst (_create_code_unit w file_record language parent_id u s) :: tail)%list /\
      stored_as (file_id file_record) parent_id u
                (fst (_create_code_unit w file_record language parent_id u s) :: tail) /\
      map cu_id (fst (_create_code_unit w file_record language parent_id u s) :: tail) =
        seq (next_id s) (length (preorder u)) /\
      next_id s' = next_id s + length (preorder u) /\
      llm_calls s' = (llm_calls s ++ map (unit_request language) (preorder u))%list /\
      map cu_description
          (fst (_create_code_unit w file_record language parent_id u s) :: tail) =
        answers w language (llm_calls s) (preorder u) /\
      files s' = files s /\ directories s' = directories s.
Proof.
  induction u as [ty nm sl el sg src chs md IH] using CodeUnitInfo_forall_ind.
  intros parent_id s.
  assert (Hfold : forall pid s0, pid < next_id s0 ->
    let s1 := fold_left
                (fun acc child_info =>
                   snd (_create_code_unit w file_record language (Some pid)
                                          child_info acc))
                chs s0 in
    exists segments,
      code_units s1 = (code_units s0 ++ concat segments)%list /\
      Forall2 (stored_as (file_id file_record) (Some pid)) chs segments /\
      map cu_id (concat segments) = seq (next_id s0) (length (all_units chs)) /\
      next_id s1 = next_id s0 + length (all_units chs) /\
      llm_calls s1 = (llm_calls s0 ++ map (unit_request language) (all_units chs))%list /\
      map cu_description (concat segments) =
        answers w language (llm_calls s0) (all_units chs) /\
      files s1 = files s0 /\ directories s1 = directories s0 /\
      Forall (fun r => exists p, cu_parent_id r = Some p /\ pid <= p /\ p < cu_id r)
             (concat segments)).
  { intros pid. induction chs as [|c chs IHchs]; intros s0 Hpid.
    - exists []. simpl. rewrite !app_nil_r, Nat.add_0_r.
      repeat split; constructor.
    - inversion IH as [|? ? Hc Hrest]; subst.
      destruct (Hc (Some pid) s0) as (tail & C1 & C2 & C3 & C4 & C5 & C6 & C7 & C8).
      set (row := fst (_create_code_unit w file_record language (Some pid) c s0)) in *.
      set (sc := snd (_create_code_unit w file_record language (Some pid) c s0)) in *.
      assert (Hpid' : pid < next_id sc) by (rewrite C4; lia).
      destruct (IHchs Hrest sc Hpid')
        as (segments & G1 & G2 & G3 & G4 & G5 & G6 & G7 & G8 & G9).
      exists ((row :: tail) :: segments).
      cbn [fold_left]. fold sc.
      unfold all_units. cbn [flat_map concat]. fold (all_units chs).
      rewrite !length_app, !map_app, seq_app, answers_app.
      rewrite G1, G3, G4, G5, G6, G7, G8, C1, C3, C4, C5, C6, C7, C8.
      rewrite <- !app_assoc.
      split; [reflexivity|]. split; [constructor; assumption|].
      split; [reflexivity|]. split; [lia|].
      split; [reflexivity|]. split; [reflexivity|].
      split; [reflexivity|]. split; [reflexivity|].
      apply Forall_app. split; [|exact G9].
      assert (Hids : Forall (fun r => next_id s0 <= cu_id r) (row :: tail)).
      { apply Forall_forall. intros r Hr.
        apply (in_map cu_id) in Hr. rewrite C3 in Hr.
        apply in_seq in Hr. lia. }
      inversion C2 as [? ? ? segs F1 F2 F3 F4 F5 F6 F7 F8 F9 F10 E1 E2 E3]; subst.
      inversion Hids as [|? ? Hrow Htail]; subst.
      constructor.
      + exists pid. repeat split; [exact F2 | lia | lia].
      + rewrite Forall_forall in F10, Htail. apply Forall_forall. intros r Hr.
        destruct (F10 r Hr) as (p & P1 & P2 & P3).
        exists p. repeat split; [exact P1 | lia | lia]. }
  rewrite create_code_unit_row. cbv zeta. cbn [fst snd children].
  match goal with
  | |- context [fold_left _ chs ?x] => set (s1 := x)
  end.
  match goal with
  | |- context [mkCodeUnit (next_id s) ?a ?b ?c ?d ?e ?f ?g ?h ?i] =>
      set (row := mkCodeUnit (next_id s) a b c d e f g h i)
  end.
  destruct (Hfold (next_id s) s1) as (segments & G1 & G2 & G3 & G4 & G5 & G6 & G7 & G8 & G9).
  { subst s1. simpl. lia. }
  exists (concat segments).
  rewrite preorder_unfold. cbn [children length map seq answers].
  fold (all_units chs).
  change (cu_id row) with (next_id s).
  rewrite G1, G4, G5, G7, G8. subst s1. cbn [code_units next_id llm_calls files directories].
  rewrite <- !app_assoc.
  split; [reflexivity|].
  split.
  { apply (stored_unit (file_id file_record) parent_id
                       (mkCodeUnitInfo ty nm sl el sg src chs md) row segments);
      try reflexivity; assumption. }
  split; [now rewrite G3|].
  split; [lia|].
  split; [reflexivity|].
  split; [subst row; cbn [cu_description]; now rewrite G6|].
  split; reflexivity.
Qed.

Lemma create_code_units_stores file_record language units s :
  let s' := snd (create_code_units w file_record language units s) in
  exists segments,
    code_units s' = (code_units s ++ concat segments)%list /\
    Forall2 (stored_as (file_id file_record) None) units segments /\
    map cu_id (concat segments) = seq (next_id s) (length (all_units units)) /\
    map cu_description (concat segments) =
      answers w language (llm_calls s) (all_units units) /\
    llm_calls s' = (llm_calls s ++ map (unit_request language) (all_units units))%list /\
    next_id s' = next_id s + length (all_units units) /\
    files s' = files s /\ directories s' = directories s.
Proof.
  revert s. induction units as [|u rest IH]; intros s.
  - exists []. simpl. rewrite !app_nil_r, Nat.add_0_r. repeat split. constructor.
  - cbv zeta. rewrite create_code_units_cons.
    destruct (create_code_unit_stores file_record language u None s)
      as (tail & C1 & C2 & C3 & C4 & C5 & C6 & C7 & C8).
    destruct (_create_code_unit w file_record language None u s) as [row sc].
    cbn [fst snd] in *.
    destruct (IH sc) as (segments & G1 & G2 & G3 & G4 & G5 & G6 & G7 & G8).
    destruct (create_code_units w file_record language rest sc) as [sums s2].
    cbn [fst snd] in *.
    exists ((row :: tail) :: segments).
    unfold all_units. cbn [flat_map concat]. fold (all_units rest).
    rewrite !length_app, !map_app, seq_app, answers_app.
    rewrite G1, G3, G4, G5, G6, G7, G8, C1, C3, C4, C5, C6, C7, C8.
    rewrite <- !app_assoc.
    split; [reflexivity|]. split; [constructor; assumption|].
    split; [reflexivity|]. split; [reflexivity|].
    split; [reflexivity|]. split; [lia|]. split; reflexivity.
Qed.

Lemma stored_as_length fid :
  forall u parent rows,
    stored_as fid parent u rows -> length rows = length (preorder u).
Proof.
  induction u as [ty nm sl el sg src chs md IH] using CodeUnitInfo_forall_ind.
  intros parent rows H.
  inversion H as [? ? row segments F1 F2 F3 F4 F5 F6 F7 F8 F9 F10 E1 E2 E3]; subst.
  rewrite preorder_unfold. cbn [length children] in *. f_equal.
  clear - IH F9. revert IH.
  induction F9 as [|c seg chs' segs Hc Hrest IHrest]; intros IH; [reflexivity|].
  inversion IH as [|? ? IHc IHchs]; subst.
  unfold all_units. cbn [concat flat_map]. fold (all_units chs').
  rewrite !length_app. rewrite (IHc _ _ Hc). now rewrite IHrest.
Qed.

(** The rows the unit loop of [_process_file] adds mirror the forest of
    the parse result: every unit, nested or not, is stored as one row
    with its type, name, lines, signature and metadata, a unit before
    the units nested in it; a top-level row has no parent and a nested
    row points to the row of the unit that holds it. A top-level unit
    takes as many rows as it has units. The keys are drawn in this
    order, one description request is sent per unit in this order, and
    each row holds the answer to its request, or nothing when the
    request raised. *)
Theorem stored_rows_mirror_the_forest file_record language units s :
  let s' := snd (create_code_units w file_record language units s) in
  exists segments,
    code_units s' = (code_units s ++ concat segments)%list /\
    Forall2 (stored_as (file_id file_record) None) units segments /\
    Forall2 (fun u rows => length rows = length (preorder u)) units segments /\
    map cu_id (concat segments) = seq (next_id s) (length (all_units units)) /\
    map cu_description (concat segments) =
      answers w language (llm_calls s) (all_units units) /\
    llm_calls s' = (llm_calls s ++ map (unit_request language) (all_units units))%list /\
    next_id s' = next_id s + length (all_units units) /\
    files s' = files s /\ directories s' = directories s.
Proof.
  destruct (create_code_units_stores file_record language units s)
    as (segments & G1 & G2 & G3 & G4 & G5 & G6 & G7 & G8).
  exists segments.
  split; [exact G1|]. split; [exact G2|].
  split.
  { clear - G2. induction G2 as [|u rows units' segs Hu Hrest IH]; constructor.
    - apply (stored_as_length _ _ _ _ Hu).
    - exact IH. }
  repeat split; assumption.
Qed.

(** ** The file row after processing *)

Lemma replace_file_in x l g :
  In g (replace_file x l) -> file_id g = file_id x -> g = x.
Proof.
  unfold replace_file. intros Hin Hid. apply in_map_iff in Hin.
  destruct Hin as (a & Ha & _).
  destruct (Nat.eqb (file_id a) (file_id x)) eqn:E; [now symmetry|].
  apply Nat.eqb_neq in E. subst g. contradiction.
Qed.

Lemma replace_file_twice x y l :
  file_id y = file_id x ->
  replace_file y (replace_file x l) = replace_file y l.
Proof.
  intros Hid. unfold replace_file. rewrite map_map. apply map_ext. intros a.
  destruct (Nat.eqb (file_id a) (file_id x)) eqn:E.
  - apply Nat.eqb_eq in E.
    replace (Nat.eqb (file_id x) (file_id y)) with true
      by (symmetry; apply Nat.eqb_eq; congruence).
    replace (Nat.eqb (file_id a) (file_id y)) with true
      by (symmetry; apply Nat.eqb_eq; congruence).
    reflexivity.
  - reflexivity.
Qed.

Lemma replace_file_fresh x l :
  Forall (fun g => file_id g < file_id x) l -> replace_file x l = l.
Proof.
  induction 1 as [|a l Ha _ IH]; simpl; [reflexivity|].
  rewrite IH. destruct (Nat.eqb (file_id a) (file_id x)) eqn:E; [|reflexivity].
  apply Nat.eqb_eq in E. lia.
Qed.

Lemma filter_replace_file (p : File -> bool) x l :
  (forall g, In g l -> file_id g = file_id x -> p g = p x) ->
  filter p (replace_file x l) = replace_file x (filter p l).
Proof.
  induction l as [|a l IH]; intros H; simpl; [reflexivity|].
  rewrite IH by (intros g Hg; apply H; now right).
  destruct (Nat.eqb (file_id a) (file_id x)) eqn:E.
  - apply Nat.eqb_eq in E. rewrite <- (H a (or_introl eq_refl) E).
    destruct (p a); simpl; [|reflexivity].
    apply Nat.eqb_eq in E. now rewrite E.
  - destruct (p a); simpl; [now rewrite E | reflexivity].
Qed.

Lemma same_key_same_row (l : list File) f g :
  NoDup (map file_id l) -> In f l -> In g l -> file_id g = file_id f -> g = f.
Proof.
  induction l as [|a l IH]; simpl; intros Hnd Hf Hg Hid; [contradiction|].
  inversion Hnd as [|? ? Hnot Hnd']; subst.
  destruct Hf as [<-|Hf], Hg as [<-|Hg]; try reflexivity.
  - exfalso. apply Hnot. rewrite <- Hid. now apply in_map.
  - exfalso. apply Hnot. rewrite Hid. now apply in_map.
  - now apply IH.
Qed.

(** The file table after [_process_file] has stored a file that is new
    or has changed: the row of the file holds the new hash, language and
    line count, and keeps directory, path and name. *)
Lemma process_file_stored_files depth repo path s directory s1 content existing pr :
  _ensure_directory depth repo (dirname path) s = (Ok directory, s1) ->
  read_text w (path_join (get_repo_path w (repo_owner repo) (repo_name repo)) path)
    = Some content ->
  scalar_one_or_none (file_rows directory path s1) = Ok existing ->
  is_unchanged existing (sha256_hexdigest w content) = false ->
  parse_file (parse w) path content = Some pr ->
  Forall (fun g => file_id g < next_id s1) (files s1) ->
  exists row,
    file_content_hash row = Some (sha256_hexdigest w content) /\
    file_language row = Some (ParserService.language pr) /\
    file_line_count row = Some (line_count pr) /\
    directories (snd (_process_file w depth repo path s)) = directories s1 /\
    match existing with
    | Some f =>
        file_id row = file_id f /\ file_directory_id row = file_directory_id f /\
        file_path row = file_path f /\ file_name row = file_name f /\
        files (snd (_process_file w depth repo path s)) = replace_file row (files s1)
    | None =>
        file_id row = next_id s1 /\ file_directory_id row = dir_id directory /\
        file_path row = path /\ file_name row = basename path /\
        files (snd (_process_file w depth repo path s)) = (files s1 ++ [row])%list
    end.
Proof.
  intros Hdir Hread Hrows Hch Hparse Hfresh.
  rewrite (process_file_after_read w _ _ _ _ _ _ _ Hdir Hread).
  rewrite Hrows, Hch, Hparse.
  destruct (prepare_file_record directory path (sha256_hexdigest w content) pr
              existing s1) as [r s2] eqn:Hprep.
  assert (Hrec : exists file_record,
             r = Ok file_record /\ directories s2 = directories s1 /\
             file_content_hash file_record = Some (sha256_hexdigest w content) /\
             file_language file_record = Some (ParserService.language pr) /\
             file_line_count file_record = Some (line_count pr) /\
             match existing with
             | Some f =>
                 file_id file_record = file_id f /\
                 file_directory_id file_record = file_directory_id f /\
                 file_path file_record = file_path f /\
                 file_name file_record = file_name f /\
                 files s2 = replace_file file_record (files s1)
             | None =>
                 file_id file_record = next_id s1 /\
                 file_directory_id file_record = dir_id directory /\
                 file_path file_record = path /\
                 file_name file_record = basename path /\
                 files s2 = (files s1 ++ [file_record])%list
             end).
  { unfold prepare_file_record in Hprep. destruct existing as [f|].
    - unfold bind, update_file, delete_code_units, ret in Hprep.
      injection Hprep as <- <-. eexists. repeat split.
    - unfold add_file in Hprep. injection Hprep as <- <-.
      eexists. repeat split. }
  destruct Hrec as (file_record & -> & Hd2 & Hh & Hl & Hc & Hex).
  destruct (create_code_units_frame file_record (ParserService.language pr)
              (ParserService.code_units pr) s2) as [Hf3 Hd3].
  destruct (create_code_units w file_record (ParserService.language pr)
              (ParserService.code_units pr) s2) as [summaries s3].
  cbn [snd] in Hf3, Hd3.
  assert (Keep : exists row,
    file_content_hash row = Some (sha256_hexdigest w content) /\
    file_language row = Some (ParserService.language pr) /\
    file_line_count row = Some (line_count pr) /\
    directories s3 = directories s1 /\
    match existing with
    | Some f =>
        file_id row = file_id f /\ file_directory_id row = file_directory_id f /\
        file_path row = file_path f /\ file_name row = file_name f /\
        files s3 = replace_file row (files s1)
    | None =>
        file_id row = next_id s1 /\ file_directory_id row = dir_id directory /\
        file_path row = path /\ file_name row = basename path /\
        files s3 = (files s1 ++ [row])%list
    end).
  { exists file_record. rewrite Hf3, Hd3. repeat split; try assumption. }
  destruct summaries as [|x xs]; [exact Keep|].
  unfold call_llm.
  destruct (llm w (llm_calls s3)
              (summarize_file path (x :: xs) (ParserService.language pr)))
    as [summary|e]; [|exact Keep].
  exists (set_file_summary file_record summary).
  unfold update_file. cbn [snd files directories].
  fold (replace_file (set_file_summary file_record summary) (files s3)).
  rewrite Hf3.
  split; [exact Hh|]. split; [exact Hl|]. split; [exact Hc|].
  split; [congruence|].
  destruct existing as [f|].
  - destruct Hex as (E1 & E2 & E3 & E4 & E5).
    split; [exact E1|]. split; [exact E2|]. split; [exact E3|]. split; [exact E4|].
    rewrite E5. now apply replace_file_twice.
  - destruct Hex as (E1 & E2 & E3 & E4 & E5).
    split; [exact E1|]. split; [exact E2|]. split; [exact E3|]. split; [exact E4|].
    rewrite E5. unfold replace_file. rewrite map_app. cbn [map].
    replace (Nat.eqb (file_id file_record)
                     (file_id (set_file_summary file_record summary))) with true
      by (symmetry; apply Nat.eqb_refl).
    f_equal.
    apply (replace_file_fresh (set_file_summary file_record summary)).
    cbn [file_id set_file_summary]. now rewrite E1.
Qed.

Lemma ensure_directory_again repo p directory s1 s2 depth :
  rows_for repo p s1 = [directory] ->
  directories s2 = directories s1 ->
  _ensure_directory (S depth) repo p s2 = (Ok directory, s2).
Proof.
  intros Hrows Hd. rewrite ensure_directory_step.
  replace (rows_for repo p s2) with (rows_for repo p s1)
    by (unfold rows_for; now rewrite Hd).
  now rewrite Hrows.
Qed.

(** Processing a path a second time, with the working tree as it was,
    changes nothing: a file that was stored is found with the hash of
    its content and skipped, so the requests of the first pass, answered
    or not, are not sent again; a path that was not stored is again not
    stored. *)
Theorem processing_twice_changes_nothing depth repo path s directory s1 :
  _ensure_directory depth repo (dirname path) s = (Ok directory, s1) ->
  file_keys_ok s ->
  snd (_process_file w depth repo path (snd (_process_file w depth repo path s))) =
  snd (_process_file w depth repo path s).
Proof.
  intros Hdir [Hnodup Hfresh].
  destruct depth as [|depth]; [discriminate|].
  pose proof (ensure_directory_found _ _ _ _ _ _ Hdir) as Hrow.
  destruct (ensure_directory_frame _ _ _ _ _ _ Hdir) as [added Ha].
  destruct Ha as (_ & Hf & _ & _ & Hn & _).
  assert (Hfresh1 : Forall (fun g => file_id g < next_id s1) (files s1)).
  { rewrite Hf, Hn. eapply Forall_impl; [|exact Hfresh]. simpl. intros; lia. }
  assert (Hnodup1 : NoDup (map file_id (files s1))) by now rewrite Hf.
  pose proof (ensure_directory_again repo (dirname path) directory s1 s1 depth
                Hrow eq_refl) as Hdir1.
  destruct (read_text w (path_join (get_repo_path w (repo_owner repo) (repo_name repo))
                           path)) as [content|] eqn:Hread.
  2:{ rewrite (process_file_unreadable _ _ _ _ _ _ Hdir Hread). cbn [snd].
      now rewrite (process_file_unreadable _ _ _ _ _ _ Hdir1 Hread). }
  assert (Skip : snd (_process_file w (S depth) repo path s) = s1 ->
                 snd (_process_file w (S depth) repo path
                        (snd (_process_file w (S depth) repo path s))) =
                 snd (_process_file w (S depth) repo path s)).
  { intros E. rewrite E.
    rewrite (process_file_after_read w _ _ _ _ _ _ _ Hdir Hread) in E.
    rewrite (process_file_after_read w _ _ _ _ _ _ _ Hdir1 Hread). exact E. }
  destruct (scalar_one_or_none (file_rows directory path s1)) as [existing|e] eqn:Hrows.
  2:{ apply Skip. rewrite (process_file_after_read w _ _ _ _ _ _ _ Hdir Hread).
      now rewrite Hrows. }
  destruct (is_unchanged existing (sha256_hexdigest w content)) eqn:Hch.
  { apply Skip. rewrite (process_file_after_read w _ _ _ _ _ _ _ Hdir Hread).
    now rewrite Hrows, Hch. }
  destruct (parse_file (parse w) path content) as [pr|] eqn:Hparse.
  2:{ apply Skip. rewrite (process_file_after_read w _ _ _ _ _ _ _ Hdir Hread).
      now rewrite Hrows, Hch, Hparse. }
  destruct (process_file_stored_files (S depth) repo path s directory s1 content existing pr
              Hdir Hread Hrows Hch Hparse Hfresh1)
    as (row & Hh & _ & _ & Hd & Hex).
  set (s' := snd (_process_file w (S depth) repo path s)) in *.
  pose proof (ensure_directory_again repo (dirname path) directory s1 s' depth
                Hrow Hd) as Hdir'.
  rewrite (process_file_after_read w _ _ _ _ _ _ _ Hdir' Hread).
  assert (Hfound : file_rows directory path s' = [row]).
  { unfold file_rows. destruct existing as [f|].
    - destruct Hex as (E1 & E2 & E3 & E4 & E5). rewrite E5.
      apply scalar_one_or_none_some in Hrows. unfold file_rows in Hrows.
      assert (Hin : In f (files s1)).
      { eapply proj1. apply filter_In. rewrite Hrows. now left. }
      rewrite filter_replace_file.
      + rewrite Hrows. unfold replace_file. simpl.
        rewrite E1, Nat.eqb_refl. reflexivity.
      + intros g Hg Hid. rewrite E2, E3.
        rewrite (same_key_same_row (files s1) f g Hnodup1 Hin Hg); [reflexivity|].
        congruence.
    - destruct Hex as (E1 & E2 & E3 & E4 & E5). rewrite E5.
      apply scalar_one_or_none_none in Hrows. unfold file_rows in Hrows.
      rewrite filter_app, Hrows. simpl.
      rewrite E2, E3, Nat.eqb_refl, String.eqb_refl. reflexivity. }
  rewrite Hfound. cbn [scalar_one_or_none is_unchanged].
  rewrite Hh. cbn [option_string_eqb]. rewrite String.eqb_refl. reflexivity.
Qed.

(** A file that has changed gets its code units replaced: the rows of
    the file stored before are deleted, whether or not the new content
    still holds their units, and the rows of the new forest are appended
    under the key the file already had; the code units of other files
    stay. A changed file in which no unit is found sends no request and
    keeps the summary written for its earlier content. *)
Theorem changed_file_gets_its_units_replaced
        depth repo path s directory s1 content f pr :
  _ensure_directory depth repo (dirname path) s = (Ok directory, s1) ->
  read_text w (path_join (get_repo_path w (repo_owner repo) (repo_name repo)) path)
    = Some content ->
  file_rows directory path s1 = [f] ->
  file_content_hash f <> Some (sha256_hexdigest w content) ->
  parse_file (parse w) path content = Some pr ->
  let s' := snd (_process_file w depth repo path s) in
  let f' := set_file_parsed f (Some (sha256_hexdigest w content))
                            (Some (ParserService.language pr))
                            (Some (line_count pr)) in
  (exists segments,
     Forall2 (stored_as (file_id f) None) (ParserService.code_units pr) segments /\
     code_units s' =
       (filter (fun u => negb (Nat.eqb (cu_file_id u) (file_id f))) (code_units s) ++
        concat segments)%list /\
     map cu_description (concat segments) =
       answers w (ParserService.language pr) (llm_calls s)
               (all_units (ParserService.code_units pr))) /\
  (ParserService.code_units pr = [] ->
   files s' = replace_file f' (files s) /\ file_summary f' = file_summary f /\
   llm_calls s' = llm_calls s).
Proof.
  intros Hdir Hread Hrows Hhash Hparse s' f'.
  destruct (ensure_directory_frame _ _ _ _ _ _ Hdir) as [added Ha].
  destruct Ha as (_ & Hf & Hc & Hl & _).
  assert (Hch : is_unchanged (Some f) (sha256_hexdigest w content) = false).
  { unfold is_unchanged, option_string_eqb.
    destruct (file_content_hash f) as [h|]; [|reflexivity].
    destruct (String.eqb h (sha256_hexdigest w content)) eqn:E; [|reflexivity].
    apply String.eqb_eq in E. congruence. }
  assert (Hs' : s' =
    snd (let '(summaries, s3) :=
           create_code_units w f' (ParserService.language pr)
             (ParserService.code_units pr)
             (mkSession (directories s1) (replace_file f' (files s1))
                        (filter (fun u => negb (Nat.eqb (cu_file_id u) (file_id f')))
                                (code_units s1))
                        (next_id s1) (llm_calls s1)) in
         match summaries with
         | [] => (Ok tt, s3)
         | _ :: _ =>
             match call_llm w (summarize_file path summaries
                                 (ParserService.language pr)) s3 with
             | (Ok summary, s4) => update_file (set_file_summary f' summary) s4
             | (Raise e, s4) => (Raise e, s4)
             end
         end)).
  { subst s'. rewrite (process_file_after_read w _ _ _ _ _ _ _ Hdir Hread).
    rewrite Hrows. cbn [scalar_one_or_none]. rewrite Hch, Hparse. reflexivity. }
  set (s2 := mkSession (directories s1) (replace_file f' (files s1))
                       (filter (fun u => negb (Nat.eqb (cu_file_id u) (file_id f')))
                               (code_units s1))
                       (next_id s1) (llm_calls s1)) in *.
  destruct (create_code_units_stores f' (ParserService.language pr)
              (ParserService.code_units pr) s2)
    as (segments & G1 & G2 & G3 & G4 & G5 & G6 & G7 & G8).
  split.
  - exists segments. split; [exact G2|].
    assert (Hcu : code_units s' =
                  code_units (snd (create_code_units w f' (ParserService.language pr)
                                     (ParserService.code_units pr) s2))).
    { rewrite Hs'.
      destruct (create_code_units w f' (ParserService.language pr)
                  (ParserService.code_units pr) s2) as [summaries s3].
      destruct summaries as [|x xs]; [reflexivity|].
      unfold call_llm.
      destruct (llm w (llm_calls s3) _); reflexivity. }
    rewrite Hcu, G1. subst s2. cbn [code_units llm_calls] in *.
    rewrite Hc, Hl in *. split; [reflexivity | exact G4].
  - intros Hempty. rewrite Hempty in Hs'. cbn in Hs'. rewrite Hs'.
    subst s2. cbn [files llm_calls]. rewrite Hf, Hl. auto.
Qed.

(** ** _generate_directory_summaries *)

Lemma file_items_nil fs :
  Forall (fun f => truthy (file_summary f) = false) fs -> file_items fs = [].
Proof.
  induction 1 as [|f fs Hf _ IH]; [reflexivity|].
  unfold file_items in *. cbn [flat_map]. rewrite IH, app_nil_r.
  destruct (file_summary f) as [sm|]; [|reflexivity]. now rewrite Hf.
Qed.

Lemma dir_items_nil suffix ds :
  Forall (fun d => truthy (dir_summary d) = false) ds -> dir_items suffix ds = [].
Proof.
  induction 1 as [|d ds Hd _ IH]; [reflexivity|].
  unfold dir_items in *. cbn [flat_map]. rewrite IH, app_nil_r.
  destruct (dir_summary d) as [sm|]; [|reflexivity]. now rewrite Hd.
Qed.

Lemma Forall_filter_keeps {A : Type} (P : A -> Prop) (p : A -> bool) (l : list A) :
  Forall P l -> Forall P (filter p l).
Proof.
  induction 1 as [|a l Ha _ IH]; simpl; [constructor|].
  destruct (p a); [constructor|]; assumption.
Qed.

Lemma summarize_directory_step_calls repo directory s :
  exists calls,
    llm_calls (snd (summarize_directory_step w repo directory s)) =
      (llm_calls s ++ calls)%list /\
    length calls <= 1 /\ forallb is_directory_request calls = true.
Proof.
  unfold summarize_directory_step, bind, select_files, select_directories.
  destruct (file_items _ ++ dir_items "" _)%list as [|x xs].
  - exists []. simpl. rewrite app_nil_r. auto.
  - unfold call_llm. destruct (llm w (llm_calls s) _) as [summary|e];
      eexists; simpl; (split; [reflexivity|]); auto.
Qed.

(** [_generate_directory_summaries] does not raise and writes nothing
    but directory summaries: files and code units stay, and every
    directory row keeps its id, repository, parent, path and name. It
    sends requests for directory summaries only, at most one for each
    directory row of the repository, and none at all, leaving the
    session as it is, when no file and no directory has a summary. *)
Theorem directory_summaries_write_summaries_only repo s :
  let s' := snd (_generate_directory_summaries w repo s) in
  fst (_generate_directory_summaries w repo s) = Ok tt /\
  files s' = files s /\ code_units s' = code_units s /\
  map dir_key (directories s') = map dir_key (directories s) /\
  (exists calls,
     llm_calls s' = (llm_calls s ++ calls)%list /\
     length calls <=
       length (filter (fun d => Nat.eqb (dir_repository_id d) (repo_id repo))
                      (directories s)) /\
     forallb is_directory_request calls = true) /\
  (Forall (fun f => truthy (file_summary f) = false) (files s) ->
   Forall (fun d => truthy (dir_summary d) = false) (directories s) ->
   s' = s).
Proof.
  cbv zeta.
  destruct (generate_directory_summaries_effect repo s) as (Hf & Hc & Hd).
  split; [apply generate_directory_summaries_returns|].
  split; [exact Hf|]. split; [exact Hc|]. split; [exact Hd|].
  unfold _generate_directory_summaries. split.
  - assert (Count : forall ds s0,
      exists calls,
        llm_calls (snd (for_each (summarize_directory_step w repo) ds s0)) =
          (llm_calls s0 ++ calls)%list /\
        length calls <= length ds /\ forallb is_directory_request calls = true).
    { induction ds as [|d ds IH]; intros s0.
      - exists []. simpl. rewrite app_nil_r. auto.
      - cbn [for_each]. unfold bind.
        destruct (summarize_directory_step_calls repo d s0) as (c1 & C1 & C2 & C3).
        pose proof (summarize_directory_step_effect repo d s0) as (Hok & _).
        destruct (summarize_directory_step w repo d s0) as [[u|e] s1];
          [|discriminate].
        cbn [snd] in C1.
        destruct (IH s1) as (c2 & D1 & D2 & D3).
        exists (c1 ++ c2)%list. rewrite D1, C1, <- app_assoc.
        split; [reflexivity|]. rewrite length_app, forallb_app, C3, D3.
        cbn [length]. split; [lia | reflexivity]. }
    destruct (Count (summarization_order repo s) s) as (calls & C1 & C2 & C3).
    exists calls. split; [exact C1|]. split; [|exact C3].
    unfold summarization_order in C2.
    rewrite <- (Permutation_length (order_by_path_desc_perm _)) in C2. exact C2.
  - intros Hfiles Hdirs.
    generalize (summarization_order repo s).
    induction l as [|d ds IH]; [reflexivity|].
    cbn [for_each]. unfold bind.
    assert (Step : summarize_directory_step w repo d s = (Ok tt, s)).
    { unfold summarize_directory_step, bind, select_files, select_directories.
      rewrite file_items_nil by (apply Forall_filter_keeps; exact Hfiles).
      rewrite dir_items_nil by (apply Forall_filter_keeps; exact Hdirs).
      reflexivity. }
    rewrite Step. exact IH.
Qed.

(** ** Summaries flow upwards in one pass *)

Lemma for_each_summarize_app repo a b s :
  snd (for_each (summarize_directory_step w repo) (a ++ b) s) =
  snd (for_each (summarize_directory_step w repo) b
         (snd (for_each (summarize_directory_step w repo) a s))).
Proof.
  revert s. induction a as [|d a IH]; intros s; [reflexivity|].
  cbn [app for_each]. unfold bind.
  pose proof (summarize_directory_step_effect repo d s) as (Hok & _).
  destruct (summarize_directory_step w repo d s) as [[u|e] s1]; [|discriminate].
  apply IH.
Qed.

Lemma for_each_summarize_cons repo d b s :
  snd (for_each (summarize_directory_step w repo) (d :: b) s) =
  snd (for_each (summarize_directory_step w repo) b
         (snd (summarize_directory_step w repo d s))).
Proof.
  cbn [for_each]. unfold bind.
  pose proof (summarize_directory_step_effect repo d s) as (Hok & _).
  destruct (summarize_directory_step w repo d s) as [[u|e] s1]; [|discriminate].
  reflexivity.
Qed.

(** The directory rows after a step. *)
Lemma summarize_directory_step_unfold repo directory s :
  let items :=
    (file_items (filter (fun f => Nat.eqb (file_directory_id f) (dir_id directory))
                        (files s)) ++
     dir_items "" (filter (fun d => option_nat_eqb (dir_parent_id d)
                                                   (Some (dir_id directory)))
                          (directories s)))%list in
  directories (snd (summarize_directory_step w repo directory s)) =
  match items with
  | [] => directories s
  | _ :: _ =>
      match llm w (llm_calls s)
                (summarize_directory
                   (if truthy (Some (dir_path directory))
                    then dir_path directory else repo_name repo)
                   (file_items (filter (fun f => Nat.eqb (file_directory_id f)
                                                         (dir_id directory))
                                       (files s)))
                   (dir_items "" (filter (fun d => option_nat_eqb
                                                     (dir_parent_id d)
                                                     (Some (dir_id directory)))
                                         (directories s)))) with
      | Ok summary =>
          map (fun d => if Nat.eqb (dir_id d) (dir_id directory)
                        then set_dir_summary d summary else d) (directories s)
      | Raise _ => directories s
      end
  end.
Proof.
  cbv zeta.
  unfold summarize_directory_step, bind, select_files, select_directories.
  destruct (file_items _ ++ dir_items "" _)%list as [|x xs]; [reflexivity|].
  unfold call_llm. destruct (llm w (llm_calls s) _); reflexivity.
Qed.

Lemma find_after_assignment id directory summary l :
  find (fun d => Nat.eqb (dir_id d) id)
       (map (fun d => if Nat.eqb (dir_id d) (dir_id directory)
                      then set_dir_summary d summary else d) l) =
  match find (fun d => Nat.eqb (dir_id d) id) l with
  | Some d => Some (if Nat.eqb (dir_id d) (dir_id directory)
                    then set_dir_summary d summary else d)
  | None => None
  end.
Proof.
  induction l as [|a l IH]; simpl; [reflexivity|].
  replace (dir_id (if Nat.eqb (dir_id a) (dir_id directory)
                   then set_dir_summary a summary else a)) with (dir_id a)
    by (destruct (Nat.eqb (dir_id a) (dir_id directory)); reflexivity).
  destruct (Nat.eqb (dir_id a) id); [reflexivity | exact IH].
Qed.

Lemma row_summary_other repo directory s id :
  id <> dir_id directory ->
  row_summary id (snd (summarize_directory_step w repo directory s)) =
  row_summary id s.
Proof.
  intros Hne. unfold row_summary.
  pose proof (summarize_directory_step_unfold repo directory s) as H.
  cbv zeta in H. rewrite H. clear H.
  destruct (file_items _ ++ dir_items "" _)%list as [|x xs]; [reflexivity|].
  destruct (llm w (llm_calls s) _) as [summary|e]; [|reflexivity].
  rewrite find_after_assignment.
  destruct (find (fun d => Nat.eqb (dir_id d) id) (directories s)) as [d|] eqn:F;
    [|reflexivity].
  apply find_some in F. destruct F as [_ F]. apply Nat.eqb_eq in F.
  destruct (Nat.eqb (dir_id d) (dir_id directory)) eqn:E; [|reflexivity].
  apply Nat.eqb_eq in E. congruence.
Qed.

Lemma row_summary_after_loop repo ds s id :
  ~ In id (map dir_id ds) ->
  row_summary id (snd (for_each (summarize_directory_step w repo) ds s)) =
  row_summary id s.
Proof.
  revert s. induction ds as [|d ds IH]; intros s Hnot; [reflexivity|].
  rewrite for_each_summarize_cons, IH.
  - apply row_summary_other. intros ->. apply Hnot. now left.
  - intros Hin. apply Hnot. now right.
Qed.

Lemma row_summary_self repo directory s :
  (forall log p fs ds, exists t,
      llm w log (summarize_directory p fs ds) = Ok (Some t) /\ t <> "") ->
  In (dir_id directory) (map dir_id (directories s)) ->
  (file_items (filter (fun f => Nat.eqb (file_directory_id f) (dir_id directory))
                      (files s)) ++
   dir_items "" (filter (fun d => option_nat_eqb (dir_parent_id d)
                                                 (Some (dir_id directory)))
                        (directories s)))%list <> [] ->
  truthy (row_summary (dir_id directory)
            (snd (summarize_directory_step w repo directory s))) = true.
Proof.
  intros Hllm Hin Hitems. unfold row_summary.
  pose proof (summarize_directory_step_unfold repo directory s) as H.
  cbv zeta in H. rewrite H. clear H.
  destruct (file_items _ ++ dir_items "" _)%list as [|x xs]; [congruence|].
  match goal with
  | |- context [llm w ?log (summarize_directory ?p ?fs ?ds)] =>
      destruct (Hllm log p fs ds) as (t & -> & Ht)
  end.
  rewrite find_after_assignment.
  destruct (find (fun d => Nat.eqb (dir_id d) (dir_id directory)) (directories s))
    as [d|] eqn:F.
  - apply find_some in F. destruct F as [_ F]. rewrite F. simpl.
    destruct t; [congruence | reflexivity].
  - apply in_map_iff in Hin. destruct Hin as (x0 & Hid & Hx).
    pose proof (find_none _ _ F x0 Hx) as C. simpl in C.
    rewrite Hid, Nat.eqb_refl in C. discriminate.
Qed.

Lemma dir_id_of_key l :
  map dir_id l = map (fun k => fst (fst (fst (fst k)))) (map dir_key l).
Proof. rewrite map_map. reflexivity. Qed.

Lemma sorted_after (l1 l2 : list Directory) d :
  StronglySorted path_ge (l1 ++ d :: l2) -> Forall (path_ge d) l2.
Proof.
  induction l1 as [|a l1 IH]; simpl; intros H.
  - now inversion H.
  - inversion H; subst. now apply IH.
Qed.

Lemma nodup_ids_filter (p : Directory -> bool) l :
  NoDup (map dir_id l) -> NoDup (map dir_id (filter p l)).
Proof.
  induction l as [|a l IH]; simpl; intros H; [constructor|].
  inversion H as [|? ? Hnot Hnd]; subst.
  destruct (p a); [|now apply IH].
  simpl. constructor; [|now apply IH].
  intros Hin. apply Hnot. apply in_map_iff in Hin.
  destruct Hin as (x & Hx & Hin). apply filter_In in Hin.
  apply in_map_iff. exists x. tauto.
Qed.

Lemma same_id_same_directory (l : list Directory) x y :
  NoDup (map dir_id l) -> In x l -> In y l -> dir_id x = dir_id y -> x = y.
Proof.
  induction l as [|a l IH]; simpl; intros Hnd Hx Hy Hid; [contradiction|].
  inversion Hnd as [|? ? Hnot Hnd']; subst.
  destruct Hx as [<-|Hx], Hy as [<-|Hy]; try reflexivity.
  - exfalso. apply Hnot. rewrite Hid. now apply in_map.
  - exfalso. apply Hnot. rewrite <- Hid. now apply in_map.
  - now apply IH.
Qed.

Lemma disjoint_ids (l1 l2 : list nat) id :
  NoDup (l1 ++ l2) -> In id l1 -> ~ In id l2.
Proof.
  induction l1 as [|a l1 IH]; simpl; intros Hnd Hin; [contradiction|].
  inversion Hnd as [|? ? Hnot Hnd']; subst.
  destruct Hin as [->|Hin]; [|now apply IH].
  intros H. apply Hnot. apply in_or_app. now right.
Qed.

Lemma file_items_not_nil f fs :
  In f fs -> truthy (file_summary f) = true -> file_items fs <> [].
Proof.
  intros Hin Ht Hnil.
  assert (H : exists item, In item (file_items fs)).
  { destruct (file_summary f) as [sm|] eqn:E; [|discriminate].
    exists (mkItemSummary (file_name f) sm).
    unfold file_items. apply in_flat_map. exists f. split; [exact Hin|].
    rewrite E, Ht. now left. }
  destruct H as [item H]. rewrite Hnil in H. contradiction.
Qed.

Lemma dir_items_not_nil suffix d ds :
  In d ds -> truthy (dir_summary d) = true -> dir_items suffix ds <> [].
Proof.
  intros Hin Ht Hnil.
  assert (H : exists item, In item (dir_items suffix ds)).
  { destruct (dir_summary d) as [sm|] eqn:E; [|discriminate].
    exists (mkItemSummary (dir_name d ++ suffix) sm).
    unfold dir_items. apply in_flat_map. exists d. split; [exact Hin|].
    rewrite E, Ht. now left. }
  destruct H as [item H]. rewrite Hnil in H. contradiction.
Qed.

Lemma for_each_summarize_keeps repo ds s :
  files (snd (for_each (summarize_directory_step w repo) ds s)) = files s /\
  map dir_key (directories (snd (for_each (summarize_directory_step w repo) ds s))) =
    map dir_key (directories s).
Proof.
  apply (for_each_invariant
           (fun s1 => files s1 = files s /\
                      map dir_key (directories s1) = map dir_key (directories s))
           (summarize_directory_step w repo)); [|auto].
  intros x s1 (G1 & G2).
  destruct (summarize_directory_step_effect repo x s1) as (_ & E1 & _ & _ & E2).
  split; congruence.
Qed.

Lemma order_members repo s d :
  In d (directories s) -> dir_repository_id d = repo_id repo ->
  In d (summarization_order repo s).
Proof.
  intros Hd Hr.
  eapply Permutation_in; [apply order_by_path_desc_perm|].
  apply filter_In. split; [exact Hd|]. now apply Nat.eqb_eq.
Qed.

Lemma order_nodup repo s :
  NoDup (map dir_id (directories s)) ->
  NoDup (map dir_id (summarization_order repo s)).
Proof.
  intros Hnodup.
  eapply Permutation_NoDup;
    [apply Permutation_map; apply order_by_path_desc_perm|].
  now apply nodup_ids_filter.
Qed.

(** A directory that has an entry to show when its turn comes has a
    summary after the pass. *)
Lemma summarized_in_its_turn repo s d pre post :
  NoDup (map dir_id (directories s)) ->
  (forall log p fs ds, exists t,
      llm w log (summarize_directory p fs ds) = Ok (Some t) /\ t <> "") ->
  summarization_order repo s = (pre ++ d :: post)%list ->
  In d (directories s) ->
  (file_items (filter (fun f => Nat.eqb (file_directory_id f) (dir_id d))
                      (files (snd (for_each (summarize_directory_step w repo) pre s)))) ++
   dir_items "" (filter (fun x => option_nat_eqb (dir_parent_id x) (Some (dir_id d)))
                        (directories
                           (snd (for_each (summarize_directory_step w repo) pre s)))))%list
  <> [] ->
  truthy (row_summary (dir_id d) (snd (_generate_directory_summaries w repo s))) = true.
Proof.
  intros Hnodup Hllm Horder Hd Hitems.
  pose proof (order_nodup repo s Hnodup) as Hnd.
  unfold _generate_directory_summaries. rewrite Horder.
  rewrite for_each_summarize_app, for_each_summarize_cons.
  rewrite row_summary_after_loop.
  - apply row_summary_self; [exact Hllm | | exact Hitems].
    destruct (for_each_summarize_keeps repo pre s) as [_ K].
    rewrite dir_id_of_key, K, <- dir_id_of_key. now apply in_map.
  - rewrite Horder, map_app in Hnd. apply NoDup_remove_2 in Hnd.
    intros Hin. apply Hnd. apply in_or_app. now right.
Qed.

(** The row that holds a summary after a pass is the row of the same
    key. *)
Lemma row_with_summary (s s1 : Session) c :
  NoDup (map dir_id (directories s)) ->
  map dir_key (directories s1) = map dir_key (directories s) ->
  In c (directories s) ->
  truthy (row_summary (dir_id c) s1) = true ->
  exists x, In x (directories s1) /\ dir_key x = dir_key c /\
            truthy (dir_summary x) = true.
Proof.
  intros Hnodup K Hc Hsum. unfold row_summary in Hsum.
  destruct (find (fun x => Nat.eqb (dir_id x) (dir_id c)) (directories s1))
    as [x|] eqn:F; [|discriminate].
  apply find_some in F. destruct F as [Hx Hxid]. apply Nat.eqb_eq in Hxid.
  exists x. split; [exact Hx|]. split; [|exact Hsum].
  assert (Hk : In (dir_key x) (map dir_key (directories s)))
    by (rewrite <- K; now apply in_map).
  apply in_map_iff in Hk. destruct Hk as (y & Hy & Hyin).
  assert (y = c).
  { apply (same_id_same_directory (directories s)); try assumption.
    unfold dir_key in Hy. injection Hy as Hy _ _ _ _. congruence. }
  subst y. now symmetry.
Qed.

Lemma file_gives_summary repo s d f :
  NoDup (map dir_id (directories s)) ->
  (forall log p fs ds, exists t,
      llm w log (summarize_directory p fs ds) = Ok (Some t) /\ t <> "") ->
  In d (directories s) -> dir_repository_id d = repo_id repo ->
  In f (files s) -> file_directory_id f = dir_id d ->
  truthy (file_summary f) = true ->
  truthy (row_summary (dir_id d) (snd (_generate_directory_summaries w repo s))) = true.
Proof.
  intros Hnodup Hllm Hd Hr Hf Hfd Hsum.
  destruct (in_split d _ (order_members repo s d Hd Hr)) as (pre & post & Horder).
  apply (summarized_in_its_turn repo s d pre post Hnodup Hllm Horder Hd).
  destruct (for_each_summarize_keeps repo pre s) as [K _]. rewrite K.
  intros Hnil. apply app_eq_nil in Hnil. destruct Hnil as [Hnil _].
  revert Hnil. apply (file_items_not_nil f); [|exact Hsum].
  apply filter_In. split; [exact Hf|]. now apply Nat.eqb_eq.
Qed.

Lemma child_gives_summary repo s d d' suffix :
  NoDup (map dir_id (directories s)) ->
  (forall log p fs ds, exists t,
      llm w log (summarize_directory p fs ds) = Ok (Some t) /\ t <> "") ->
  In d (directories s) -> dir_repository_id d = repo_id repo ->
  In d' (directories s) -> dir_repository_id d' = repo_id repo ->
  dir_parent_id d' = Some (dir_id d) ->
  (dir_path d' = dir_path d ++ "/" ++ suffix \/
   (dir_path d = "" /\ dir_path d' <> "")) ->
  truthy (row_summary (dir_id d') (snd (_generate_directory_summaries w repo s))) = true ->
  truthy (row_summary (dir_id d) (snd (_generate_directory_summaries w repo s))) = true.
Proof.
  intros Hnodup Hllm Hd Hr Hd' Hr' Hparent Hpath Hsum.
  pose proof (order_nodup repo s Hnodup) as Hnd.
  assert (Hsorted : StronglySorted path_ge (summarization_order repo s))
    by apply order_by_path_desc_sorted.
  destruct (in_split d _ (order_members repo s d Hd Hr)) as (pre & post & Horder).
  apply (summarized_in_its_turn repo s d pre post Hnodup Hllm Horder Hd).
  assert (Hgt : String.leb (dir_path d') (dir_path d) = false).
  { destruct Hpath as [Hpath|[Hroot Hne]].
    - rewrite Hpath. change ("/" ++ suffix) with (String "/" suffix).
      apply string_extension_not_leb.
    - rewrite Hroot. destruct (dir_path d'); [congruence | reflexivity]. }
  assert (Hbefore : In d' pre).
  { pose proof (order_members repo s d' Hd' Hr') as Hin. rewrite Horder in Hin.
    apply in_app_or in Hin. destruct Hin as [Hin|[Heq|Hin]]; [exact Hin| |].
    - exfalso. subst d'.
      assert (String.leb (dir_path d) (dir_path d) = true)
        by (apply string_leb_iff; now right).
      congruence.
    - exfalso. rewrite Horder in Hsorted. apply sorted_after in Hsorted.
      rewrite Forall_forall in Hsorted. specialize (Hsorted d' Hin).
      unfold path_ge in Hsorted. congruence. }
  assert (Hid : ~ In (dir_id d') (map dir_id (d :: post))).
  { rewrite Horder, map_app in Hnd.
    apply (disjoint_ids (map dir_id pre)); [exact Hnd | now apply in_map]. }
  unfold _generate_directory_summaries in Hsum. rewrite Horder in Hsum.
  rewrite for_each_summarize_app in Hsum.
  rewrite row_summary_after_loop in Hsum by exact Hid.
  destruct (for_each_summarize_keeps repo pre s) as [_ K].
  destruct (row_with_summary s _ d' Hnodup K Hd' Hsum) as (x & Hx & Hkey & Hxsum).
  intros Hnil. apply app_eq_nil in Hnil. destruct Hnil as [_ Hnil].
  revert Hnil. apply (dir_items_not_nil "" x); [|exact Hxsum].
  apply filter_In. split; [exact Hx|].
  unfold dir_key in Hkey. injection Hkey as _ _ Hp _ _.
  rewrite Hp, Hparent. simpl. apply Nat.eqb_refl.
Qed.

(** One pass of [_generate_directory_summaries] carries the summaries
    upwards through every level. With directory keys that are distinct
    and a language model that answers every directory request with some
    text: afterwards every directory of the repository that holds a file
    with a summary has a summary, and so has every directory of the
    repository that is the parent of a directory with a summary, when
    the child's path continues the parent's after a slash or the parent
    is the root directory. *)
Theorem summaries_reach_every_ancestor repo s :
  NoDup (map dir_id (directories s)) ->
  (forall log p fs ds, exists t,
      llm w log (summarize_directory p fs ds) = Ok (Some t) /\ t <> "") ->
  let s' := snd (_generate_directory_summaries w repo s) in
  (forall d f,
     In d (directories s) -> dir_repository_id d = repo_id repo ->
     In f (files s) -> file_directory_id f = dir_id d ->
     truthy (file_summary f) = true ->
     truthy (row_summary (dir_id d) s') = true) /\
  (forall d d' suffix,
     In d (directories s) -> dir_repository_id d = repo_id repo ->
     In d' (directories s) -> dir_repository_id d' = repo_id repo ->
     dir_parent_id d' = Some (dir_id d) ->
     (dir_path d' = dir_path d ++ "/" ++ suffix \/
      (dir_path d = "" /\ dir_path d' <> "")) ->
     truthy (row_summary (dir_id d') s') = true ->
     truthy (row_summary (dir_id d) s') = true).
Proof.
  intros Hnodup Hllm s'. subst s'. split.
  - intros d f Hd Hr Hf Hfd Hsum.
    exact (file_gives_summary repo s d f Hnodup Hllm Hd Hr Hf Hfd Hsum).
  - intros d d' suffix Hd Hr Hd' Hr' Hparent Hpath Hsum.
    exact (child_gives_summary repo s d d' suffix Hnodup Hllm
                               Hd Hr Hd' Hr' Hparent Hpath Hsum).
Qed.

(** ** From the files to the repository summary *)

Lemma rows_for_keys repo p (s s' : Session) :
  map dir_key (directories s') = map dir_key (directories s) ->
  map dir_key (rows_for repo p s') = map dir_key (rows_for repo p s).
Proof.
  unfold rows_for.
  generalize (directories s') (directories s).
  induction l as [|d l IH]; intros [|d0 l0]; simpl; try discriminate;
    [reflexivity|].
  intros H. injection H as H1 H2 H3 H4 H5 H6.
  rewrite H2, H4.
  destruct (Nat.eqb (dir_repository_id d0) (repo_id repo) && String.eqb (dir_path d0) p);
    simpl; rewrite (IH l0 H6); [|reflexivity].
  unfold dir_key. now rewrite H1, H2, H3, H4, H5.
Qed.

(** Below the root, a summary reaches a directory whose parent is the
    root. *)
Lemma summary_reaches_the_top repo s root d :
  NoDup (map dir_id (directories s)) ->
  (forall log p fs ds, exists t,
      llm w log (summarize_directory p fs ds) = Ok (Some t) /\ t <> "") ->
  below_root repo s root d ->
  truthy (row_summary (dir_id d) (snd (_generate_directory_summaries w repo s))) = true ->
  exists c,
    In c (directories s) /\ dir_parent_id c = Some (dir_id root) /\
    truthy (row_summary (dir_id c) (snd (_generate_directory_summaries w repo s))) = true.
Proof.
  intros Hnodup Hllm Hbelow.
  induction Hbelow as [d Hd Hr Hp Hne | d p suffix Hd Hr Hp Hpath Hbelow IH];
    intros Hsum.
  - exists d. auto.
  - apply IH.
    assert (Hpin : In p (directories s) /\ dir_repository_id p = repo_id repo)
      by (destruct Hbelow; auto).
    destruct Hpin as [Hpin Hpr].
    apply (child_gives_summary repo s p d suffix Hnodup Hllm Hpin Hpr Hd Hr Hp);
      [now left | exact Hsum].
Qed.

(** The summaries of the files reach the repository. After the pass
    over the directories, with directory keys that are distinct, one
    root directory row and a language model that answers every
    directory request with some text: when a file with a summary lies
    in the root directory or in a directory below it, at any depth,
    [_generate_repository_summary] finds an entry at the root level,
    sends one request for the summary of the repository that lists the
    root level, and gives the repository the answer as its summary, or
    leaves the repository as it is when the request raises. *)
Theorem file_summaries_reach_the_repository repo s root d f :
  NoDup (map dir_id (directories s)) ->
  rows_for repo "" s = [root] ->
  (forall log p fs ds, exists t,
      llm w log (summarize_directory p fs ds) = Ok (Some t) /\ t <> "") ->
  In f (files s) -> truthy (file_summary f) = true ->
  file_directory_id f = dir_id d ->
  d = root \/ below_root repo s root d ->
  let s1 := snd (_generate_directory_summaries w repo s) in
  exists root1,
    rows_for repo "" s1 = [root1] /\ dir_key root1 = dir_key root /\
    root_items root1 s1 <> [] /\
    let request := summarize_repository (repo_name repo) (root_items root1 s1) in
    _generate_repository_summary w repo s1 =
    (Ok match llm w (llm_calls s1) request with
        | Ok summary => set_repo_summary repo summary
        | Raise _ => repo
        end,
     logged s1 request).
Proof.
  intros Hnodup Hroot Hllm Hf Hsum Hfd Hwhere s1.
  destruct (generate_directory_summaries_effect repo s) as (Kf & _ & Kd).
  fold s1 in Kf, Kd.
  pose proof (rows_for_keys repo "" s s1 Kd) as Hrows. rewrite Hroot in Hrows.
  destruct (rows_for repo "" s1) as [|root1 [|r2 rest]] eqn:Rows; try discriminate.
  injection Hrows as Hid Hk2 Hk3 Hk4 Hk5.
  assert (Hkey : dir_key root1 = dir_key root)
    by (unfold dir_key; now rewrite Hid, Hk2, Hk3, Hk4, Hk5).
  assert (Hroot_in : In root (directories s) /\ dir_repository_id root = repo_id repo /\
                     dir_path root = "").
  { assert (H : In root (rows_for repo "" s)) by (rewrite Hroot; now left).
    unfold rows_for in H. apply filter_In in H. destruct H as [Hin H].
    apply andb_true_iff in H. destruct H as [H1 H2].
    apply Nat.eqb_eq in H1. apply String.eqb_eq in H2. auto. }
  destruct Hroot_in as (Hrin & Hrrepo & Hrpath).
  assert (Hitems : root_items root1 s1 <> []).
  { unfold root_items. rewrite Kf, Hid.
    intros Hnil. apply app_eq_nil in Hnil. destruct Hnil as [Hfiles Hdirs].
    destruct Hwhere as [->|Hbelow].
    - revert Hfiles. apply (file_items_not_nil f); [|exact Hsum].
      apply filter_In. split; [exact Hf|]. now apply Nat.eqb_eq.
    - assert (Hd : In d (directories s) /\ dir_repository_id d = repo_id repo)
        by (destruct Hbelow; auto).
      destruct Hd as [Hd Hr].
      pose proof (file_gives_summary repo s d f Hnodup Hllm Hd Hr Hf Hfd Hsum) as Hds.
      destruct (summary_reaches_the_top repo s root d Hnodup Hllm Hbelow Hds)
        as (c & Hc & Hcp & Hcs).
      fold s1 in Hcs.
      destruct (row_with_summary s s1 c Hnodup Kd Hc Hcs) as (x & Hx & Hxkey & Hxsum).
      revert Hdirs. apply (dir_items_not_nil "/" x); [|exact Hxsum].
      apply filter_In. split; [exact Hx|].
      unfold dir_key in Hxkey. injection Hxkey as _ _ Hp _ _.
      rewrite Hp, Hcp. simpl. apply Nat.eqb_refl. }
  exists root1. split; [reflexivity|]. split; [exact Hkey|]. split; [exact Hitems|].
  cbv zeta. rewrite generate_repository_summary_unfold, Rows.
  cbn [scalar_one_or_none].
  destruct (root_items root1 s1) as [|x xs]; [congruence | reflexivity].
Qed.

End PipelineMore.
(* ===================================================================== *)
(** * Properties of the repository interface *)
(* ===================================================================== *)

Section Api.
Import Py Models JobsApi Tasks PipelineSpec Forest Persistence Stored.
Import GitService RepositoriesApi UrlSpec.

(** ** parse_github_url *)

Lemma span_spec (p : ascii -> bool) :
  forall s run after,
    span p s = (run, after) ->
    s = run ++ after /\ all_chars p run = true /\
    match after with
    | EmptyString => True
    | String c _ => p c = false
    end.
Proof.
  induction s as [|c s IH]; simpl; intros run after H.
  - injection H as <- <-. auto.
  - destruct (p c) eqn:E.
    + destruct (span p s) as [r a]. injection H as <- <-.
      destruct (IH r a eq_refl) as (-> & H1 & H2).
      simpl. rewrite E. auto.
    + injection H as <- <-. simpl. auto.
Qed.

Lemma span_app (p : ascii -> bool) :
  forall run after,
    all_chars p run = true ->
    match after with
    | EmptyString => True
    | String c _ => p c = false
    end ->
    span p (run ++ after) = (run, after).
Proof.
  induction run as [|c run IH]; simpl; intros after Hrun Hafter.
  - destruct after as [|c r]; simpl; [reflexivity | now rewrite Hafter].
  - apply andb_true_iff in Hrun. destruct Hrun as [Hc Hrun].
    rewrite Hc, (IH after Hrun Hafter). reflexivity.
Qed.

Lemma all_chars_weaken (s : string) :
  all_chars not_slash_or_dot s = true -> all_chars not_slash s = true.
Proof.
  induction s as [|c s IH]; simpl; [reflexivity|].
  intros H. apply andb_true_iff in H. destruct H as [Hc Hs].
  rewrite (IH Hs), andb_true_r.
  unfold not_slash_or_dot, not_slash in *.
  destruct (Ascii.eqb c "/"); [discriminate | reflexivity].
Qed.

Lemma remove_from_no_dot (old : string) (c0 : ascii) :
  forall s,
    all_chars (fun c => negb (Ascii.eqb c c0)) s = true ->
    remove_from (String c0 old) 0 s = s.
Proof.
  induction s as [|c s IH]; [reflexivity|].
  intros H. simpl in H. apply andb_true_iff in H. destruct H as [Hc Hs].
  cbn [remove_from startswith].
  rewrite ascii_eqb_sym. apply negb_true_iff in Hc. rewrite Hc. cbn [andb].
  now rewrite (IH Hs).
Qed.

Lemma remove_git_from_name (name : string) :
  all_chars not_slash_or_dot name = true -> remove_all ".git" name = name.
Proof.
  intros H. unfold remove_all. apply remove_from_no_dot.
  clear - H. induction name as [|c s IH]; simpl in *; [reflexivity|].
  apply andb_true_iff in H. destruct H as [Hc Hs].
  rewrite (IH Hs), andb_true_r.
  unfold not_slash_or_dot in Hc.
  destruct (Ascii.eqb c "."); [|reflexivity].
  now rewrite orb_true_r in Hc.
Qed.

Lemma after_prefix_app (p r : string) : after_prefix p (p ++ r) = Some r.
Proof.
  induction p as [|a p IH]; simpl; [reflexivity|].
  now rewrite Ascii.eqb_refl.
Qed.

(** The host pattern at the start of [github.com], a separator, the
    owner, a slash, the name and what ends the name. *)
Lemma match_url_at_address (sep : ascii) owner name tail :
  Ascii.eqb sep ":" || Ascii.eqb sep "/" = true ->
  owner_like owner -> name_like name -> ends_name tail ->
  match_url_at ("github.com" ++ String sep (owner ++ "/" ++ name ++ tail)) =
  Some (owner, name).
Proof.
  intros Hsep [Ho1 Ho2] [Hn1 Hn2] Htail.
  unfold match_url_at. rewrite after_prefix_app, Hsep.
  change ("/" ++ name ++ tail) with (String "/" (name ++ tail)).
  rewrite (span_app not_slash owner (String "/" (name ++ tail)) Ho2 eq_refl).
  destruct owner as [|a owner]; [congruence|].
  rewrite (span_app not_slash_or_dot name tail Hn2).
  - destruct name as [|b name]; [congruence | reflexivity].
  - exact Htail.
Qed.

Lemma search_url_address (sep : ascii) owner name tail :
  Ascii.eqb sep ":" || Ascii.eqb sep "/" = true ->
  owner_like owner -> name_like name -> ends_name tail ->
  search_url ("github.com" ++ String sep (owner ++ "/" ++ name ++ tail)) =
  Some (owner, name).
Proof.
  intros Hsep Ho Hn Ht.
  pose proof (match_url_at_address sep owner name tail Hsep Ho Hn Ht) as H.
  change ("github.com" ++ String sep (owner ++ "/" ++ name ++ tail))
    with (String "g" ("ithub.com" ++ String sep (owner ++ "/" ++ name ++ tail))) in *.
  cbn [search_url]. now rewrite H.
Qed.

(** What the host pattern finds is an owner without a slash and a name
    without a slash or a dot. *)
Lemma match_url_at_groups s owner name :
  match_url_at s = Some (owner, name) -> owner_like owner /\ name_like name.
Proof.
  unfold match_url_at.
  destruct (after_prefix "github.com" s) as [[|c rest]|]; try discriminate.
  destruct (Ascii.eqb c ":" || Ascii.eqb c "/"); [|discriminate].
  destruct (span not_slash rest) as [[|a o] [|x rest2]] eqn:S1; try discriminate.
  destruct (span not_slash_or_dot rest2) as [[|b n] after] eqn:S2; [discriminate|].
  intros [= <- <-].
  apply span_spec in S1. apply span_spec in S2.
  split; split; try discriminate; tauto.
Qed.

Lemma search_url_groups :
  forall s owner name,
    search_url s = Some (owner, name) -> owner_like owner /\ name_like name.
Proof.
  induction s as [|c s IH]; intros owner name; cbn [search_url].
  - destruct (match_url_at "") as [[o n]|] eqn:M; [|discriminate].
    intros [= <- <-]. exact (match_url_at_groups _ _ _ M).
  - destruct (match_url_at (String c s)) as [[o n]|] eqn:M.
    + intros [= <- <-]. exact (match_url_at_groups _ _ _ M).
    + apply IH.
Qed.

Lemma search_skip (c : ascii) (s : string) :
  match_url_at (String c s) = None -> search_url (String c s) = search_url s.
Proof. intros H. cbn [search_url]. now rewrite H. Qed.

(** An address that names the host is parsed into owner and name
    whatever its scheme, with or without the suffix [.git] or a path
    after the name; the name ends at its first dot. In particular the
    clone URL that [_build_clone_url] builds without a token, and the
    address [create_repository] stores, are parsed back into the owner
    and the name they were built from. *)
Theorem github_addresses_are_parsed owner name tail :
  owner_like owner -> name_like name -> ends_name tail ->
  (forall prefix, In prefix address_prefixes ->
     parse_github_url (prefix ++ owner ++ "/" ++ name ++ tail) = Ok (owner, name)) /\
  parse_github_url (_build_clone_url owner name None) = Ok (owner, name) /\
  parse_github_url (_build_clone_url owner name (Some "")) = Ok (owner, name).
Proof.
  intros Ho Hn Ht.
  assert (Slash : forall t, ends_name t ->
            search_url ("github.com" ++ String "/" (owner ++ "/" ++ name ++ t)) =
            Some (owner, name))
    by (intros t Ht'; now apply search_url_address).
  assert (Colon : search_url ("github.com" ++ String ":" (owner ++ "/" ++ name ++ tail)) =
                  Some (owner, name))
    by now apply search_url_address.
  assert (Clean : remove_all ".git" name = name)
    by (apply remove_git_from_name; apply Hn).
  cbn [append] in Slash, Colon.
  split; [|split].
  - intros prefix Hin. unfold address_prefixes in Hin. unfold parse_github_url.
    repeat (destruct Hin as [<-|Hin]); [..|contradiction];
      cbn [append];
      repeat (rewrite search_skip by reflexivity);
      [ rewrite (Slash tail Ht) | rewrite (Slash tail Ht) | rewrite (Slash tail Ht)
      | rewrite Colon | rewrite (Slash tail Ht) | rewrite Colon ];
      now rewrite Clean.
  - unfold _build_clone_url, parse_github_url. cbn [append].
    repeat (rewrite search_skip by reflexivity).
    rewrite (Slash ".git" eq_refl). now rewrite Clean.
  - unfold _build_clone_url, parse_github_url. cbn [truthy append].
    repeat (rewrite search_skip by reflexivity).
    rewrite (Slash ".git" eq_refl). now rewrite Clean.
Qed.

Lemma after_prefix_startswith (p : string) :
  forall s, startswith s p = false -> after_prefix p s = None.
Proof.
  induction p as [|a p IH]; intros s; simpl; [discriminate|].
  destruct s as [|b s]; [reflexivity|].
  destruct (Ascii.eqb a b); simpl; [apply IH | reflexivity].
Qed.

Lemma search_url_needs_host :
  forall s, contains "github.com" s = false -> search_url s = None.
Proof.
  induction s as [|c s IH]; intros H.
  - reflexivity.
  - cbn [contains] in H. apply orb_false_iff in H. destruct H as [H1 H2].
    cbn [search_url]. unfold match_url_at.
    rewrite (after_prefix_startswith "github.com" (String c s) H1).
    now apply IH.
Qed.

Lemma count_app (c : ascii) (a b : string) : count c (a ++ b) = count c a + count c b.
Proof. induction a as [|x a IH]; simpl; [reflexivity | rewrite IH; lia]. Qed.

Lemma after_prefix_spec (p : string) :
  forall s r, after_prefix p s = Some r -> s = p ++ r.
Proof.
  induction p as [|a p IH]; simpl; intros s r H.
  - now injection H.
  - destruct s as [|b s]; [discriminate|].
    destruct (Ascii.eqb a b) eqn:E; [|discriminate].
    apply Ascii.eqb_eq in E. subst b. now rewrite (IH s r H).
Qed.

Lemma span_slash run c after s :
  span not_slash s = (run, String c after) -> 0 < count "/" s.
Proof.
  intros H. apply span_spec in H. destruct H as (-> & _ & Hc).
  rewrite count_app. simpl. unfold not_slash in Hc.
  apply negb_false_iff in Hc. rewrite Hc. lia.
Qed.

Lemma match_url_at_slash s :
  count "/" s = 0 -> match_url_at s = None.
Proof.
  intros H. unfold match_url_at.
  destruct (after_prefix "github.com" s) as [[|c rest]|] eqn:A; try reflexivity.
  apply after_prefix_spec in A.
  destruct (Ascii.eqb c ":" || Ascii.eqb c "/"); [|reflexivity].
  destruct (span not_slash rest) as [[|a o] [|x rest2]] eqn:S1; try reflexivity.
  apply span_slash in S1. subst s. rewrite count_app in H. simpl in H.
  destruct (Ascii.eqb c "/"); lia.
Qed.

Lemma search_url_slash :
  forall s, count "/" s = 0 -> search_url s = None.
Proof.
  induction s as [|c s IH]; intros H; cbn [search_url].
  - reflexivity.
  - rewrite (match_url_at_slash _ H). apply IH.
    simpl in H. destruct (Ascii.eqb c "/"); [discriminate | exact H].
Qed.

Lemma remove_from_keeps (p : ascii -> bool) (old : string) :
  forall s skip, all_chars p s = true -> all_chars p (remove_from old skip s) = true.
Proof.
  induction s as [|c s IH]; intros skip H; [reflexivity|].
  simpl in H. apply andb_true_iff in H. destruct H as [Hc Hs].
  cbn [remove_from]. destruct skip as [|k]; [|now apply IH].
  destruct (startswith (String c s) old); [now apply IH|].
  simpl. rewrite Hc. now apply IH.
Qed.

Lemma match_short_spec s owner name :
  match_short s = Some (owner, name) ->
  s = owner ++ "/" ++ name /\ owner_like owner /\
  name <> "" /\ all_chars not_slash name = true.
Proof.
  unfold match_short.
  destruct (span not_slash s) as [[|a o] [|x rest2]] eqn:S1; try discriminate.
  destruct (span not_slash rest2) as [[|b n] [|y after]] eqn:S2; try discriminate.
  intros [= <- <-]. apply span_spec in S1. apply span_spec in S2.
  destruct S1 as (-> & Ho & Hx). destruct S2 as (-> & Hn & _).
  unfold not_slash in Hx. apply negb_false_iff in Hx.
  apply Ascii.eqb_eq in Hx. subst x.
  rewrite append_empty_r.
  split; [reflexivity|]. split; [split; [discriminate | exact Ho]|].
  split; [discriminate | exact Hn].
Qed.

Lemma count_no_slash (s : string) :
  all_chars not_slash s = true <-> count "/" s = 0.
Proof.
  induction s as [|c s IH]; simpl; [tauto|].
  unfold not_slash at 1. destruct (Ascii.eqb c "/"); simpl.
  - split; [discriminate | lia].
  - exact IH.
Qed.

Lemma endswith_app (a b : string) (c : ascii) :
  b <> "" -> endswith_char (a ++ b) c = endswith_char b c.
Proof.
  intros Hb. induction a as [|d a IH]; [reflexivity|].
  cbn [append endswith_char]. rewrite IH.
  destruct (a ++ b) as [|e r] eqn:E; [|reflexivity].
  destruct a; [simpl in E; congruence | discriminate].
Qed.

Lemma endswith_no_slash (b : string) :
  all_chars not_slash b = true -> endswith_char b "/" = false.
Proof.
  induction b as [|c b IH]; [reflexivity|].
  simpl. intros H. apply andb_true_iff in H. destruct H as [Hc Hs].
  destruct b as [|d b]; [|now apply IH].
  unfold not_slash in Hc. now apply negb_true_iff in Hc.
Qed.

(** The short form, read on the address itself: one slash, neither at
    the start nor at the end. *)
Lemma short_form_spec (url : string) :
  (exists owner name,
     url = owner ++ "/" ++ name /\ owner_like owner /\
     name <> "" /\ all_chars not_slash name = true) <->
  (count "/" url = 1 /\ startswith url "/" = false /\
   endswith_char url "/" = false).
Proof.
  split.
  - intros (owner & name & -> & [Ho1 Ho2] & Hn1 & Hn2).
    split; [|split].
    + rewrite !count_app.
      rewrite (proj1 (count_no_slash owner) Ho2), (proj1 (count_no_slash name) Hn2).
      reflexivity.
    + destruct owner as [|a owner]; [congruence|].
      simpl in Ho2. apply andb_true_iff in Ho2. destruct Ho2 as [Ha _].
      unfold not_slash in Ha. apply negb_true_iff in Ha.
      cbn [append startswith]. rewrite (ascii_eqb_sym "/" a), Ha. reflexivity.
    + rewrite endswith_app by discriminate.
      destruct name as [|b name]; [congruence|].
      change (endswith_char ("/" ++ String b name) "/")
        with (endswith_char (String b name) "/").
      now apply endswith_no_slash.
  - intros (Hcount & Hstart & Hend).
    destruct (span not_slash url) as [run after] eqn:S.
    apply span_spec in S. destruct S as (-> & Hrun & Hafter).
    rewrite count_app, (proj1 (count_no_slash run) Hrun) in Hcount.
    destruct after as [|x rest]; [simpl in Hcount; lia|].
    unfold not_slash in Hafter. apply negb_false_iff in Hafter.
    apply Ascii.eqb_eq in Hafter. subst x.
    simpl in Hcount.
    exists run, rest. split; [reflexivity|].
    split; [split; [|exact Hrun]|split].
    + intros ->. simpl in Hstart. discriminate.
    + intros ->. rewrite endswith_app in Hend by discriminate.
      simpl in Hend. discriminate.
    + apply count_no_slash. lia.
Qed.

(** Without the host name in it, an address is accepted exactly when it
    has the form owner, slash, name, with an owner and a name that are
    not empty and hold no slash, that is, when it has one slash and
    this slash is neither its first nor its last character. It is then
    taken by the second pattern, and the name keeps its dots and loses
    every [.git] in it. Every other address without the host name (no
    slash, more than one slash, an empty owner or name) is rejected with
    the address in the message, as is every address without a slash.
    Whatever is accepted, the owner is not empty and neither the owner
    nor the name holds a slash. *)
Theorem short_addresses_and_rejections :
  (forall owner name,
     owner_like owner -> name <> "" -> all_chars not_slash name = true ->
     contains "github.com" (owner ++ "/" ++ name) = false ->
     parse_github_url (owner ++ "/" ++ name) = Ok (owner, remove_all ".git" name)) /\
  (forall url,
     contains "github.com" url = false ->
     (parse_github_url url = Raise ("Invalid GitHub URL: " ++ url) <->
      (count "/" url <> 1 \/ startswith url "/" = true \/
       endswith_char url "/" = true))) /\
  (forall url,
     count "/" url = 0 ->
     parse_github_url url = Raise ("Invalid GitHub URL: " ++ url)) /\
  (forall url owner name,
     parse_github_url url = Ok (owner, name) ->
     owner_like owner /\ all_chars not_slash name = true).
Proof.
  assert (Short : forall owner name,
     owner_like owner -> name <> "" -> all_chars not_slash name = true ->
     contains "github.com" (owner ++ "/" ++ name) = false ->
     parse_github_url (owner ++ "/" ++ name) = Ok (owner, remove_all ".git" name)).
  { intros owner name [Ho1 Ho2] Hn1 Hn2 Hhost.
    unfold parse_github_url. rewrite (search_url_needs_host _ Hhost).
    unfold match_short.
    change ("/" ++ name) with (String "/" name).
    rewrite (span_app not_slash owner (String "/" name) Ho2 eq_refl).
    destruct owner as [|a owner]; [congruence|].
    replace name with (name ++ "") at 1 by apply append_empty_r.
    rewrite (span_app not_slash name "" Hn2 I).
    destruct name as [|b name]; [congruence | reflexivity]. }
  split; [exact Short|]. split; [|split].
  - intros url Hhost. split.
    + intros Hraise.
      destruct (Nat.eq_dec (count "/" url) 1) as [Hc|Hc]; [|now left].
      destruct (startswith url "/") eqn:Hs; [right; now left|].
      destruct (endswith_char url "/") eqn:He; [right; now right|].
      exfalso.
      destruct (proj2 (short_form_spec url) (conj Hc (conj Hs He)))
        as (owner & name & -> & Ho & Hn1 & Hn2).
      rewrite (Short owner name Ho Hn1 Hn2 Hhost) in Hraise. discriminate.
    + intros Hform.
      unfold parse_github_url. rewrite (search_url_needs_host _ Hhost).
      destruct (match_short url) as [[o n]|] eqn:M; [|reflexivity].
      exfalso. apply match_short_spec in M.
      destruct (proj1 (short_form_spec url)) as (Hc & Hs & He).
      { exists o, n. exact M. }
      destruct Hform as [H|[H|H]]; congruence.
  - intros url H. unfold parse_github_url. rewrite (search_url_slash _ H).
    unfold match_short.
    destruct (span not_slash url) as [[|a o] [|x rest2]] eqn:S1; try reflexivity.
    apply span_slash in S1. lia.
  - intros url owner name. unfold parse_github_url.
    destruct (search_url url) as [[o n]|] eqn:S.
    + intros [= <- <-]. destruct (search_url_groups _ _ _ S) as [Ho [_ Hn]].
      split; [exact Ho|]. apply remove_from_keeps. now apply all_chars_weaken.
    + destruct (match_short url) as [[o n]|] eqn:M; [|discriminate].
      intros [= <- <-]. apply match_short_spec in M.
      destruct M as (_ & Ho & _ & Hn).
      split; [exact Ho|]. now apply remove_from_keeps.
Qed.

(** ** create_repository *)

Lemma parse_stored_address owner name :
  owner_like owner -> name_like name ->
  parse_github_url ("https://github.com/" ++ owner ++ "/" ++ name) = Ok (owner, name).
Proof.
  intros Ho Hn.
  pose proof (search_url_address "/" owner name "" eq_refl Ho Hn I) as H.
  rewrite append_empty_r in H. cbn [append] in H.
  unfold parse_github_url. cbn [append].
  repeat (rewrite search_skip by reflexivity).
  rewrite H. rewrite remove_git_from_name by apply Hn. reflexivity.
Qed.

Lemma registered_app owner name rows more :
  registered owner name (rows ++ more) =
  (registered owner name rows ++ registered owner name more)%list.
Proof. unfold registered. apply filter_app. Qed.

Lemma create_repository_duplicate new_id url repositories owner name row :
  parse_github_url url = Ok (owner, name) ->
  registered owner name repositories = [row] ->
  create_repository new_id url repositories = (already_registered, repositories).
Proof.
  intros Hparse Hreg. unfold create_repository. rewrite Hparse.
  fold (registered owner name repositories). now rewrite Hreg.
Qed.

(** [create_repository] registers an owner and name once. It appends a
    row, with the address in its normal form, no revision and no
    summary, only when the address is accepted and no row has its owner
    and name; every other answer leaves the table as it is. Owners and
    names that were unique stay unique, a second registration of the
    same address is answered with 400, and so is the registration of the
    stored address when the first address named the host. *)
Theorem registration_keeps_names_unique new_id url repositories :
  (names_unique repositories ->
   names_unique (snd (create_repository new_id url repositories))) /\
  (forall row,
     fst (create_repository new_id url repositories) = Ok (inr row) ->
     exists owner name,
       parse_github_url url = Ok (owner, name) /\
       row = mkRepositoryRow (mkRepository new_id name owner None None)
                             ("https://github.com/" ++ owner ++ "/" ++ name) "main" /\
       registered owner name repositories = [] /\
       snd (create_repository new_id url repositories) = (repositories ++ [row])%list /\
       (forall id',
          create_repository id' url (repositories ++ [row]) =
          (already_registered, (repositories ++ [row])%list)) /\
       (search_url url <> None ->
        forall id',
          create_repository id' (github_url row) (repositories ++ [row]) =
          (already_registered, (repositories ++ [row])%list))) /\
  ((forall row, fst (create_repository new_id url repositories) <> Ok (inr row)) ->
   snd (create_repository new_id url repositories) = repositories).
Proof.
  destruct (parse_github_url url) as [[owner name]|e] eqn:Hparse.
  2:{ assert (Hc : create_repository new_id url repositories =
                   (Ok (inl (mkHTTPException 400 e)), repositories)).
      { unfold create_repository. now rewrite Hparse. }
      rewrite Hc. cbn [fst snd].
      split; [auto|]. split; [intros row H; discriminate | auto]. }
  destruct (registered owner name repositories) as [|r0 [|r1 rest]] eqn:Hreg.
  - set (row := mkRepositoryRow (mkRepository new_id name owner None None)
                                ("https://github.com/" ++ owner ++ "/" ++ name) "main").
    assert (Hc : create_repository new_id url repositories =
                 (Ok (inr row), (repositories ++ [row])%list)).
    { unfold create_repository. rewrite Hparse.
      fold (registered owner name repositories). now rewrite Hreg. }
    assert (Hnew : registered owner name (repositories ++ [row]) = [row]).
    { rewrite registered_app, Hreg. unfold registered, row. simpl.
      now rewrite !String.eqb_refl. }
    rewrite Hc. cbn [fst snd].
    split; [|split].
    + intros Huniq o n. rewrite registered_app, length_app.
      destruct (String.eqb owner o && String.eqb name n) eqn:E.
      * apply andb_true_iff in E. destruct E as [E1 E2].
        apply String.eqb_eq in E1, E2. subst o n.
        rewrite Hreg. unfold registered, row. simpl.
        rewrite !String.eqb_refl. simpl. lia.
      * specialize (Huniq o n).
        unfold registered at 2. unfold row. simpl. rewrite E. simpl. lia.
    + intros row' [= <-]. exists owner, name.
      split; [reflexivity|]. split; [reflexivity|]. split; [exact Hreg|].
      split; [reflexivity|]. split.
      * intros id'.
        apply (create_repository_duplicate id' url _ owner name row Hparse Hnew).
      * intros Hhost id'.
        apply (create_repository_duplicate id' _ _ owner name row); [|exact Hnew].
        unfold parse_github_url in Hparse.
        destruct (search_url url) as [[o n]|] eqn:S; [|congruence].
        destruct (search_url_groups _ _ _ S) as [Ho Hn].
        injection Hparse as <- <-.
        unfold row. cbn [github_url].
        rewrite !remove_git_from_name by apply Hn.
        now apply parse_stored_address.
    + intros H. exfalso. apply (H row). reflexivity.
  - assert (Hc : create_repository new_id url repositories =
                 (already_registered, repositories)).
    { apply (create_repository_duplicate _ _ _ owner name r0 Hparse Hreg). }
    rewrite Hc. cbn [fst snd].
    split; [auto|]. split; [intros row H; discriminate | auto].
  - assert (Hc : snd (create_repository new_id url repositories) = repositories /\
                 forall row, fst (create_repository new_id url repositories) <> Ok (inr row)).
    { unfold create_repository. rewrite Hparse.
      fold (registered owner name repositories). rewrite Hreg.
      cbn. split; [reflexivity | intros row H; discriminate]. }
    destruct Hc as [Hs Hf]. rewrite Hs.
    split; [auto|]. split; [intros row H; now apply Hf in H | auto].
Qed.

(** ** get_directory *)

Lemma get_directory_rows repo p s :
  get_directory (repo_id repo) p s =
  match scalar_one_or_none (rows_for repo p s) with
  | Raise e => Raise e
  | Ok None => Ok (inl (mkHTTPException 404 "Directory not found"))
  | Ok (Some directory) =>
      Ok (inr (mkDirectoryDetail
                 directory
                 (filter (fun c => option_nat_eqb (dir_parent_id c)
                                                  (Some (dir_id directory)))
                         (directories s))
                 (filter (fun f => Nat.eqb (file_directory_id f) (dir_id directory))
                         (files s))))
  end.
Proof. reflexivity. Qed.

(** The directories the worker makes are the ones the interface serves.
    A path without a row is answered with 404; after [_ensure_directory]
    returned a row for the path, [get_directory] answers the path with
    that row. When the call had to make the row of a path that is not
    empty, the directory of the path is served as well, the new row
    points to it, and it lists the new row among its children. *)
Theorem ensured_directory_is_served repo depth p s d s' :
  _ensure_directory depth repo p s = (Ok d, s') ->
  (exists detail,
     get_directory (repo_id repo) p s' = Ok (inr detail) /\
     dd_directory detail = d) /\
  (rows_for repo p s = [] ->
   get_directory (repo_id repo) p s =
     Ok (inl (mkHTTPException 404 "Directory not found")) /\
   (p <> "" ->
    exists parent detail,
      get_directory (repo_id repo) (dirname p) s' = Ok (inr detail) /\
      dd_directory detail = parent /\
      dir_parent_id d = Some (dir_id parent) /\
      In d (dd_children detail))).
Proof.
  intros H. split.
  - rewrite get_directory_rows, (ensure_directory_found repo _ _ _ _ _ H).
    cbn [scalar_one_or_none]. eexists. split; reflexivity.
  - intros Hnone. split.
    { rewrite get_directory_rows, Hnone. reflexivity. }
    intros Hp.
    destruct depth as [|depth]; [discriminate|].
    rewrite ensure_directory_step, Hnone in H. cbn [scalar_one_or_none] in H.
    destruct p as [|c p']; [congruence|].
    change (negb (truthy (Some (String c p')))) with false in H. cbv iota in H.
    set (p := String c p') in *.
    destruct (_ensure_directory depth repo (dirname p) s) as [[parent|e] s1] eqn:E;
      [|discriminate].
    pose proof (ensure_directory_found repo _ _ _ _ _ E) as Hparent.
    unfold add_directory in H. injection H as <- <-.
    assert (Hneq : dirname p <> p).
    { intros Hfix.
      destruct (ensure_directory_stuck repo p s Hfix Hp Hnone (S depth)) as [e He].
      rewrite ensure_directory_step, Hnone in He. cbn [scalar_one_or_none] in He.
      change (negb (truthy (Some p))) with false in He. cbv iota in He.
      rewrite E in He. discriminate. }
    eexists parent, _. split.
    { rewrite get_directory_rows.
      erewrite rows_for_app by reflexivity.
      rewrite Hparent. cbn [filter dir_repository_id dir_path app].
      replace (String.eqb p (dirname p)) with false
        by (symmetry; apply String.eqb_neq; congruence).
      rewrite andb_false_r. cbn [scalar_one_or_none]. reflexivity. }
    split; [reflexivity|]. split; [reflexivity|].
    cbn [dd_children directories]. apply filter_In. split.
    + apply in_or_app. right. now left.
    + cbn [dir_parent_id option_nat_eqb]. apply Nat.eqb_refl.
Qed.

End Api.
(* ===================================================================== *)
(** * The stored forest, read back through the interface *)
(* ===================================================================== *)

Section ServedForest.
Import Py Models ParserService JobsApi Tasks RepositoriesApi.
Import PipelineSpec Forest Stored.

Lemma app_same_length {A : Type} (a b c d : list A) :
  (a ++ b = c ++ d)%list -> length a = length c -> a = c /\ b = d.
Proof.
  revert c. induction a as [|x a IH]; intros [|y c] H L; simpl in *;
    try discriminate; [auto|].
  injection H as -> H. injection L as L.
  destruct (IH c H L) as [-> ->]. auto.
Qed.

Lemma filter_none {A : Type} (f : A -> bool) (l : list A) :
  Forall (fun x => f x = false) l -> filter f l = [].
Proof.
  induction 1 as [|x l Hx _ IH]; simpl; [reflexivity|]. now rewrite Hx.
Qed.

Lemma filter_all {A : Type} (f : A -> bool) (l : list A) :
  Forall (fun x => f x = true) l -> filter f l = l.
Proof.
  induction 1 as [|x l Hx _ IH]; simpl; [reflexivity|]. now rewrite Hx, IH.
Qed.

Lemma ids_split (a b : list CodeUnit) lo :
  map cu_id (a ++ b) = seq lo (length (a ++ b)) ->
  map cu_id a = seq lo (length a) /\
  map cu_id b = seq (lo + length a) (length b).
Proof.
  rewrite map_app, length_app, seq_app. intros H.
  apply app_same_length in H; [exact H|].
  now rewrite length_map, length_seq.
Qed.

Lemma inside_weaken lo hi lo' hi' parent r :
  lo' <= lo -> hi <= hi' -> inside lo hi parent r -> inside lo' hi' parent r.
Proof.
  intros H1 H2 [Hid Hp]. split; [lia|].
  destruct Hp as [Hp|(p & Hp & Hr)]; [now left|].
  right. exists p. split; [exact Hp | lia].
Qed.

Lemma outside_weaken lo hi lo' hi' r :
  lo <= lo' -> hi' <= hi -> outside lo hi r -> outside lo' hi' r.
Proof.
  intros H1 H2 [Hid Hp]. split; [lia|].
  intros p E. specialize (Hp p E). lia.
Qed.

Lemma inside_outside lo hi parent a b r :
  inside lo hi parent r ->
  (forall q, parent = Some q -> q < a \/ b <= q) ->
  hi <= a \/ b <= lo ->
  outside a b r.
Proof.
  intros [Hid Hp] Hq Hd. split; [lia|].
  intros p E. destruct Hp as [Hp|(p' & Hp & Hr)].
  - apply Hq. congruence.
  - rewrite Hp in E. injection E as <-. lia.
Qed.

(** The rows that store one unit have their keys, and the keys of their
    parents apart from that of the first, in the range of the keys
    drawn for them. *)
Lemma segment_inside fid parent u rows lo :
  stored_as fid parent u rows ->
  map cu_id rows = seq lo (length rows) ->
  exists row segments,
    rows = row :: concat segments /\
    cu_id row = lo /\ cu_parent_id row = parent /\
    Forall (inside lo (lo + length rows) parent) rows /\
    Forall (fun r => exists p, cu_parent_id r = Some p /\ lo <= p)
           (concat segments).
Proof.
  intros H Hids.
  inversion H as [? ? row segments F1 F2 F3 F4 F5 F6 F7 F8 F9 F10 E1 E2 E3]; subst.
  cbn [map length seq] in Hids. injection Hids as Hrow Htail.
  exists row, segments. split; [reflexivity|]. split; [exact Hrow|].
  split; [reflexivity|].
  assert (Hin : forall r, In r (concat segments) ->
                          S lo <= cu_id r < S lo + length (concat segments)).
  { intros r Hr. apply (in_map cu_id) in Hr. rewrite Htail in Hr.
    apply in_seq in Hr. exact Hr. }
  rewrite Forall_forall in F10.
  split.
  - constructor.
    + split; [cbn [length]; lia | now left].
    + apply Forall_forall. intros r Hr.
      specialize (Hin r Hr). destruct (F10 r Hr) as (p & P1 & P2 & P3).
      split; [cbn [length]; lia|].
      right. exists p. split; [exact P1 | cbn [length]; lia].
  - apply Forall_forall. intros r Hr.
    destruct (F10 r Hr) as (p & P1 & P2 & P3).
    exists p. split; [exact P1 | lia].
Qed.

Lemma segments_inside fid parent :
  forall units segments,
    Forall2 (stored_as fid parent) units segments ->
    forall lo,
      map cu_id (concat segments) = seq lo (length (concat segments)) ->
      Forall (inside lo (lo + length (concat segments)) parent) (concat segments).
Proof.
  induction 1 as [|u rows units segments Hu Hrest IH]; intros lo Hids;
    [constructor|].
  cbn [concat] in *. apply ids_split in Hids. destruct Hids as [Ha Hb].
  destruct (segment_inside _ _ _ _ _ Hu Ha) as (_ & _ & _ & _ & _ & Hin & _).
  specialize (IH _ Hb). rewrite length_app.
  apply Forall_app. split.
  - eapply Forall_impl; [|exact Hin].
    intros r. apply inside_weaken; lia.
  - eapply Forall_impl; [|exact IH].
    intros r. apply inside_weaken; lia.
Qed.

Lemma stored_as_file fid :
  forall u parent rows,
    stored_as fid parent u rows -> Forall (fun r => cu_file_id r = fid) rows.
Proof.
  induction u as [ty nm sl el sg src chs md IH] using CodeUnitInfo_forall_ind.
  intros parent rows H.
  inversion H as [? ? row segments F1 F2 F3 F4 F5 F6 F7 F8 F9 F10 E1 E2 E3]; subst.
  constructor; [reflexivity|].
  cbn [children] in F9. clear - IH F9. revert IH.
  induction F9 as [|c seg chs' segs Hc Hrest IHrest]; intros IH; [constructor|].
  inversion IH as [|? ? IHc IHchs]; subst.
  cbn [concat]. apply Forall_app. split; [apply (IHc _ _ Hc) | now apply IHrest].
Qed.

(** The rows of a list of units stored side by side are served, when
    the rows of each unit are: the rows that point to [parent] are the
    first rows of the units. *)
Lemma segments_served fid s parent :
  forall units segments,
    Forall2 (stored_as fid parent) units segments ->
    Forall (fun u => forall parent' rows lo pre post,
              stored_as fid parent' u rows ->
              map cu_id rows = seq lo (length rows) ->
              (forall p, parent' = Some p -> p < lo) ->
              code_units s = (pre ++ rows ++ post)%list ->
              Forall (outside lo (lo + length rows)) (pre ++ post) ->
              exists row tail, rows = row :: tail /\ served s u row) units ->
    forall lo pre post,
      map cu_id (concat segments) = seq lo (length (concat segments)) ->
      (forall p, parent = Some p -> p < lo) ->
      code_units s = (pre ++ concat segments ++ post)%list ->
      Forall (outside lo (lo + length (concat segments))) (pre ++ post) ->
      exists heads,
        Forall2 (served s) units heads /\
        filter (fun c => option_nat_eqb (cu_parent_id c) parent) (concat segments)
          = heads.
Proof.
  induction 1 as [|u rows units segments Hu Hrest IH];
    intros Hall lo pre post Hids Hparent Hs Hout.
  - exists []. split; [constructor | reflexivity].
  - inversion Hall as [|? ? Hserve Hall']; subst.
    cbn [concat] in *.
    destruct (ids_split _ _ _ Hids) as [Ha Hb].
    rewrite length_app in Hout.
    apply Forall_app in Hout. destruct Hout as [Hpre Hpost].
    pose proof (segments_inside _ _ _ _ Hrest _ Hb) as Hlater.
    destruct (segment_inside _ _ _ _ _ Hu Ha)
      as (row & segs & Erows & Hid & Hpar & Hin & Hdeep).
    (* the first unit *)
    destruct (Hserve parent rows lo pre (concat segments ++ post)%list Hu Ha Hparent)
      as (row' & tail & E' & Hrow).
    { rewrite Hs, <- app_assoc. reflexivity. }
    { apply Forall_app. split; [|apply Forall_app; split].
      - eapply Forall_impl; [|exact Hpre]. intros r. apply outside_weaken; lia.
      - eapply Forall_impl; [|exact Hlater]. intros r Hr.
        apply (inside_outside _ _ _ _ _ _ Hr); [|lia].
        intros q Hq. left. now apply Hparent.
      - eapply Forall_impl; [|exact Hpost]. intros r. apply outside_weaken; lia. }
    rewrite Erows in E'. injection E' as <- <-.
    (* the units after it *)
    destruct (IH Hall' (lo + length rows) (pre ++ rows)%list post Hb)
      as (heads & Hheads & Hfilter).
    { intros p Hp. specialize (Hparent p Hp). lia. }
    { rewrite Hs, <- !app_assoc. reflexivity. }
    { rewrite <- app_assoc. apply Forall_app. split; [|apply Forall_app; split].
      - eapply Forall_impl; [|exact Hpre]. intros r. apply outside_weaken; lia.
      - eapply Forall_impl; [|exact Hin]. intros r Hr.
        apply (inside_outside _ _ _ _ _ _ Hr); [|lia].
        intros q Hq. left. specialize (Hparent q Hq). lia.
      - eapply Forall_impl; [|exact Hpost]. intros r. apply outside_weaken; lia. }
    exists (row :: heads). split; [constructor; assumption|].
    rewrite filter_app, Hfilter, Erows. cbn [filter].
    rewrite Hpar.
    replace (option_nat_eqb parent parent) with true
      by (destruct parent; simpl; [now rewrite Nat.eqb_refl | reflexivity]).
    rewrite filter_none; [reflexivity|].
    eapply Forall_impl; [|exact Hdeep].
    intros r (p & Hp & Hlo). rewrite Hp.
    destruct parent as [q|]; [|reflexivity].
    simpl. apply Nat.eqb_neq. specialize (Hparent q eq_refl). lia.
Qed.

(** The rows that store a unit are served, wherever they stand in the
    table, as long as no other row has a key or a parent among their
    keys. *)
Lemma stored_unit_served fid s :
  forall u parent rows lo pre post,
    stored_as fid parent u rows ->
    map cu_id rows = seq lo (length rows) ->
    (forall p, parent = Some p -> p < lo) ->
    code_units s = (pre ++ rows ++ post)%list ->
    Forall (outside lo (lo + length rows)) (pre ++ post) ->
    exists row tail, rows = row :: tail /\ served s u row.
Proof.
  induction u as [ty nm sl el sg src chs md IH] using CodeUnitInfo_forall_ind.
  intros parent rows lo pre post H Hids Hparent Hs Hout.
  set (u := mkCodeUnitInfo ty nm sl el sg src chs md) in *.
  destruct (segment_inside _ _ _ _ _ H Hids)
    as (row & segments & Erows & Hid & Hpar & Hin & Hdeep).
  inversion H as [? ? row' segments' F1 F2 F3 F4 F5 F6 F7 F8 F9 F10 E1 E2 E3].
  subst parent0 u0. rewrite Erows in E3. injection E3 as -> E3.
  assert (Hsame : concat segments' = concat segments) by exact E3.
  clear E3.
  exists row, (concat segments). split; [now rewrite Hsame|].
  rewrite Erows in Hids, Hs, Hout.
  cbn [map length seq] in Hids. injection Hids as _ Hkids.
  apply Forall_app in Hout. destruct Hout as [Hpre Hpost].
  cbn [length] in Hpre, Hpost.
  destruct (segments_served fid s (Some (cu_id row)) chs segments' F9 IH
              (S lo) (pre ++ [row])%list post)
    as (heads & Hheads & Hfilter).
  { rewrite Hsame. exact Hkids. }
  { intros p [= <-]. lia. }
  { rewrite Hs, Hsame, <- app_assoc. reflexivity. }
  { rewrite Hsame, <- app_assoc. apply Forall_app. split; [|apply Forall_app; split].
    - eapply Forall_impl; [|exact Hpre]. intros r. apply outside_weaken; lia.
    - constructor; [|constructor]. split; [lia|].
      intros p Hp. left. rewrite Hpar in Hp. specialize (Hparent p Hp). lia.
    - eapply Forall_impl; [|exact Hpost]. intros r. apply outside_weaken; lia. }
  rewrite Hsame in Hfilter.
  apply (served_unit s u row heads); try assumption.
  unfold get_code_unit. rewrite Hs, !filter_app. cbn [filter].
  rewrite Hid, Nat.eqb_refl.
  assert (Hkeys : forall l, Forall (outside lo (lo + S (length (concat segments)))) l ->
                            filter (fun cu => Nat.eqb (cu_id cu) lo) l = []).
  { intros l Hl. apply filter_none. eapply Forall_impl; [|exact Hl].
    intros r [Hr _]. apply Nat.eqb_neq. lia. }
  assert (Hparents : forall l, Forall (outside lo (lo + S (length (concat segments)))) l ->
                               filter (fun c => option_nat_eqb (cu_parent_id c) (Some lo)) l
                               = []).
  { intros l Hl. apply filter_none. eapply Forall_impl; [|exact Hl].
    intros r [_ Hr]. destruct (cu_parent_id r) as [p|]; [|reflexivity].
    simpl. apply Nat.eqb_neq. specialize (Hr p eq_refl). lia. }
  rewrite (Hkeys pre Hpre), (Hkeys post Hpost).
  rewrite (filter_none _ (concat segments)).
  2:{ apply Forall_forall. intros r Hr. apply (in_map cu_id) in Hr.
      rewrite Hkids in Hr. apply in_seq in Hr. apply Nat.eqb_neq. lia. }
  cbn [app scalar_one_or_none].
  rewrite !filter_app. cbn [filter]. rewrite Hid, Hpar.
  replace (option_nat_eqb parent (Some lo)) with false.
  2:{ destruct parent as [q|]; [|reflexivity].
      simpl. symmetry. apply Nat.eqb_neq. specialize (Hparent q eq_refl). lia. }
  rewrite !filter_app.
  rewrite (Hparents pre Hpre), (Hparents post Hpost).
  rewrite Hid in Hfilter. rewrite Hfilter.
  cbn [app]. rewrite app_nil_r. reflexivity.
Qed.

Lemma segments_file fid parent :
  forall units segments,
    Forall2 (stored_as fid parent) units segments ->
    Forall (fun r => cu_file_id r = fid) (concat segments).
Proof.
  induction 1 as [|u rows units segments Hu Hrest IH]; [constructor|].
  cbn [concat]. apply Forall_app. split; [|exact IH].
  apply (stored_as_file _ _ _ _ Hu).
Qed.

(** What the unit loop of [_process_file] stores can be read back
    through the interface. When the keys in [code_units] were drawn from
    the supply, no row belongs to the file yet and the look-up of
    [get_file] finds the file, then after the loop [get_file] lists one
    row for each top-level unit of the parse result, in order, and
    [get_code_unit], followed from these rows through the children it
    lists, walks the forest: every unit is answered with the row that
    holds its type, name, lines, signature and metadata, and the
    children listed are the rows of the units nested in it. The keys
    are again drawn from the supply afterwards. *)
Theorem stored_forest_is_served (w : World) file_record language units s
        repo_id path :
  unit_keys_ok s ->
  Forall (fun r => cu_file_id r <> file_id file_record) (code_units s) ->
  scalar_one_or_none
    (files_joined repo_id (fun f => String.eqb (file_path f) path) s)
    = Ok (Some file_record) ->
  let s' := snd (create_code_units w file_record language units s) in
  unit_keys_ok s' /\
  exists tops,
    get_file repo_id path s' = Ok (inr (mkFileDetail file_record tops)) /\
    Forall2 (served s') units tops.
Proof.
  intros Hkeys Hfile Hlookup s'.
  destruct (create_code_units_stores w file_record language units s)
    as (segments & G1 & G2 & G3 & _ & _ & G6 & G7 & G8).
  fold s' in G1, G6, G7, G8.
  assert (Hlen : length (concat segments) = length (all_units units)).
  { rewrite <- (length_map cu_id), G3. apply length_seq. }
  rewrite <- Hlen in G3, G6.
  pose proof (segments_inside _ _ _ _ G2 _ G3) as Hinside.
  split.
  - unfold unit_keys_ok. rewrite G1, G6. apply Forall_app. split.
    + eapply Forall_impl; [|exact Hkeys].
      intros r [Hid Hp]. split; [lia|].
      intros p E. specialize (Hp p E). lia.
    + eapply Forall_impl; [|exact Hinside].
      intros r [Hid Hp]. split; [lia|].
      intros p E. destruct Hp as [Hp|(p' & Hp & Hr)]; [congruence|].
      rewrite Hp in E. injection E as <-. lia.
  - destruct (segments_served (file_id file_record) s' None units segments G2)
      with (lo := next_id s) (pre := code_units s) (post := @nil CodeUnit)
      as (heads & Hheads & Hfilter).
    + apply Forall_forall. intros u _ parent' rows lo pre post.
      apply stored_unit_served.
    + exact G3.
    + intros p E. discriminate.
    + rewrite app_nil_r. exact G1.
    + rewrite app_nil_r. eapply Forall_impl; [|exact Hkeys].
      intros r [Hid Hp]. split; [lia|].
      intros p E. specialize (Hp p E). lia.
    + exists heads. split; [|exact Hheads].
      unfold get_file, files_joined. rewrite G7, G8.
      fold (files_joined repo_id (fun f => String.eqb (file_path f) path) s).
      rewrite Hlookup. rewrite G1, filter_app.
      rewrite (filter_none _ (code_units s)).
      2:{ eapply Forall_impl; [|exact Hfile].
          intros r Hr. now apply Nat.eqb_neq. }
      rewrite (filter_all _ (concat segments)).
      2:{ eapply Forall_impl; [|exact (segments_file _ _ _ _ G2)].
          intros r Hr. now apply Nat.eqb_eq. }
      cbn [app]. now rewrite Hfilter.
Qed.

End ServedForest.
(* ===================================================================== *)
(** * Witnesses on the sample inputs *)
(* ===================================================================== *)

Section MoreWitnesses.
Import Py Models ParserService Tasks PipelineSpec Forest Persistence Stored Samples MoreSamples.
Import UrlSpec.

(** Witness: a read-me file in a sub-directory. *)
Lemma unsupported_path_is_not_stored_witness :
  detect_language "docs/README.md" = None /\
  files (snd (_process_file demo_world 50 demo_repo "docs/README.md" empty_session)) = [] /\
  map dir_path
      (directories
         (snd (_process_file demo_world 50 demo_repo "docs/README.md" empty_session)))
  = [""; "docs"].
Proof.
  split; [reflexivity|]. split.
  - exact (proj1 (proj2 (unsupported_path_is_not_stored
                           demo_world 50 demo_repo "docs/README.md" empty_session
                           eq_refl))).
  - reflexivity.
Defined.

(** Witness: a file that is gone, in a session that holds the root
    directory. *)
Lemma unreadable_path_is_counted_and_kept_witness :
  _process_file missing_world 50 demo_repo "gone.py" analysed_session =
  (Raise "File not found: gone.py", analysed_session).
Proof.
  refine (proj1 (unreadable_path_is_counted_and_kept
                   missing_world 50 demo_repo "gone.py" analysed_session
                   (mkDirectory 100 1 None "" "demo" None) analysed_session _ _));
    reflexivity.
Defined.

(** Witness: a summarized file in the directory [src] below the root;
    the repository gets the answer of the model as its summary. *)
Lemma file_summaries_reach_the_repository_witness :
  fst (_generate_repository_summary
         demo_world demo_repo
         (snd (_generate_directory_summaries demo_world demo_repo summarized_session)))
  = Ok (set_repo_summary demo_repo (Some "text")).
Proof.
  assert (Hnodup : NoDup (map dir_id (directories summarized_session))).
  { simpl. repeat constructor; simpl; intuition discriminate. }
  assert (Hllm : forall log p fs ds, exists t,
             llm demo_world log (summarize_directory p fs ds) = Ok (Some t) /\ t <> "").
  { intros. exists "text". split; [reflexivity | discriminate]. }
  assert (Hbelow : below_root demo_repo summarized_session
                              (mkDirectory 100 1 None "" "demo" None)
                              (mkDirectory 101 1 (Some 100) "src" "src" None)).
  { apply below_direct; [simpl; auto | reflexivity | reflexivity | discriminate]. }
  destruct (file_summaries_reach_the_repository
              demo_world demo_repo summarized_session
              (mkDirectory 100 1 None "" "demo" None)
              (mkDirectory 101 1 (Some 100) "src" "src" None)
              (mkFile 5 101 "src/a.py" "a.py" (Some "python") (Some "h")
                      (Some "helpers") (Some 1))
              Hnodup eq_refl Hllm (or_introl eq_refl) eq_refl eq_refl
              (or_intror Hbelow))
    as (root1 & _ & _ & _ & Hrun).
  cbv zeta in Hrun. rewrite Hrun. reflexivity.
Defined.


(** Witness: the sample run. *)
Lemma run_completes_whatever_files_and_model_do_witness :
  exists r,
    analyze_repository demo_world 50 10 20 [demo_job] [demo_repo] empty_session =
    Finished (Ok tt) r /\
    status (run_job r) = "completed".
Proof.
  destruct (run_completes_whatever_files_and_model_do
              demo_world 50 10 20 demo_job demo_repo empty_session
              "89abcde" demo_changed eq_refl)
    as (r & Hrun & Hstatus & _).
  - unfold at_most_one_root. simpl. lia.
  - exists r. split; assumption.
Defined.

(** Witness: a run while the remote cannot be reached. *)
Lemma failed_run_keeps_the_revision_witness :
  exists r,
    analyze_repository offline_world 50 10 20 [demo_job] [demo_repo] empty_session =
    Finished (Raise "could not resolve host") r /\
    status (run_job r) = "failed" /\
    run_repo r = demo_repo.
Proof.
  eexists. split; [reflexivity|].
  pose proof (proj1 (failed_run_keeps_the_revision
                       offline_world 50 10 20 demo_job demo_repo empty_session)
                    _ _ eq_refl) as H.
  split; [exact (proj1 H) | exact (proj1 (proj2 (proj2 H)))].
Defined.

(** Witness: the selection in the sample working tree. *)
Lemma full_job_selects_the_parsable_files_witness :
  _get_all_supported_files walk_world "/data/repos/octo/demo" = ["a.py"; "src/b.ts"] /\
  exists parse_result,
    parse_file (parse walk_world) "src/b.ts" "x = 1" = Some parse_result.
Proof.
  split; [reflexivity|].
  apply (proj2 (full_job_selects_the_parsable_files walk_world "/data/repos/octo/demo")).
  simpl. tauto.
Defined.

(** Witness: the sample class file, processed twice. *)
Lemma processing_twice_changes_nothing_witness :
  snd (_process_file class_world 50 demo_repo "c.py"
         (snd (_process_file class_world 50 demo_repo "c.py" empty_session))) =
  snd (_process_file class_world 50 demo_repo "c.py" empty_session).
Proof.
  eapply (processing_twice_changes_nothing class_world 50 demo_repo "c.py"
                                           empty_session).
  - reflexivity.
  - split; constructor.
Defined.

(** Witness: the sample class file over a record of an earlier
    content. *)
Lemma changed_file_gets_its_units_replaced_witness :
  exists segments,
    Forall2 (stored_as 5 None)
            (ParserService.code_units
               (mkParseResult "python"
                  (_extract_code_units two_methods_root two_methods_source "python" None)
                  6))
            segments /\
    map cu_name (code_units (snd (_process_file class_world 50 demo_repo "c.py"
                                                stale_session))) =
    (["other"] ++ map cu_name (concat segments))%list.
Proof.
  destruct (proj1 (changed_file_gets_its_units_replaced
                     class_world 50 demo_repo "c.py" stale_session
                     (mkDirectory 100 1 None "" "demo" None) stale_session
                     two_methods_source
                     (mkFile 5 100 "c.py" "c.py" (Some "python") (Some "old")
                             (Some "old summary") (Some 1))
                     (mkParseResult "python"
                        (_extract_code_units two_methods_root two_methods_source
                                             "python" None) 6)
                     eq_refl eq_refl eq_refl ltac:(discriminate) eq_refl))
    as (segments & Hstored & Hunits & _).
  exists segments. split; [exact Hstored|].
  rewrite Hunits, map_app. reflexivity.
Defined.

(** Witness: directories without any summarized content. *)
Lemma directory_summaries_write_summaries_only_witness :
  snd (_generate_directory_summaries demo_world demo_repo four_directories) =
  four_directories.
Proof.
  apply (proj2 (proj2 (proj2 (proj2 (proj2
           (directory_summaries_write_summaries_only
              demo_world demo_repo four_directories)))))).
  - constructor.
  - repeat constructor.
Defined.

(** Witness: a summarized file two levels below the root. *)
Lemma summaries_reach_every_ancestor_witness :
  truthy (row_summary 101 (snd (_generate_directory_summaries
                                  demo_world demo_repo summarized_session))) = true /\
  truthy (row_summary 100 (snd (_generate_directory_summaries
                                  demo_world demo_repo summarized_session))) = true.
Proof.
  assert (Hnodup : NoDup (map dir_id (directories summarized_session))).
  { simpl. repeat constructor; simpl; intuition discriminate. }
  assert (Hllm : forall log p fs ds, exists t,
             llm demo_world log (summarize_directory p fs ds) = Ok (Some t) /\ t <> "").
  { intros. exists "text". split; [reflexivity | discriminate]. }
  destruct (summaries_reach_every_ancestor demo_world demo_repo summarized_session
              Hnodup Hllm) as [Hfiles Hdirs].
  assert (Hsrc : truthy (row_summary 101 (snd (_generate_directory_summaries
                                  demo_world demo_repo summarized_session))) = true).
  { apply (Hfiles (mkDirectory 101 1 (Some 100) "src" "src" None)
                  (mkFile 5 101 "src/a.py" "a.py" (Some "python") (Some "h")
                          (Some "helpers") (Some 1)));
      simpl; auto. }
  split; [exact Hsrc|].
  apply (Hdirs (mkDirectory 100 1 None "" "demo" None)
               (mkDirectory 101 1 (Some 100) "src" "src" None) "");
    simpl; auto.
  right. split; [reflexivity | discriminate].
Defined.

(** Witness: the SSH form of an address with the [.git] ending. *)
Lemma github_addresses_are_parsed_witness :
  RepositoriesApi.parse_github_url "git@github.com:octo/demo.git" = Ok ("octo", "demo").
Proof.
  assert (Hin : In "git@github.com:" address_prefixes) by (simpl; tauto).
  assert (Ho : owner_like "octo") by (split; [discriminate | reflexivity]).
  assert (Hn : name_like "demo") by (split; [discriminate | reflexivity]).
  assert (Ht : ends_name ".git") by reflexivity.
  pose proof (proj1 (github_addresses_are_parsed "octo" "demo" ".git" Ho Hn Ht)
                    "git@github.com:" Hin) as H.
  cbn [append] in H. exact H.
Defined.

(** Witness: the short form, in which a dot is part of the name; a
    word without a slash; and three addresses that are not of the short
    form: two slashes, no owner, no name. *)
Lemma short_addresses_and_rejections_witness :
  RepositoriesApi.parse_github_url "octo/my.repo" = Ok ("octo", "my.repo") /\
  RepositoriesApi.parse_github_url "demo" = Raise "Invalid GitHub URL: demo" /\
  RepositoriesApi.parse_github_url "a/b/c" = Raise "Invalid GitHub URL: a/b/c" /\
  RepositoriesApi.parse_github_url "/b" = Raise "Invalid GitHub URL: /b" /\
  RepositoriesApi.parse_github_url "a/" = Raise "Invalid GitHub URL: a/".
Proof.
  split; [|split; [|split; [|split]]].
  - apply (proj1 short_addresses_and_rejections "octo" "my.repo").
    + split; [discriminate | reflexivity].
    + discriminate.
    + reflexivity.
    + reflexivity.
  - apply (proj1 (proj2 (proj2 short_addresses_and_rejections)) "demo"). reflexivity.
  - apply (proj2 (proj1 (proj2 short_addresses_and_rejections) "a/b/c" eq_refl)).
    left. discriminate.
  - apply (proj2 (proj1 (proj2 short_addresses_and_rejections) "/b" eq_refl)).
    right. left. reflexivity.
  - apply (proj2 (proj1 (proj2 short_addresses_and_rejections) "a/" eq_refl)).
    right. right. reflexivity.
Defined.

(** Witness: the first registration, into an empty table. *)
Lemma registration_keeps_names_unique_witness :
  UrlSpec.names_unique
    (snd (RepositoriesApi.create_repository 1 "https://github.com/octo/demo.git" [])).
Proof.
  apply (proj1 (registration_keeps_names_unique
                  1 "https://github.com/octo/demo.git" [])).
  intros owner name. simpl. lia.
Defined.

(** Witness: the directory [src/app] made in an empty session, and its
    parent [src]. *)
Lemma ensured_directory_is_served_witness :
  exists parent detail,
    RepositoriesApi.get_directory 1 "src"
      (snd (_ensure_directory 50 demo_repo "src/app" empty_session))
    = Ok (inr detail) /\
    RepositoriesApi.dd_directory detail = parent /\
    dir_path parent = "src" /\
    map dir_path (RepositoriesApi.dd_children detail) = ["src/app"].
Proof.
  destruct (proj2 (proj2 (ensured_directory_is_served
                     demo_repo 50 "src/app" empty_session
                     (mkDirectory 102 1 (Some 101) "src/app" "app" None)
                     (snd (_ensure_directory 50 demo_repo "src/app" empty_session))
                     eq_refl)
                    eq_refl)
                  ltac:(discriminate))
    as (parent & detail & Hget & Hparent & _ & _).
  exists parent, detail. split; [exact Hget|]. split; [exact Hparent|].
  vm_compute in Hget. injection Hget as <-.
  subst parent. split; reflexivity.
Defined.

(** Witness: the sample class with its two methods, stored for the
    file [m.py]. *)
Lemma stored_forest_is_served_witness :
  let units := _extract_code_units two_methods_root two_methods_source "python" None in
  let s' := snd (create_code_units class_world stored_file "python" units
                                   analysed_session) in
  exists tops,
    RepositoriesApi.get_file 1 "m.py" s'
    = Ok (inr (RepositoriesApi.mkFileDetail stored_file tops)) /\
    Forall2 (served s') units tops.
Proof.
  exact (proj2 (stored_forest_is_served
                  class_world stored_file "python"
                  (_extract_code_units two_methods_root two_methods_source "python" None)
                  analysed_session 1 "m.py"
                  (Forall_nil _) (Forall_nil _) eq_refl)).
Defined.

End MoreWitnesses.
